(** * Error correcting codes: Reed-Solomon, Viterbi and their concatenation

    A shallow embedding of [error_correctors.py] and of the simulators of
    [simulation.py] that drive it.  The three classes of the
    module ([ReedSolomon], [Viterbi], [ConcatenatedViterbiRS]) are thin
    wrappers: the block coder comes from the [unireedsolomon] package, the
    convolutional coder from the module [viterbi], the bit/byte conversions
    from the module [bitstring_utils].  The wrappers are embedded
    statement by statement; what they import is an explicit interface
    (a record of operations) that every definition and theorem takes as an
    argument. *)

From Stdlib Require Import String Ascii DecimalString.
From Stdlib Require Import List Bool Arith ZArith QArith Lia Btauto Ring.
Import ListNotations.

Set Implicit Arguments.
Close Scope Q_scope.
Open Scope nat_scope.

(** ** Python values, exceptions and loops *)

(** A Python [str]: a sequence of characters. *)
Definition str : Type := list ascii.

(** The exceptions the module can see.  [ValueError] carries its message;
    whatever an imported function raises is a [LibraryError]. *)
Inductive exn : Type :=
| ValueError (msg : string)
| IndexError
| TypeError
| LibraryError.

(** The outcome of a call: a value, or an exception that propagates. *)
Inductive result (A : Type) : Type :=
| Ok (a : A)
| Raise (e : exn).

Arguments Ok {A} a.
Arguments Raise {A} e.

Definition bind {A B : Type} (c : result A) (f : A -> result B) : result B :=
  match c with
  | Ok a => f a
  | Raise e => Raise e
  end.

Declare Scope py_scope.
Delimit Scope py_scope with py.
Notation "x <- c ;; k" := (bind c (fun x => k))
  (at level 61, c at next level, right associativity) : py_scope.
Notation "' pat <- c ;; k" := (bind c (fun x => match x with pat => k end))
  (at level 61, pat pattern, c at next level, right associativity) : py_scope.
Open Scope py_scope.

(** A call into an imported module: [None] stands for "it raised". *)
Definition imported {A : Type} (o : option A) : result A :=
  match o with
  | Some a => Ok a
  | None => Raise LibraryError
  end.

(** A list comprehension (or a loop that appends one item per iteration)
    whose body may raise: the first exception ends it. *)
Fixpoint mapM {A B : Type} (f : A -> result B) (l : list A) : result (list B) :=
  match l with
  | [] => Ok []
  | a :: l' => b <- f a ;; bs <- mapM f l' ;; Ok (b :: bs)
  end.

(** A [for] loop over [items] that updates the loop state [s]. *)
Fixpoint for_loop {S I : Type} (body : S -> I -> result S) (items : list I) (s : S)
  : result S :=
  match items with
  | [] => Ok s
  | i :: items' => s' <- body s i ;; for_loop body items' s'
  end.

(** [range(0, stop, step)] for a positive [step]. *)
Definition py_range (stop step : nat) : list nat :=
  map (fun j => j * step) (seq 0 ((stop + step - 1) / step)).

(** The slice [s[i:j]] and the slice [s[i:]]. *)
Definition slice {A : Type} (i j : nat) (s : list A) : list A :=
  firstn (j - i) (skipn i s).

Definition slice_from {A : Type} (i : nat) (s : list A) : list A := skipn i s.

(** [s[i]], which raises [IndexError] out of range. *)
Definition py_index {A : Type} (s : list A) (i : nat) : result A :=
  match nth_error s i with
  | Some a => Ok a
  | None => Raise IndexError
  end.

(** [c * m] for a one-character string [c]: empty when [m <= 0]. *)
Definition str_mul (c : ascii) (m : Z) : str := repeat c (Z.to_nat m).

(** The values that reach [Viterbi.decode] and the values the methods
    return.  A Python float is kept as the rational it denotes: the module
    never computes with one, it only passes it on. *)
#[warnings="-register-all"]
Inductive pyval : Type :=
| PyStr (s : str)
| PyFloat (x : Q)
| PyInt (z : Z)
| PyBool (b : bool)
| PyList (l : list pyval)
| PyTuple (l : list pyval)
| PyNone.

(** [isinstance(v, float)], [isinstance(v, list)], [isinstance(v, str)]. *)
Definition is_float (v : pyval) : bool :=
  match v with PyFloat _ => true | _ => false end.

Definition is_list (v : pyval) : bool :=
  match v with PyList _ => true | _ => false end.

Definition is_str (v : pyval) : bool :=
  match v with PyStr _ => true | _ => false end.

(** The decimal digit a character stands for, if it is one. *)
Definition digit_of_char (c : ascii) : option Z :=
  let v := Z.of_nat (nat_of_ascii c) in
  if (48 <=? v)%Z && (v <=? 57)%Z then Some (v - 48)%Z else None.

(** [int(c)] and [float(c)] on a one-character string. *)
Definition py_int (c : ascii) : result Z :=
  match digit_of_char c with
  | Some d => Ok d
  | None => Raise (ValueError "invalid literal for int() with base 10"%string)
  end.

Definition py_float (c : ascii) : result Q :=
  match digit_of_char c with
  | Some d => Ok (inject_Z d)
  | None => Raise (ValueError "could not convert string to float"%string)
  end.

(** [str(z)] for an integer. *)
Definition py_str (z : Z) : str :=
  list_ascii_of_string (NilZero.string_of_int (Z.to_int z)).

(** A bitstring: only the characters 0 and 1. *)
Definition is_bit (c : ascii) : Prop := c = "0"%char \/ c = "1"%char.

Definition is_bitstring (s : str) : Prop := Forall is_bit s.

(** The number a value stands for in a comparison, if it is one ([True]
    is 1, [False] is 0). *)
Definition py_number (v : pyval) : option Q :=
  match v with
  | PyFloat x => Some x
  | PyInt z => Some (inject_Z z)
  | PyBool b => Some (inject_Z (Z.b2z b))
  | _ => None
  end.

Definition str_eqb (s t : str) : bool :=
  if list_eq_dec ascii_dec s t then true else false.

(** [a == b]: strings with strings, numbers with numbers, lists with lists
    and tuples with tuples, item by item; values of different kinds are
    never equal. *)
Fixpoint py_eq (a b : pyval) {struct a} : bool :=
  let fix all_eq (l m : list pyval) {struct l} : bool :=
    match l, m with
    | [], [] => true
    | x :: l', y :: m' => py_eq x y && all_eq l' m'
    | _, _ => false
    end in
  match a, b with
  | PyStr s, PyStr t => str_eqb s t
  | PyList l, PyList m => all_eq l m
  | PyTuple l, PyTuple m => all_eq l m
  | PyNone, PyNone => true
  | _, _ =>
      match py_number a, py_number b with
      | Some x, Some y => Qeq_bool x y
      | _, _ => false
      end
  end.

(** What iterating over a value yields: the one-character strings of a
    string, the items of a list or of a tuple. *)
Definition py_iter (v : pyval) : result (list pyval) :=
  match v with
  | PyStr s => Ok (map (fun c => PyStr [c]) s)
  | PyList l => Ok l
  | PyTuple l => Ok l
  | _ => Raise TypeError
  end.

(** [zip(a, b)]: pairs up to the shorter of the two. *)
Definition py_zip (a b : pyval) : result (list (pyval * pyval)) :=
  xs <- py_iter a ;;
  ys <- py_iter b ;;
  Ok (combine xs ys).

(** [sum(c1 != c2 for c1, c2 in pairs)]: each [True] counts for 1. *)
Definition sum_ne (pairs : list (pyval * pyval)) : Z :=
  fold_left (fun total p => (total + Z.b2z (negb (py_eq (fst p) (snd p))))%Z)
            pairs 0%Z.

(** What [print] writes, line by line.  A line is the sequence of its
    literal pieces and of the values an f-string formats into it. *)
Inductive printed : Type :=
| Text (s : string)
| Value (v : pyval).

(** ** What the module imports *)

(** The imported functions are arguments of the embedding.  One that can
    raise returns an option: [None] when it raises. *)

(** [bitstring_utils]: [bitstring_to_ascii] reads a bitstring as 8-bit
    symbols, [ascii_to_bitstring] writes symbols back as bits. *)
Record bitstring_utils : Type := {
  bitstring_to_ascii : str -> option str;
  ascii_to_bitstring : str -> str
}.

(** An [unireedsolomon.RSCoder] object: [coder_encode chunk] is
    [coder.encode(chunk)], [coder_decode c] is
    [coder.decode(c, nostrip=True)], a pair (message, parity). *)
Record RSCoder : Type := {
  coder_encode : str -> option str;
  coder_decode : str -> option (str * str)
}.

(** [unireedsolomon]: the constructor [rs.RSCoder(n, k)]. *)
Record unireedsolomon : Type := {
  new_RSCoder : nat -> nat -> RSCoder
}.

(** [viterbi]: [stream_encoder K bits] yields one pair of output bits per
    input bit; [Decoder K pairs is_hard] yields the decoded bits. *)
Record viterbi_module : Type := {
  stream_encoder : Z -> list Z -> list (Z * Z);
  Decoder : Z -> list (pyval * pyval) -> bool -> option (list Z)
}.

(** ** class ReedSolomon *)

Module ReedSolomon.

(** The object: [self.n], [self.k], [self.coder]. *)
Record t : Type := {
  n : nat;
  k : nat;
  coder : RSCoder
}.

(** [__init__] (the [name] attribute, a label for printing, is left
    out). *)
Definition init (rs : unireedsolomon) (n k : nat) : t :=
  {| n := n; k := k; coder := new_RSCoder rs n k |}.

Section Methods.

Variable utils : bitstring_utils.
Variable self : t.

(** [strength]: [(self.n - self.k)/2], Python 3's true division, so the
    value is a float.  For operands below 2^53 the float is exactly this
    rational. *)
Definition strength : pyval :=
  PyFloat (inject_Z (Z.of_nat (n self) - Z.of_nat (k self)) / 2)%Q.

Definition bitstring_to_codewords (bitstring : str) : result (list str) :=
  let chunk_size := n self * 8 in
  for_loop
    (fun codewords i =>
       let chunk := slice i (i + chunk_size) bitstring in
       codeword <- imported (bitstring_to_ascii utils chunk) ;;
       Ok (codewords ++ [codeword]))
    (py_range (length bitstring) chunk_size) [].

Definition codewords_to_bitstring (codewords : list str) : str :=
  fold_left (fun bitstring c => bitstring ++ ascii_to_bitstring utils c)
            codewords [].

(** The chunk that the loop of [encode] builds at index [i]: the next k
    symbols, or the symbols left followed by [chr(0)] padding. *)
Definition chunk_at (message_symbols : str) (i : nat) : str :=
  if length message_symbols <? i + k self then
    let num_padding_symbols := k self - (length message_symbols - i) in
    slice_from i message_symbols ++ repeat zero num_padding_symbols
  else slice i (i + k self) message_symbols.

Definition encode (message_bitstring : str) : result str :=
  message_symbols <- imported (bitstring_to_ascii utils message_bitstring) ;;
  codewords <-
    for_loop
      (fun codewords i =>
         let chunk := chunk_at message_symbols i in
         codeword <- imported (coder_encode (coder self) chunk) ;;
         Ok (codewords ++ [codeword]))
      (py_range (length message_symbols) (k self)) [] ;;
  Ok (codewords_to_bitstring codewords).

Definition decode (encoded_bitstring : str) : result (str * bool) :=
  codewords <- bitstring_to_codewords encoded_bitstring ;;
  for_loop
    (fun (st : str * bool) c =>
       let '(recovered_bitstring, correctable) := st in
       let '(recovered_chunk_symbols, correctable) :=
         match coder_decode (coder self) c with
         | Some r => (fst r, correctable)
         | None => (firstn (k self) c, false)
         end in
       let recovered_chunk_bitstring :=
         ascii_to_bitstring utils recovered_chunk_symbols in
       Ok (recovered_bitstring ++ recovered_chunk_bitstring, correctable))
    codewords ([], true).

(** [check].  [decode] returns a pair, and [recovered_bitstring] is bound
    to that pair: [zip] walks the message against its two items.  The
    value is what the four [print] statements write. *)
Definition check (test_message_bitstring : str) : result (list (list printed)) :=
  codewords <- encode test_message_bitstring ;;
  recovered <- decode codewords ;;
  let recovered_bitstring :=
    PyTuple [PyStr (fst recovered); PyBool (snd recovered)] in
  pairs <- py_zip (PyStr test_message_bitstring) recovered_bitstring ;;
  let err := sum_ne pairs in
  Ok [ [Text "----- REED SOLOMON CHECK -----"];
       [Text "Input bitstring:     "; Value (PyStr test_message_bitstring)];
       [Text "Recovered bitstring: "; Value recovered_bitstring];
       [Text "Total errors: "; Value (PyInt err); Text " bits"] ].

End Methods.

End ReedSolomon.

(** ** class Viterbi *)

Module Viterbi.

(** The object: [self.k], [self.soft].  ([self.bit_encoder] is set for
    k = 2 and k = 5 and never read.) *)
Record t : Type := {
  k : Z;
  soft : bool
}.

(** The messages of the three [raise ValueError(...)] statements (the text
    before the formatted type names). *)
Definition msg_not_list : string :=
  "Input must be a list of floats if using soft decoding."%string.

Definition msg_not_floats : string :=
  "All elements in the input list must be floats."%string.

Definition msg_not_str : string :=
  "Input must be a string of 0s and 1s if using hard decoding."%string.

(** The type checks that open [Viterbi.decode] and
    [ConcatenatedViterbiRS.decode], the same statements in both. *)
Definition check_input (soft : bool) (input : pyval) : result unit :=
  if soft then
    if negb (is_list input) then Raise (ValueError msg_not_list)
    else
      match input with
      | PyList l =>
          if negb (forallb is_float l) then Raise (ValueError msg_not_floats)
          else Ok tt
      | _ => Ok tt
      end
  else
    if negb (is_str input) then Raise (ValueError msg_not_str)
    else Ok tt.

(** [len(input)] and [input[i]] need a sequence. *)
Definition as_sequence (input : pyval) : result (list pyval) :=
  match input with
  | PyList l => Ok l
  | PyStr s => Ok (map (fun c => PyStr [c]) s)
  | _ => Raise TypeError
  end.

(** The head of [decode]: the type checks, then the conversion of a string
    to a list of floats.  The result is the sequence [decode] works on. *)
Definition read_input (soft : bool) (input : pyval) : result (list pyval) :=
  _ <- check_input soft input ;;
  input <-
    match input with
    | PyStr s => l <- mapM py_float s ;; Ok (PyList (map PyFloat l))
    | _ => Ok input
    end ;;
  as_sequence input.

(** The loop of [decode] that fills [input_stream]: the observed values
    taken two by two. *)
Definition pair_observed (input : list pyval) : result (list (pyval * pyval)) :=
  for_loop
    (fun input_stream i =>
       a <- py_index input i ;;
       b <- py_index input (i + 1) ;;
       Ok (input_stream ++ [(a, b)]))
    (py_range (length input) 2) [].

(** [__init__] ([bit_encoder] and [name] are never read). *)
Definition init (k : Z) (soft : bool) : t := {| k := k; soft := soft |}.

Section Methods.

Variable lib : viterbi_module.
Variable self : t.

Definition encode (input_bitstring : str) : result str :=
  input_stream <- mapM py_int input_bitstring ;;
  let list_output := stream_encoder lib (k self) input_stream in
  Ok (fold_left
        (fun encoded_bitstring el =>
           (encoded_bitstring ++ py_str (fst el)) ++ py_str (snd el))
        list_output []).

(** [decode].  The [print] of the failure branch is left out: it has no
    part in the value returned.  [dec_list] is bound only when
    [correctable] stays true; the empty list stands for the unbound name,
    which the failure branch never reads. *)
Definition decode (input : pyval) : result (str * bool) :=
  input <- read_input (soft self) input ;;
  let len_input := Z.of_nat (length input) in
  '(correctable, dec_list) <-
    (if negb (len_input mod 2 =? 0)%Z || (len_input <? k self)%Z then
       Ok (false, [])
     else
       input_stream <- pair_observed input ;;
       match Decoder lib (k self) input_stream (negb (soft self)) with
       | Some dec_list => Ok (true, dec_list)
       | None => Ok (false, [])
       end) ;;
  if negb correctable then
    Ok (str_mul "0" (len_input - k self), correctable)
  else
    Ok (fold_left (fun dec_bitstring b => dec_bitstring ++ py_str b)
                  dec_list [],
        correctable).

End Methods.

End Viterbi.

(** ** class ConcatenatedViterbiRS *)

Module ConcatenatedViterbiRS.

(** The object: [self.soft], [self.viterbi_coder], [self.rs_coder]. *)
Record t : Type := {
  soft : bool;
  viterbi_coder : Viterbi.t;
  rs_coder : ReedSolomon.t
}.

Definition init (rs : unireedsolomon) (v_k : Z) (n rs_k : nat) (soft : bool) : t :=
  {| soft := soft;
     viterbi_coder := Viterbi.init v_k soft;
     rs_coder := ReedSolomon.init rs n rs_k |}.

Section Methods.

Variable utils : bitstring_utils.
Variable lib : viterbi_module.
Variable self : t.

(** [encode] ends in [return final_encoded]: the value returned is that one
    string. *)
Definition encode (input_bitstring : str) : result pyval :=
  rs_encoded <- ReedSolomon.encode utils (rs_coder self) input_bitstring ;;
  final_encoded <- Viterbi.encode lib (viterbi_coder self) rs_encoded ;;
  Ok (PyStr final_encoded).

Definition decode (input : pyval) : result (str * bool) :=
  _ <- Viterbi.check_input (soft self) input ;;
  '(pred_rs_encoded, vit_corectable) <-
    Viterbi.decode lib (viterbi_coder self) input ;;
  '(decoded_bitstring, rs_correctable) <-
    ReedSolomon.decode utils (rs_coder self) pred_rs_encoded ;;
  let correctable := vit_corectable && rs_correctable in
  Ok (decoded_bitstring, correctable).

End Methods.

End ConcatenatedViterbiRS.

(** ** [simulation.py]: the noisy-channel simulators

    A simulator holds one error corrector.  It encodes a message, adds
    noise drawn from a random generator, decodes, and prints what it
    found.  The generator is the state of [random] (hard decoding) or of
    [numpy.random] (soft decoding); it is threaded through the calls. *)

(** [random.randint(a, b)]: an integer, and the generator's next state. *)
Record random_module (rng : Type) : Type := {
  randint : Z -> Z -> rng -> Z * rng
}.

(** [numpy.random.normal(loc, scale)]: a float and the generator's next
    state; [None] when it raises (a negative scale). *)
Record numpy_random (rng : Type) : Type := {
  normal : Z -> Q -> rng -> option (Q * rng)
}.

(** What [__init__] may be handed as [error_corrector]: an object of one of
    the three classes, or any other value. *)
Inductive object : Type :=
| OfReedSolomon (c : ReedSolomon.t)
| OfViterbi (c : Viterbi.t)
| OfConcatenated (c : ConcatenatedViterbiRS.t)
| OfValue (v : pyval).

(** The exceptions of the two [__init__]: a failed [assert] with its
    message, and the read of an attribute the object does not have. *)
Inductive init_exn : Type :=
| AssertionError (msg : string)
| AttributeError.

Definition msg_invalid_corrector : string :=
  "Invalid error corrector type. Must be ReedSolomon, Viterbi, or ConcatenatedViterbiRS."%string.

(** [isinstance(error_corrector, (ReedSolomon, Viterbi,
    ConcatenatedViterbiRS))] and [isinstance(error_corrector, (Viterbi,
    ConcatenatedViterbiRS))]. *)
Definition is_error_corrector (o : object) : bool :=
  match o with OfValue _ => false | _ => true end.

Definition is_viterbi_or_concatenated (o : object) : bool :=
  match o with OfViterbi _ | OfConcatenated _ => true | _ => false end.

(** [error_corrector.soft]: a [ReedSolomon] object has no such attribute. *)
Definition soft_of (o : object) : init_exn + bool :=
  match o with
  | OfViterbi c => inr (Viterbi.soft c)
  | OfConcatenated c => inr (ConcatenatedViterbiRS.soft c)
  | _ => inl AttributeError
  end.

(** A natural number as the [int] it is in the program. *)
Definition py_nat (m : nat) : pyval := PyInt (Z.of_nat m).

(** [error_corrector.name], the label [__init__] of each class builds
    from its arguments. *)
Definition reed_solomon_name (c : ReedSolomon.t) : list printed :=
  [Text "ReedSolomon(n="; Value (py_nat (ReedSolomon.n c));
   Text ", k="; Value (py_nat (ReedSolomon.k c)); Text ")"].

Definition viterbi_name (c : Viterbi.t) : list printed :=
  [Text "Viterbi(constraint length k="; Value (PyInt (Viterbi.k c));
   Text ", soft decoding ="; Value (PyBool (Viterbi.soft c)); Text ")"].

Definition concatenated_name (c : ConcatenatedViterbiRS.t) : list printed :=
  [Text "ConcatenatedViterbiRS(Viterbi constraint length=";
   Value (PyInt (Viterbi.k (ConcatenatedViterbiRS.viterbi_coder c)));
   Text ", Reed Solomon n=";
   Value (py_nat (ReedSolomon.n (ConcatenatedViterbiRS.rs_coder c)));
   Text ", Reed Solomon k=";
   Value (py_nat (ReedSolomon.k (ConcatenatedViterbiRS.rs_coder c)));
   Text ", soft decoding="; Value (PyBool (ConcatenatedViterbiRS.soft c));
   Text ")"].

(** [ConcatenatedViterbiRS.encode] returns one string; the simulators
    iterate over it. *)
Definition as_str (v : pyval) : result str :=
  match v with
  | PyStr s => Ok s
  | _ => Raise TypeError
  end.

(** [sum(c1 != c2 for c1, c2 in zip(message_bitstring, decoded_payload))]
    on two strings. *)
Definition count_errors (message_bitstring decoded_payload : str) : result Z :=
  pairs <- py_zip (PyStr message_bitstring) (PyStr decoded_payload) ;;
  Ok (sum_ne pairs).

Module HardDecodingNoisyChannelSimulator.

(** The correctors [__init__] lets through. *)
Inductive corrector : Type :=
| RS (c : ReedSolomon.t)
| Vit (c : Viterbi.t)
| Concat (c : ConcatenatedViterbiRS.t).

(** The object: [self.error_corrector]. *)
Record t : Type := {
  error_corrector : corrector
}.

Definition msg_not_hard : string :=
  "Error corrector must be in hard decoding mode."%string.

(** [__init__]: the first [assert], the [if] with the second, then the
    assignment (past the first [assert] the object is of one of the three
    classes). *)
Definition init (o : object) : init_exn + t :=
  if negb (is_error_corrector o) then inl (AssertionError msg_invalid_corrector)
  else
    match
      (if is_viterbi_or_concatenated o then
         match soft_of o with
         | inr soft =>
             if negb (negb soft) then inl (AssertionError msg_not_hard)
             else inr tt
         | inl e => inl e
         end
       else inr tt)
    with
    | inl e => inl e
    | inr _ =>
        match o with
        | OfReedSolomon c => inr {| error_corrector := RS c |}
        | OfViterbi c => inr {| error_corrector := Vit c |}
        | OfConcatenated c => inr {| error_corrector := Concat c |}
        | OfValue _ => inl (AssertionError msg_invalid_corrector)
        end
    end.

Section Methods.

Variable utils : bitstring_utils.
Variable lib : viterbi_module.

(** The generator of [random], and the product of two floats as the
    interpreter rounds it. *)
Variable rng : Type.
Variable random : random_module rng.
Variable float_mul : Q -> Q -> Q.

Variable self : t.

(** [random.randint(0, 100) < flip_probability*100]: an integer against
    a float, compared as numbers. *)
Definition below (d : Z) (threshold : Q) : bool :=
  negb (Qle_bool threshold (inject_Z d)).

(** [noise_bitstring]: one draw per character; a flipped 1 becomes 0, any
    other flipped character becomes 1. *)
Definition noise_bitstring (encoded_bitstring : str) (flip_probability : Q)
           (g : rng) : (str * Z) * rng :=
  fold_left
    (fun (st : (str * Z) * rng) i =>
       let '((noised_payload, num_bit_flips), g) := st in
       let '(d, g) := randint random 0 100 g in
       if below d (float_mul flip_probability 100) then
         let num_bit_flips := (num_bit_flips + 1)%Z in
         if Ascii.eqb i "1" then ((noised_payload ++ ["0"%char], num_bit_flips), g)
         else ((noised_payload ++ ["1"%char], num_bit_flips), g)
       else ((noised_payload ++ [i], num_bit_flips), g))
    encoded_bitstring (([], 0%Z), g).

(** [self.error_corrector.encode], [.decode] and [.name]. *)
Definition corrector_encode (message_bitstring : str) : result str :=
  match error_corrector self with
  | RS c => ReedSolomon.encode utils c message_bitstring
  | Vit c => Viterbi.encode lib c message_bitstring
  | Concat c =>
      final_encoded <- ConcatenatedViterbiRS.encode utils lib c message_bitstring ;;
      as_str final_encoded
  end.

Definition corrector_decode (noised_payload : str) : result (str * bool) :=
  match error_corrector self with
  | RS c => ReedSolomon.decode utils c noised_payload
  | Vit c => Viterbi.decode lib c (PyStr noised_payload)
  | Concat c => ConcatenatedViterbiRS.decode utils lib c (PyStr noised_payload)
  end.

Definition corrector_name : list printed :=
  match error_corrector self with
  | RS c => reed_solomon_name c
  | Vit c => viterbi_name c
  | Concat c => concatenated_name c
  end.

(** [simulate]: the lines its [print] statements write, and the
    generator's state after the run.  (A [Viterbi.decode] that takes its
    failure branch prints one line of its own before them.) *)
Definition simulate (message_bitstring : str) (error_probability : Q) (g : rng)
  : result (list (list printed) * rng) :=
  encoded_payload <- corrector_encode message_bitstring ;;
  let '((noised_payload, num_bit_flips), g) :=
    noise_bitstring encoded_payload error_probability g in
  '(decoded_payload, _) <- corrector_decode noised_payload ;;
  err <- count_errors message_bitstring decoded_payload ;;
  Ok ([ [Text "----- HARD DECODING NOISY CHANNEL SIMULATOR -----"];
        corrector_name;
        [Text "Input bitstring:     "; Value (PyStr message_bitstring)];
        [Text "Encoded bitstring:   "; Value (PyStr encoded_payload)];
        [Text "Noised bitstring:    "; Value (PyStr noised_payload)];
        [Text "Decoded bitstring: "; Value (PyStr decoded_payload)];
        [Value (PyInt num_bit_flips);
         Text " bits flipped during noise addition."];
        [Text "Total errors: "; Value (PyInt err); Text " bits"];
        [Text "--------------------------------------------------"] ],
      g).

End Methods.

End HardDecodingNoisyChannelSimulator.

Module SoftDecodingNoisyChannelSimulator.

(** The correctors [__init__] lets through: the classes that have a
    [soft] attribute. *)
Inductive corrector : Type :=
| Vit (c : Viterbi.t)
| Concat (c : ConcatenatedViterbiRS.t).

(** The object: [self.error_corrector]. *)
Record t : Type := {
  error_corrector : corrector
}.

Definition msg_not_soft : string :=
  "Error corrector must be in soft decoding mode."%string.

(** [__init__]: the two [assert] statements, then the assignment (past
    them the object is of one of the two classes that have [soft]). *)
Definition init (o : object) : init_exn + t :=
  if negb (is_error_corrector o) then inl (AssertionError msg_invalid_corrector)
  else
    match soft_of o with
    | inl e => inl e
    | inr soft =>
        if negb soft then inl (AssertionError msg_not_soft)
        else
          match o with
          | OfViterbi c => inr {| error_corrector := Vit c |}
          | OfConcatenated c => inr {| error_corrector := Concat c |}
          | _ => inl AttributeError
          end
    end.

Section Methods.

Variable utils : bitstring_utils.
Variable lib : viterbi_module.

(** The generator of [numpy.random]. *)
Variable rng : Type.
Variable numpy : numpy_random rng.

Variable self : t.

(** [noise_bitstring]: one draw per character, around -1 for the
    character 1 and around 1 for any other. *)
Definition noise_bitstring (encoded_bitstring : str) (noise_sigma : Q) (g : rng)
  : result (list pyval * rng) :=
  for_loop
    (fun (st : list pyval * rng) i =>
       let '(noised_payload, g) := st in
       let mu := if Ascii.eqb i "1" then (-1)%Z else 1%Z in
       '(soft_value, g) <- imported (normal numpy mu noise_sigma g) ;;
       Ok (noised_payload ++ [PyFloat soft_value], g))
    encoded_bitstring ([], g).

(** [self.error_corrector.encode], [.decode] and [.name]. *)
Definition corrector_encode (message_bitstring : str) : result str :=
  match error_corrector self with
  | Vit c => Viterbi.encode lib c message_bitstring
  | Concat c =>
      final_encoded <- ConcatenatedViterbiRS.encode utils lib c message_bitstring ;;
      as_str final_encoded
  end.

Definition corrector_decode (noised_payload : list pyval) : result (str * bool) :=
  match error_corrector self with
  | Vit c => Viterbi.decode lib c (PyList noised_payload)
  | Concat c => ConcatenatedViterbiRS.decode utils lib c (PyList noised_payload)
  end.

Definition corrector_name : list printed :=
  match error_corrector self with
  | Vit c => viterbi_name c
  | Concat c => concatenated_name c
  end.

(** [simulate]: the lines its [print] statements write, and the
    generator's state after the run.  (A [Viterbi.decode] that takes its
    failure branch prints one line of its own before them.) *)
Definition simulate (message_bitstring : str) (noise_sigma : Q) (g : rng)
  : result (list (list printed) * rng) :=
  encoded_payload <- corrector_encode message_bitstring ;;
  '(noised_payload, g) <- noise_bitstring encoded_payload noise_sigma g ;;
  '(decoded_payload, _) <- corrector_decode noised_payload ;;
  err <- count_errors message_bitstring decoded_payload ;;
  Ok ([ [Text "----- SOFT DECODING NOISY CHANNEL SIMULATOR -----"];
        corrector_name;
        [Text "Input bitstring:     "; Value (PyStr message_bitstring)];
        [Text "Encoded bitstring:   "; Value (PyStr encoded_payload)];
        [Text "Noised bit probabilities:    "; Value (PyList noised_payload)];
        [Text "Decoded bitstring: "; Value (PyStr decoded_payload)];
        [Text "Total errors: "; Value (PyInt err); Text " bits"];
        [Text "--------------------------------------------------"] ],
      g).

End Methods.

End SoftDecodingNoisyChannelSimulator.

(** ** The module [viterbi], as the specification describes it

    The module is imported by [error_correctors.py] and is not part of the
    sources at hand; the definitions below follow sections 4.3 and 4.4 of
    the specification.  The generator polynomials are "fixed per k" there
    and not listed, so they stay an argument. *)

Module ViterbiSpec.

(** Register contents, most recent bit first. *)
Definition state : Type := list bool.

(** A generator polynomial: the register positions it taps, most recent
    bit first.  A code is its pair of generators, given per constraint
    length, and the distance it uses on soft observations. *)
Record code : Type := {
  g0 : nat -> list bool;
  g1 : nat -> list bool;
  soft_distance : bool * bool -> pyval * pyval -> Q
}.

(** XOR of the tapped register bits. *)
Fixpoint xor_taps (g reg : list bool) : bool :=
  match g, reg with
  | t :: g', r :: reg' => xorb (t && r) (xor_taps g' reg')
  | _, _ => false
  end.

Definition zero_state (K : nat) : state := repeat false (K - 1).

(** One transition: the input bit is shifted into the register, the two
    generators read the register, the oldest bit leaves. *)
Definition step (c : code) (K : nat) (s : state) (b : bool)
  : state * (bool * bool) :=
  let register := b :: s in
  (removelast register, (xor_taps (g0 c K) register, xor_taps (g1 c K) register)).

(** Modelled from the spec: [viterbi.stream_encoder] on bits (section 4.3:
    all-zero register, one shift and one output pair per input bit). *)
Fixpoint encode_from (c : code) (K : nat) (s : state) (bits : list bool)
  : list (bool * bool) :=
  match bits with
  | [] => []
  | b :: bits' =>
      let '(s', out) := step c K s b in out :: encode_from c K s' bits'
  end.

Definition bit_of_int (z : Z) : bool := negb (z =? 0)%Z.

(** Modelled from the spec: [viterbi.stream_encoder(K, input_stream)]. *)
Definition stream_encoder (c : code) (K : Z) (input_stream : list Z)
  : list (Z * Z) :=
  map (fun o => (Z.b2z (fst o), Z.b2z (snd o)))
      (encode_from c (Z.to_nat K) (zero_state (Z.to_nat K))
                   (map bit_of_int input_stream)).

(** All register contents of a given length, in a fixed order. *)
Fixpoint all_states (m : nat) : list state :=
  match m with
  | 0 => [[]]
  | S m' => flat_map (fun s => [false :: s; true :: s]) (all_states m')
  end.

Fixpoint state_eqb (s1 s2 : state) : bool :=
  match s1, s2 with
  | [], [] => true
  | b1 :: s1', b2 :: s2' => Bool.eqb b1 b2 && state_eqb s1' s2'
  | _, _ => false
  end.

Section Trellis.

(** Path metrics: [M] with its zero, sum and strict order; [branch] is
    the distance between an expected output pair and an observed one. *)
Variable M : Type.
Variable mzero : M.
Variable madd : M -> M -> M.
Variable mlt : M -> M -> bool.
Variable branch : bool * bool -> pyval * pyval -> M.

Variable c : code.
Variable K : nat.

(** The record kept per stage and state: cumulative metric, predecessor
    state, input bit.  No record: the state is unreachable (metric
    +infinity). *)
Definition cell : Type := option (M * state * bool).

Definition table : Type := list (state * cell).

Definition lookup (T : table) (s : state) : cell :=
  match find (fun e => state_eqb (fst e) s) T with
  | Some e => snd e
  | None => None
  end.

(** The first minimum of a list, by [key], in list order. *)
Definition first_min {A : Type} (key : A -> M) (l : list A) : option A :=
  fold_left
    (fun best a =>
       match best with
       | None => Some a
       | Some a0 => if mlt (key a) (key a0) then Some a else best
       end)
    l None.

(** Stage 0: the all-zero state has metric 0, every other state is
    unreachable.  (Its predecessor field is never read.) *)
Definition stage0 : table :=
  map (fun d =>
         (d, if state_eqb d (zero_state K) then Some (mzero, d, false) else None))
      (all_states (K - 1)).

(** Every transition out of a reachable state, for input bit 0 then 1, in
    state order: destination and the record it would leave there. *)
Definition candidates (T : table) (obs : pyval * pyval)
  : list (state * (M * state * bool)) :=
  flat_map
    (fun e =>
       match snd e with
       | Some (m, _, _) =>
           map (fun b =>
                  let '(d, out) := step c K (fst e) b in
                  (d, (madd m (branch out obs), fst e, b)))
               [false; true]
       | None => []
       end)
    T.

(** One stage: each destination keeps the first minimum among its
    incoming transitions. *)
Definition stage (T : table) (obs : pyval * pyval) : table :=
  let cands := candidates T obs in
  map (fun d =>
         (d, option_map snd
               (first_min (fun cd => fst (fst (snd cd)))
                          (filter (fun cd => state_eqb (fst cd) d) cands))))
      (all_states (K - 1)).

(** All stages: the last table, and the tables of stages n, ..., 1. *)
Fixpoint forward (T : table) (observed : list (pyval * pyval))
         (earlier : list table) : table * list table :=
  match observed with
  | [] => (T, earlier)
  | obs :: observed' =>
      let T' := stage T obs in forward T' observed' (T' :: earlier)
  end.

(** The reachable final state of minimum metric, first in state order. *)
Definition best_final (T : table) : option state :=
  option_map fst
    (first_min snd
       (flat_map (fun e => match snd e with
                           | Some (m, _, _) => [(fst e, m)]
                           | None => []
                           end) T)).

(** Traceback through the recorded predecessors: the input bits, last
    first. *)
Fixpoint traceback (stages : list table) (s : state) : list bool :=
  match stages with
  | [] => []
  | T :: earlier =>
      match lookup T s with
      | Some (_, p, b) => b :: traceback earlier p
      | None => []
      end
  end.

Definition trellis_decode (observed : list (pyval * pyval)) : list bool :=
  let '(T, stages) := forward stage0 observed [] in
  match best_final T with
  | Some s => rev (traceback stages s)
  | None => []
  end.

End Trellis.

(** Hamming distance between an expected pair of bits and an observed
    pair of hard values. *)
Definition agrees (b : bool) (v : pyval) : bool :=
  match v with
  | PyFloat x => Qeq_bool x (inject_Z (Z.b2z b))
  | _ => false
  end.

Definition hamming (expected : bool * bool) (obs : pyval * pyval) : nat :=
  (if agrees (fst expected) (fst obs) then 0 else 1)
  + (if agrees (snd expected) (snd obs) then 0 else 1).

(** Modelled from the spec: [viterbi.Decoder(K, input_stream, is_hard)]
    (section 4.4, steps 1 to 4): Hamming distance on hard input, the
    code's soft distance otherwise. *)
Definition Decoder (c : code) (K : Z) (input_stream : list (pyval * pyval))
           (is_hard : bool) : option (list Z) :=
  let bits :=
    if is_hard then
      trellis_decode 0 Nat.add Nat.ltb hamming c (Z.to_nat K) input_stream
    else
      trellis_decode 0%Q Qplus (fun a b => negb (Qle_bool b a))
                     (soft_distance c) c (Z.to_nat K) input_stream in
  Some (map Z.b2z bits).

Definition module (c : code) : viterbi_module :=
  Build_viterbi_module (stream_encoder c) (Decoder c).

End ViterbiSpec.

(** ** The Reed-Solomon coder, as the specification describes it

    [unireedsolomon] is an external package.  Sections 4.1 and 4.2 of the
    specification describe what it computes: arithmetic in GF(2^8), parity
    by polynomial division against the generator polynomial, and a decoder
    that accepts a word whose syndromes are all zero.  The two modules
    below follow that description; a symbol is a character, its eight
    bits the coefficients of a polynomial over GF(2). *)

Module GaloisField.

Definition add (a b : ascii) : ascii :=
  let '(Ascii a0 a1 a2 a3 a4 a5 a6 a7) := a in
  let '(Ascii b0 b1 b2 b3 b4 b5 b6 b7) := b in
  Ascii (xorb a0 b0) (xorb a1 b1) (xorb a2 b2) (xorb a3 b3)
        (xorb a4 b4) (xorb a5 b5) (xorb a6 b6) (xorb a7 b7).

(** Multiplication by x modulo the primitive polynomial
    x^8 + x^4 + x^3 + x^2 + 1 (0x11d). *)
Definition xtime (a : ascii) : ascii :=
  let '(Ascii a0 a1 a2 a3 a4 a5 a6 a7) := a in
  Ascii a7 a0 (xorb a1 a7) (xorb a2 a7) (xorb a3 a7) a4 a5 a6.

Definition scale (b : bool) (a : ascii) : ascii :=
  let '(Ascii a0 a1 a2 a3 a4 a5 a6 a7) := a in
  Ascii (b && a0) (b && a1) (b && a2) (b && a3)
        (b && a4) (b && a5) (b && a6) (b && a7).

(** [multiply]: shift and add, one bit of [b] at a time. *)
Definition mul (a b : ascii) : ascii :=
  let '(Ascii b0 b1 b2 b3 b4 b5 b6 b7) := b in
  let a1 := xtime a in
  let a2 := xtime a1 in
  let a3 := xtime a2 in
  let a4 := xtime a3 in
  let a5 := xtime a4 in
  let a6 := xtime a5 in
  let a7 := xtime a6 in
  add (scale b0 a) (add (scale b1 a1) (add (scale b2 a2) (add (scale b3 a3)
  (add (scale b4 a4) (add (scale b5 a5) (add (scale b6 a6) (scale b7 a7))))))).

(** In characteristic 2 every element is its own opposite. *)
Definition opp (a : ascii) : ascii := a.

(** [power]. *)
Fixpoint pow (a : ascii) (e : nat) : ascii :=
  match e with
  | 0 => one
  | S e' => mul a (pow a e')
  end.

(** The primitive element x. *)
Definition alpha : ascii := "002"%char.

End GaloisField.

Module ReedSolomonCodec.

Import GaloisField.

(** Polynomials are lists of coefficients, highest degree first, as the
    symbols of a codeword are laid out. *)
Definition padd (p q : str) : str :=
  map (fun ab => add (fst ab) (snd ab)) (combine p q).

Definition eval (p : str) (a : ascii) : ascii :=
  fold_left (fun acc c => add (mul acc a) c) p zero.

(** The generator polynomial with roots alpha^1, ..., alpha^r. *)
Fixpoint generator (r : nat) : str :=
  match r with
  | 0 => [one]
  | S r' =>
      let g := generator r' in
      padd (g ++ [zero]) (zero :: map (mul (pow alpha (S r'))) g)
  end.

(** One step of the division of message * x^r by the generator: the next
    message symbol enters the remainder. *)
Definition remainder_step (g_tail : str) (rem : str) (c : ascii) : str :=
  let f := add c (hd zero rem) in
  padd (tl rem ++ [zero]) (map (mul f) g_tail).

(** The r parity symbols of a message. *)
Definition parity (r : nat) (message : str) : str :=
  fold_left (remainder_step (tl (generator r))) message (repeat zero r).

Definition syndromes (r : nat) (c : str) : str :=
  map (fun j => eval c (pow alpha j)) (seq 1 r).

(** The coder for (n, k): [encode] returns the message followed by its
    parity; [decode] accepts a word whose syndromes are all zero and
    returns its first k symbols.  Error correction is not modelled: on a
    non-zero syndrome this coder raises. *)
Definition coder (n k : nat) : RSCoder :=
  {| coder_encode := fun message => Some (message ++ parity (n - k) message);
     coder_decode := fun c =>
       if forallb (fun s => Ascii.eqb s zero) (syndromes (n - k) c)
       then Some (firstn k c, skipn k c)
       else None |}.

End ReedSolomonCodec.

(** ** Instances of the imported modules

    Concrete conversions, the coder above and a concrete generator pair, so
    that the embedding runs on inputs.  They are used to instantiate the
    theorems; they are not transcriptions of the imported code. *)

Module Reference.

Definition bit_char (b : bool) : ascii := if b then "1"%char else "0"%char.

Definition char_bit (c : ascii) : option bool :=
  if Ascii.eqb c "0" then Some false
  else if Ascii.eqb c "1" then Some true
  else None.

Fixpoint all_some {A : Type} (l : list (option A)) : option (list A) :=
  match l with
  | [] => Some []
  | Some a :: l' => option_map (cons a) (all_some l')
  | None :: _ => None
  end.

(** A symbol as eight bits, most significant first. *)
Definition symbol_bits (c : ascii) : str :=
  let '(Ascii b0 b1 b2 b3 b4 b5 b6 b7) := c in
  map bit_char [b7; b6; b5; b4; b3; b2; b1; b0].

(** The symbol whose binary numeral is [bits] (at most eight of them). *)
Definition bits_symbol (bits : list bool) : ascii :=
  let r := rev bits in
  Ascii (nth 0 r false) (nth 1 r false) (nth 2 r false) (nth 3 r false)
        (nth 4 r false) (nth 5 r false) (nth 6 r false) (nth 7 r false).

(** Eight characters per symbol; a shorter last group is read as the
    numeral it spells.  A character other than 0 and 1 is rejected. *)
Fixpoint read_symbols (s : str) : option str :=
  match s with
  | [] => Some []
  | c7 :: c6 :: c5 :: c4 :: c3 :: c2 :: c1 :: c0 :: rest =>
      match all_some (map char_bit [c7; c6; c5; c4; c3; c2; c1; c0]),
            read_symbols rest with
      | Some bits, Some symbols => Some (bits_symbol bits :: symbols)
      | _, _ => None
      end
  | _ => option_map (fun bits => [bits_symbol bits]) (all_some (map char_bit s))
  end.

Definition utils : bitstring_utils :=
  {| bitstring_to_ascii := read_symbols;
     ascii_to_bitstring := fun s => flat_map symbol_bits s |}.

(** The library: the coder of the specification. *)
Definition rs : unireedsolomon := {| new_RSCoder := ReedSolomonCodec.coder |}.

(** A generator pair for every constraint length: all register bits, and
    the two ends of the register.  The soft distance is the squared
    distance to the ideal point (+1 for bit 0, -1 for bit 1). *)
Definition ideal (b : bool) : Q := if b then (-1)%Q else 1%Q.

Definition sq_dist (b : bool) (v : pyval) : Q :=
  match v with
  | PyFloat x => ((x - ideal b) * (x - ideal b))%Q
  | _ => 0%Q
  end.

Definition code : ViterbiSpec.code :=
  {| ViterbiSpec.g0 := fun K => repeat true K;
     ViterbiSpec.g1 := fun K => true :: repeat false (K - 2) ++ [true];
     ViterbiSpec.soft_distance := fun e o =>
       (sq_dist (fst e) (fst o) + sq_dist (snd e) (snd o))%Q |}.

Definition viterbi : viterbi_module := ViterbiSpec.module code.

(** A string literal as a [str]. *)
Definition lit (s : string) : str := list_ascii_of_string s.

(** A linear congruential generator for [random]: the draw is taken from
    the state, which then advances. *)
Definition lcg : random_module Z :=
  {| randint := fun a b g =>
       ((a + g mod (b - a + 1))%Z,
        ((g * 1103515245 + 12345) mod 2147483648)%Z) |}.

(** A generator for [numpy.random] without spread: every draw is its
    mean.  A negative standard deviation is rejected. *)
Definition centred : numpy_random unit :=
  {| normal := fun loc scale g =>
       if Qle_bool 0 scale then Some (inject_Z loc, g) else None |}.

End Reference.

(** ** What the theorems assume of the imported modules *)

(** The conversions of [bitstring_utils]: eight bits per symbol, symbol by
    symbol; reading what was written gives the symbols back; every
    bitstring can be read, and one of whole bytes is written back as it
    was. *)
Record utils_ok (u : bitstring_utils) : Prop := {
  writes_eight_bits :
    forall s, length (ascii_to_bitstring u s) = 8 * length s;
  writes_per_symbol :
    forall s1 s2,
      ascii_to_bitstring u (s1 ++ s2)
      = ascii_to_bitstring u s1 ++ ascii_to_bitstring u s2;
  reads_back :
    forall s, bitstring_to_ascii u (ascii_to_bitstring u s) = Some s;
  reads_bits :
    forall b, is_bitstring b ->
      exists s, bitstring_to_ascii u b = Some s
                /\ (length b mod 8 = 0 -> ascii_to_bitstring u s = b)
}.

(** A configuration the library accepts. *)
Definition valid_config (self : ReedSolomon.t) : Prop :=
  1 <= ReedSolomon.k self < ReedSolomon.n self.

(** [coder.encode] is systematic: on k symbols it returns them followed by
    n - k parity symbols. *)
Definition coder_systematic (self : ReedSolomon.t) : Prop :=
  forall chunk, length chunk = ReedSolomon.k self ->
    exists parity,
      coder_encode (ReedSolomon.coder self) chunk = Some (chunk ++ parity)
      /\ length parity = ReedSolomon.n self - ReedSolomon.k self.

(** [coder.decode] accepts an unmodified codeword and returns its message. *)
Definition coder_decodes_clean (self : ReedSolomon.t) : Prop :=
  forall chunk cw, length chunk = ReedSolomon.k self ->
    coder_encode (ReedSolomon.coder self) chunk = Some cw ->
    exists parity, coder_decode (ReedSolomon.coder self) cw = Some (chunk, parity).

(** With [nostrip=True], a successful decode of an n-symbol word returns a
    message of k symbols. *)
Definition coder_nostrip (self : ReedSolomon.t) : Prop :=
  forall c m p, length c = ReedSolomon.n self ->
    coder_decode (ReedSolomon.coder self) c = Some (m, p) ->
    length m = ReedSolomon.k self.

(** Whether the library decodes a codeword (it does not raise). *)
Definition codeword_decodes (self : ReedSolomon.t) (c : str) : bool :=
  match coder_decode (ReedSolomon.coder self) c with
  | Some _ => true
  | None => false
  end.

(** The part of the output one codeword accounts for: the decoded message
    written as bits, or, when the library raised, the codeword's first k
    symbols written as bits. *)
Definition codeword_output (utils : bitstring_utils) (self : ReedSolomon.t)
           (c piece : str) : Prop :=
  match coder_decode (ReedSolomon.coder self) c with
  | Some r => piece = ascii_to_bitstring utils (fst r)
  | None => piece = ascii_to_bitstring utils (firstn (ReedSolomon.k self) c)
  end.

(** The input has the wrong type for the mode: in soft mode it is not a
    list of floats, in hard mode it is not a string. *)
Definition wrong_type (soft : bool) (input : pyval) : Prop :=
  if soft then
    ~ (exists l, input = PyList l /\ Forall (fun v => exists x, v = PyFloat x) l)
  else
    ~ (exists s, input = PyStr s).

(** The exceptions of the three type checks. *)
Definition type_check_error (e : exn) : Prop :=
  e = ValueError Viterbi.msg_not_list
  \/ e = ValueError Viterbi.msg_not_floats
  \/ e = ValueError Viterbi.msg_not_str.

(** The exception of [float(i)] in the conversion of a string. *)
Definition conversion_error (e : exn) : Prop :=
  e = ValueError "could not convert string to float".

(** The exceptions [decode] raises before any decoding: those of the type
    checks, and that of the conversion that follows them. *)
Definition validation_error (e : exn) : Prop :=
  type_check_error e \/ conversion_error e.

(** A string with a character that [float] does not convert. *)
Definition has_non_digit (input : pyval) : Prop :=
  exists s, input = PyStr s /\ Exists (fun c => digit_of_char c = None) s.

(** The input is not one [decode] reads: it has the wrong type for the
    mode, or it is a string with a character that [float] does not
    convert. *)
Definition rejected (soft : bool) (input : pyval) : Prop :=
  wrong_type soft input \/ has_non_digit input.

(** The observed sequence is structurally invalid: odd length, or shorter
    than the constraint length. *)
Definition structurally_invalid (self : Viterbi.t) (observed : list pyval) : Prop :=
  (Z.of_nat (length observed) mod 2 <> 0
   \/ Z.of_nat (length observed) < Viterbi.k self)%Z.

(** [decode] reaches its failure branch: the observed sequence is
    structurally invalid, or the library's decoder raised on its pairs. *)
Definition decoding_fails (lib : viterbi_module) (self : Viterbi.t)
           (observed : list pyval) : Prop :=
  structurally_invalid self observed
  \/ exists input_stream,
       Viterbi.pair_observed observed = Ok input_stream
       /\ Decoder lib (Viterbi.k self) input_stream (negb (Viterbi.soft self))
          = None.

(** A pair of output bits as the hard decoder receives it: the floats 0.0
    and 1.0. *)
Definition hard_pair (o : bool * bool) : pyval * pyval :=
  (PyFloat (inject_Z (Z.b2z (fst o))), PyFloat (inject_Z (Z.b2z (snd o)))).

(** One of the two generators taps the bit just shifted in. *)
Definition taps_input (c : ViterbiSpec.code) (K : nat) : Prop :=
  hd false (ViterbiSpec.g0 c K) || hd false (ViterbiSpec.g1 c K) = true.

(** A table of the hard trellis in which exactly the state [s] has metric
    0: what the trellis keeps along the path of a noise-free codeword. *)
Definition on_path (K : nat) (T : ViterbiSpec.table nat) (s : ViterbiSpec.state)
  : Prop :=
  exists F,
    T = map (fun d => (d, F d)) (ViterbiSpec.all_states (K - 1))
    /\ length s = K - 1
    /\ (exists p b, F s = Some (0, p, b))
    /\ (forall d m p b, F d = Some (m, p, b) -> m = 0 -> d = s).

(** ** What the further properties speak of *)

(** The symbols one codeword contributes to the output of
    [ReedSolomon.decode]: the library's message, or the codeword's first k
    symbols when the library raised. *)
Definition recovered_symbols (self : ReedSolomon.t) (c : str) : str :=
  match coder_decode (ReedSolomon.coder self) c with
  | Some r => fst r
  | None => firstn (ReedSolomon.k self) c
  end.

(** The number of [chr(0)] symbols [ReedSolomon.encode] appends to a
    message of [symbols] symbols: up to the next multiple of k. *)
Definition padding (self : ReedSolomon.t) (symbols : nat) : nat :=
  (symbols + ReedSolomon.k self - 1) / ReedSolomon.k self * ReedSolomon.k self
  - symbols.

(** A decimal digit: the characters [int] and [float] accept. *)
Definition is_digit (c : ascii) : bool :=
  match digit_of_char c with
  | Some _ => true
  | None => false
  end.

(** The values 0 and 1. *)
Definition is_bit_value (z : Z) : Prop := z = 0%Z \/ z = 1%Z.

(** [stream_encoder] yields one pair of bits per input value. *)
Definition emits_bit_pairs (lib : viterbi_module) (K : Z) : Prop :=
  forall input_stream,
    length (stream_encoder lib K input_stream) = length input_stream
    /\ Forall (fun el => is_bit_value (fst el) /\ is_bit_value (snd el))
              (stream_encoder lib K input_stream).

(** [Decoder] returns bits when it returns. *)
Definition decodes_to_bits (lib : viterbi_module) (K : Z) : Prop :=
  forall input_stream is_hard dec_list,
    Decoder lib K input_stream is_hard = Some dec_list ->
    Forall is_bit_value dec_list.

(** A sequence taken two by two; a last odd item is left out. *)
Fixpoint pairs_of {A : Type} (l : list A) : list (A * A) :=
  match l with
  | a :: b :: l' => (a, b) :: pairs_of l'
  | _ => []
  end.

(** [ascii_to_bitstring] writes only the characters 0 and 1. *)
Definition writes_bits (u : bitstring_utils) : Prop :=
  forall s, is_bitstring (ascii_to_bitstring u s).

(** On the noise-free hard observation of an encoding, the library's
    decoder returns the bits that were encoded. *)
Definition decodes_noise_free (lib : viterbi_module) (K : Z) : Prop :=
  forall bits : list bool,
    exists outs : list (bool * bool),
      stream_encoder lib K (map Z.b2z bits)
      = map (fun o => (Z.b2z (fst o), Z.b2z (snd o))) outs
      /\ length outs = length bits
      /\ Decoder lib K (map hard_pair outs) true = Some (map Z.b2z bits).

(** The number of positions, within the shorter of two strings, at which
    they differ. *)
Fixpoint differences (a b : str) : Z :=
  match a, b with
  | x :: a', y :: b' =>
      ((if Ascii.eqb x y then 0 else 1) + differences a' b')%Z
  | _, _ => 0%Z
  end.

(** What a flip makes of a character: 0 of a 1, and 1 of anything else. *)
Definition flipped (c : ascii) : ascii :=
  if Ascii.eqb c "1" then "0"%char else "1"%char.

(** [random.randint(0, 100)] returns an integer from 0 to 100. *)
Definition randint_in_range (rng : Type) (random : random_module rng) : Prop :=
  forall g, (0 <= fst (randint random 0 100 g) <= 100)%Z.

(** An object as its class builds it: the Viterbi layer of a concatenated
    corrector has the corrector's own [soft] flag. *)
Definition as_built (o : object) : Prop :=
  match o with
  | OfConcatenated c =>
      Viterbi.soft (ConcatenatedViterbiRS.viterbi_coder c)
      = ConcatenatedViterbiRS.soft c
  | _ => True
  end.

(** The Reed-Solomon layer of a corrector, where it has one, has
    1 <= k < n: the loops over [range(0, len, k)] and
    [range(0, len, n * 8)] then have a positive step ([range] raises on a
    step of 0). *)
Definition reed_solomon_layer_valid (o : object) : Prop :=
  match o with
  | OfReedSolomon c => valid_config c
  | OfConcatenated c => valid_config (ConcatenatedViterbiRS.rs_coder c)
  | _ => True
  end.

(** * Properties *)

(** ** Loops, ranges and slices *)

Lemma for_loop_append (I B : Type) (f : I -> result B) (items : list I)
      (acc : list B) :
  for_loop (fun acc i => x <- f i ;; Ok (acc ++ [x])) items acc
  = (xs <- mapM f items ;; Ok (acc ++ xs)).
Proof.
  revert acc. induction items as [|i items IH]; intros acc; simpl.
  - now rewrite app_nil_r.
  - destruct (f i) as [b|e]; simpl; [|reflexivity].
    rewrite IH. destruct (mapM f items); simpl; [|reflexivity].
    now rewrite <- app_assoc.
Qed.

Lemma mapM_map (A B : Type) (f : A -> result B) (g : A -> B) (l : list A) :
  (forall a, In a l -> f a = Ok (g a)) -> mapM f l = Ok (map g l).
Proof.
  induction l as [|a l IH]; intros H; simpl; [reflexivity|].
  rewrite (H a (or_introl eq_refl)); simpl.
  rewrite IH; [reflexivity|]. intros a' Ha'. apply H. now right.
Qed.

Lemma mapM_defined (A B : Type) (f : A -> result B) (l : list A) :
  (forall a, In a l -> exists b, f a = Ok b) ->
  exists bs, mapM f l = Ok bs /\ Forall2 (fun a b => f a = Ok b) l bs.
Proof.
  induction l as [|a l IH]; intros H; simpl.
  - exists []. split; [reflexivity|constructor].
  - destruct (H a (or_introl eq_refl)) as [b Hb].
    destruct IH as [bs [Hbs HF]]; [intros a' Ha'; apply H; now right|].
    exists (b :: bs). rewrite Hb, Hbs. split; [reflexivity|].
    constructor; assumption.
Qed.

Lemma mapM_of_map (A B C : Type) (f : B -> result C) (h : A -> B) (l : list A) :
  mapM f (map h l) = mapM (fun a => f (h a)) l.
Proof.
  induction l as [|a l IH]; simpl; [reflexivity|]. now rewrite IH.
Qed.

Lemma fold_left_app_concat (A B : Type) (g : A -> list B) (l : list A)
      (acc : list B) :
  fold_left (fun acc c => acc ++ g c) l acc = acc ++ concat (map g l).
Proof.
  revert acc. induction l as [|a l IH]; intros acc; simpl.
  - now rewrite app_nil_r.
  - rewrite IH. now rewrite <- app_assoc.
Qed.

Lemma py_range_multiple (m step : nat) :
  0 < step -> py_range (m * step) step = map (fun j => j * step) (seq 0 m).
Proof.
  intros Hs. unfold py_range.
  replace ((m * step + step - 1) / step) with m; [reflexivity|].
  apply Nat.div_unique with (step - 1); lia.
Qed.

Lemma py_range_lt (stop step i : nat) :
  0 < step -> In i (py_range stop step) -> i < stop.
Proof.
  intros Hs Hin. unfold py_range in Hin.
  apply in_map_iff in Hin. destruct Hin as [j [<- Hj]].
  apply in_seq in Hj. destruct Hj as [_ Hj]. simpl in Hj.
  assert (Hd : j * step <= step * ((stop + step - 1) / step) - step) by nia.
  pose proof (Nat.Div0.mul_div_le (stop + step - 1) step). nia.
Qed.

Lemma seq_succ_map (A : Type) (f : nat -> A) (m : nat) :
  map f (seq 0 (S m)) = f 0 :: map (fun j => f (S j)) (seq 0 m).
Proof.
  simpl. f_equal. rewrite <- seq_shift. now rewrite map_map.
Qed.

Lemma slice_shift (A : Type) (c i j : nat) (x r : list A) :
  length x = c -> slice (c + i) (c + j) (x ++ r) = slice i j r.
Proof.
  intros Hx. unfold slice.
  rewrite skipn_app, Hx.
  rewrite skipn_all2 by lia. simpl.
  replace (c + i - c) with i by lia.
  replace (c + j - (c + i)) with (j - i) by lia. reflexivity.
Qed.

Lemma slice_head (A : Type) (c : nat) (x r : list A) :
  length x = c -> slice 0 (0 + c) (x ++ r) = x.
Proof.
  intros Hx. unfold slice. simpl. rewrite Nat.sub_0_r.
  rewrite firstn_app, Hx, Nat.sub_diag. simpl.
  rewrite app_nil_r. apply firstn_all2. lia.
Qed.

(** Cutting a concatenation of equal-length blocks gives the blocks back. *)
Lemma slices_of_concat (A : Type) (c : nat) (l : list (list A)) :
  Forall (fun x => length x = c) l ->
  map (fun j => slice (j * c) (j * c + c) (concat l)) (seq 0 (length l)) = l.
Proof.
  induction 1 as [|x l Hx Hl IH]; [reflexivity|].
  cbn [length concat]. rewrite seq_succ_map. f_equal.
  - apply slice_head. exact Hx.
  - rewrite <- IH at 2. apply map_ext. intros j.
    replace (S j * c) with (c + j * c) by lia.
    rewrite <- Nat.add_assoc. apply slice_shift. exact Hx.
Qed.

(** Cutting a list whose length is a multiple of [c] and joining the pieces
    gives the list back. *)
Lemma concat_of_slices (A : Type) (c m : nat) (s : list A) :
  length s = m * c ->
  concat (map (fun j => slice (j * c) (j * c + c) s) (seq 0 m)) = s.
Proof.
  revert s. induction m as [|m IH]; intros s Hs.
  - destruct s; [reflexivity|discriminate].
  - rewrite seq_succ_map. cbn [concat].
    transitivity (firstn c s ++ skipn c s); [|apply firstn_skipn]. f_equal.
    + unfold slice. simpl. f_equal. lia.
    + rewrite <- (IH (skipn c s)).
      * f_equal. apply map_ext. intros j.
        unfold slice. rewrite skipn_skipn. f_equal; [lia|]. f_equal. lia.
      * rewrite length_skipn. simpl in Hs. lia.
Qed.

Lemma length_slice_multiple (A : Type) (c m j : nat) (s : list A) :
  length s = m * c -> j < m -> length (slice (j * c) (j * c + c) s) = c.
Proof.
  intros Hs Hj. unfold slice. rewrite length_firstn, length_skipn. nia.
Qed.

Lemma length_concat_uniform (A : Type) (c : nat) (l : list (list A)) :
  Forall (fun x => length x = c) l -> length (concat l) = length l * c.
Proof.
  induction 1 as [|x l Hx Hl IH]; [reflexivity|].
  cbn [concat length]. rewrite length_app, IH, Hx. lia.
Qed.

Lemma Forall2_right (A B : Type) (R : A -> B -> Prop) (P : B -> Prop)
      (l : list A) (l' : list B) :
  Forall2 R l l' -> (forall a b, In a l -> R a b -> P b) -> Forall P l'.
Proof.
  induction 1 as [|a b l l' Hab HF IH]; intros H; constructor.
  - apply (H a b); [now left|exact Hab].
  - apply IH. intros a' b' Ha'. apply H. now right.
Qed.

Lemma is_bitstring_slice (i j : nat) (s : str) :
  is_bitstring s -> is_bitstring (slice i j s).
Proof.
  unfold is_bitstring, slice. intros H.
  rewrite <- (firstn_skipn i s) in H.
  apply Forall_app in H. destruct H as [_ H].
  rewrite <- (firstn_skipn (j - i) (skipn i s)) in H.
  apply Forall_app in H. tauto.
Qed.

(** ** ReedSolomon *)

Section ReedSolomonProperties.

Variable utils : bitstring_utils.
Variable self : ReedSolomon.t.

Lemma codewords_to_bitstring_concat (codewords : list str) :
  ReedSolomon.codewords_to_bitstring utils codewords
  = concat (map (ascii_to_bitstring utils) codewords).
Proof.
  unfold ReedSolomon.codewords_to_bitstring.
  now rewrite fold_left_app_concat.
Qed.

Lemma bitstring_to_codewords_mapM (bitstring : str) :
  ReedSolomon.bitstring_to_codewords utils self bitstring
  = mapM (fun i =>
            imported (bitstring_to_ascii utils
                        (slice i (i + ReedSolomon.n self * 8) bitstring)))
         (py_range (length bitstring) (ReedSolomon.n self * 8)).
Proof.
  unfold ReedSolomon.bitstring_to_codewords.
  rewrite for_loop_append.
  destruct (mapM _ _); reflexivity.
Qed.

(** The decoding loop, codeword by codeword. *)
Lemma decode_loop (codewords : list str) (acc : str) (flag : bool) :
  exists pieces,
    for_loop
      (fun (st : str * bool) c =>
         let '(recovered_bitstring, correctable) := st in
         let '(recovered_chunk_symbols, correctable) :=
           match coder_decode (ReedSolomon.coder self) c with
           | Some r => (fst r, correctable)
           | None => (firstn (ReedSolomon.k self) c, false)
           end in
         let recovered_chunk_bitstring :=
           ascii_to_bitstring utils recovered_chunk_symbols in
         Ok (recovered_bitstring ++ recovered_chunk_bitstring, correctable))
      codewords (acc, flag)
    = Ok (acc ++ concat pieces,
          flag && forallb (codeword_decodes self) codewords)
    /\ Forall2 (codeword_output utils self) codewords pieces.
Proof.
  set (body := fun (st : str * bool) (c : str) => _).
  revert acc flag. induction codewords as [|c cws IH]; intros acc flag.
  - exists []. simpl. rewrite app_nil_r, andb_true_r.
    split; [reflexivity|constructor].
  - cbn [for_loop forallb].
    unfold codeword_decodes at 1.
    destruct (coder_decode (ReedSolomon.coder self) c) as [r|] eqn:Hc.
    + destruct (IH (acc ++ ascii_to_bitstring utils (fst r)) flag)
        as [pieces [Hl HF]].
      exists (ascii_to_bitstring utils (fst r) :: pieces). split.
      * replace (body (acc, flag) c)
          with (Ok (acc ++ ascii_to_bitstring utils (fst r), flag))
          by (unfold body; now rewrite Hc).
        cbn [bind concat]. eapply eq_trans; [exact Hl|].
        now rewrite <- app_assoc.
      * constructor; [|exact HF]. unfold codeword_output. now rewrite Hc.
    + destruct (IH (acc ++ ascii_to_bitstring utils
                              (firstn (ReedSolomon.k self) c)) false)
        as [pieces [Hl HF]].
      exists (ascii_to_bitstring utils (firstn (ReedSolomon.k self) c) :: pieces).
      split.
      * replace (body (acc, flag) c)
          with (Ok (acc ++ ascii_to_bitstring utils
                             (firstn (ReedSolomon.k self) c), false))
          by (unfold body; now rewrite Hc).
        cbn [bind concat]. eapply eq_trans; [exact Hl|].
        rewrite <- app_assoc. now rewrite andb_false_r.
      * constructor; [|exact HF]. unfold codeword_output. now rewrite Hc.
Qed.

Lemma a2b_nil : utils_ok utils -> ascii_to_bitstring utils [] = [].
Proof.
  intros U. apply length_zero_iff_nil. now rewrite (writes_eight_bits U).
Qed.

Lemma a2b_concat (l : list str) :
  utils_ok utils ->
  ascii_to_bitstring utils (concat l) = concat (map (ascii_to_bitstring utils) l).
Proof.
  intros U. induction l as [|x l IH]; cbn [concat map].
  - now apply a2b_nil.
  - now rewrite (writes_per_symbol U), IH.
Qed.

(** Every bitstring splits into codewords: the symbols read from each slice
    of n * 8 bits. *)
Lemma codewords_of_bitstring (bitstring : str) :
  utils_ok utils -> 0 < ReedSolomon.n self -> is_bitstring bitstring ->
  exists codewords,
    ReedSolomon.bitstring_to_codewords utils self bitstring = Ok codewords
    /\ Forall2
         (fun i c =>
            bitstring_to_ascii utils
              (slice i (i + ReedSolomon.n self * 8) bitstring) = Some c)
         (py_range (length bitstring) (ReedSolomon.n self * 8)) codewords.
Proof.
  intros U Hn Hb. rewrite bitstring_to_codewords_mapM.
  destruct (mapM_defined
              (fun i => imported (bitstring_to_ascii utils
                          (slice i (i + ReedSolomon.n self * 8) bitstring)))
              (py_range (length bitstring) (ReedSolomon.n self * 8)))
    as [cws [Hm HF]].
  - intros i _.
    destruct (reads_bits U (is_bitstring_slice i (i + ReedSolomon.n self * 8) Hb))
      as [s [Hs _]].
    exists s. now rewrite Hs.
  - exists cws. split; [exact Hm|].
    clear Hm. induction HF as [|i c idx cs Hic HF IH]; constructor; [|exact IH].
    destruct (bitstring_to_ascii utils _); [now inversion Hic|discriminate].
Qed.

(** When the bitstring is made of whole codewords, each has n symbols. *)
Lemma whole_codewords (bitstring : str) (m : nat) (codewords : list str) :
  utils_ok utils -> 0 < ReedSolomon.n self -> is_bitstring bitstring ->
  length bitstring = m * (ReedSolomon.n self * 8) ->
  Forall2
    (fun i c =>
       bitstring_to_ascii utils
         (slice i (i + ReedSolomon.n self * 8) bitstring) = Some c)
    (py_range (length bitstring) (ReedSolomon.n self * 8)) codewords ->
  length codewords = m
  /\ Forall (fun c => length c = ReedSolomon.n self) codewords.
Proof.
  intros U Hn Hb Hlen HF.
  rewrite Hlen, py_range_multiple in HF by lia.
  split.
  - apply Forall2_length in HF. now rewrite length_map, length_seq in HF.
  - eapply Forall2_right; [exact HF|]. intros i c Hi Hic.
    apply in_map_iff in Hi. destruct Hi as [j [<- Hj]].
    apply in_seq in Hj.
    assert (Hsl : length (slice (j * (ReedSolomon.n self * 8))
                                (j * (ReedSolomon.n self * 8) + ReedSolomon.n self * 8)
                                bitstring) = ReedSolomon.n self * 8)
      by (apply length_slice_multiple with (m := m); [exact Hlen|lia]).
    destruct (reads_bits U (is_bitstring_slice
                 (j * (ReedSolomon.n self * 8))
                 (j * (ReedSolomon.n self * 8) + ReedSolomon.n self * 8) Hb))
      as [s [Hs Hback]].
    rewrite Hic in Hs. inversion Hs; subst s.
    assert (Hw := writes_eight_bits U c).
    rewrite Hback in Hw.
    + rewrite Hsl in Hw. lia.
    + rewrite Hsl. apply Nat.Div0.mod_mul.
Qed.

(** C3, as amended.  On every bitstring [ReedSolomon.decode] returns (it
    does not raise).  The bitstring returned is the concatenation, codeword
    by codeword, of the decoded message written as bits or, where the
    library raised, of the codeword's first k symbols written as bits; the
    flag is the conjunction over the codewords of "the library decoded it".
    When the input consists of whole codewords of n * 8 bits and a
    successful decode returns k symbols, the output has k * 8 bits per
    codeword, whichever codewords failed: the length it has when every
    correction succeeds. *)
Theorem decode_best_effort (bitstring : str) :
  utils_ok utils -> 0 < ReedSolomon.n self -> is_bitstring bitstring ->
  exists codewords pieces,
    ReedSolomon.bitstring_to_codewords utils self bitstring = Ok codewords
    /\ ReedSolomon.decode utils self bitstring
       = Ok (concat pieces, forallb (codeword_decodes self) codewords)
    /\ Forall2 (codeword_output utils self) codewords pieces
    /\ (valid_config self -> coder_nostrip self ->
        length bitstring mod (ReedSolomon.n self * 8) = 0 ->
        length codewords = length bitstring / (ReedSolomon.n self * 8)
        /\ length (concat pieces) = length codewords * (ReedSolomon.k self * 8)).
Proof.
  intros U Hn Hb.
  destruct (codewords_of_bitstring U Hn Hb) as [cws [Hcws HF]].
  destruct (decode_loop cws [] true) as [pieces [Hloop Hout]].
  exists cws, pieces. split; [exact Hcws|]. split; [|split; [exact Hout|]].
  - unfold ReedSolomon.decode. rewrite Hcws. cbn [bind]. exact Hloop.
  - intros Hcfg Hns Hmod.
    apply Nat.Div0.div_exact in Hmod.
    set (m := length bitstring / (ReedSolomon.n self * 8)) in *.
    rewrite Nat.mul_comm in Hmod.
    destruct (whole_codewords m U Hn Hb Hmod HF) as [Hm Hlen].
    split; [exact Hm|].
    rewrite (Forall2_length Hout).
    apply length_concat_uniform.
    clear Hloop Hcws HF Hm.
    induction Hout as [|c p cs ps Hcp Hout IH]; constructor.
    + inversion Hlen as [|? ? Hc _]; subst.
      unfold codeword_output in Hcp.
      destruct (coder_decode (ReedSolomon.coder self) c) as [[msg par]|] eqn:Hd;
        subst p; rewrite (writes_eight_bits U); cbn [fst].
      * rewrite (Hns c msg par Hc Hd). lia.
      * rewrite length_firstn. unfold valid_config in Hcfg. lia.
    + apply IH. now inversion Hlen.
Qed.

Lemma encode_mapM (message_bitstring : str) :
  ReedSolomon.encode utils self message_bitstring
  = (message_symbols <- imported (bitstring_to_ascii utils message_bitstring) ;;
     codewords <-
       mapM (fun i => imported (coder_encode (ReedSolomon.coder self)
                                  (ReedSolomon.chunk_at self message_symbols i)))
            (py_range (length message_symbols) (ReedSolomon.k self)) ;;
     Ok (concat (map (ascii_to_bitstring utils) codewords))).
Proof.
  unfold ReedSolomon.encode.
  destruct (imported (bitstring_to_ascii utils message_bitstring)) as [syms|e];
    [|reflexivity].
  cbn [bind]. rewrite for_loop_append.
  destruct (mapM _ _) as [cws|e]; [|reflexivity].
  cbn [bind app]. now rewrite codewords_to_bitstring_concat.
Qed.

Lemma length_chunk_at (symbols : str) (i : nat) :
  i < length symbols ->
  length (ReedSolomon.chunk_at self symbols i) = ReedSolomon.k self.
Proof.
  intros Hi. unfold ReedSolomon.chunk_at, slice_from, slice.
  destruct (Nat.ltb_spec (length symbols) (i + ReedSolomon.k self)).
  - rewrite length_app, length_skipn, repeat_length. lia.
  - rewrite length_firstn, length_skipn. lia.
Qed.

Lemma chunk_at_shift (symbols : str) (i : nat) :
  ReedSolomon.k self <= length symbols ->
  ReedSolomon.chunk_at self symbols (ReedSolomon.k self + i)
  = ReedSolomon.chunk_at self (skipn (ReedSolomon.k self) symbols) i.
Proof.
  intros Hk. unfold ReedSolomon.chunk_at, slice_from, slice.
  rewrite length_skipn, skipn_skipn.
  replace (i + ReedSolomon.k self) with (ReedSolomon.k self + i) by lia.
  destruct (Nat.ltb_spec (length symbols)
                         (ReedSolomon.k self + i + ReedSolomon.k self));
    destruct (Nat.ltb_spec (length symbols - ReedSolomon.k self)
                           (ReedSolomon.k self + i)); try lia.
  - do 2 f_equal. lia.
  - f_equal. lia.
Qed.

Lemma ceil_succ (len c : nat) :
  0 < c -> 0 < len -> (len + c - 1) / c = S ((len - c + c - 1) / c).
Proof.
  intros Hc Hl. destruct (Nat.le_gt_cases c len) as [H|H].
  - replace (len + c - 1) with ((len - c + c - 1) + 1 * c) by lia.
    rewrite Nat.div_add by lia. lia.
  - replace (len - c + c - 1) with (c - 1) by lia.
    rewrite (Nat.div_small (c - 1)) by lia.
    symmetry. apply Nat.div_unique with (len - 1); lia.
Qed.

(** The chunks, read in order, are the symbols followed by zero symbols up
    to the next multiple of k. *)
Lemma chunks_concat (fuel : nat) (symbols : str) :
  0 < ReedSolomon.k self -> length symbols <= fuel ->
  concat (map (fun j => ReedSolomon.chunk_at self symbols (j * ReedSolomon.k self))
              (seq 0 ((length symbols + ReedSolomon.k self - 1) / ReedSolomon.k self)))
  = symbols
    ++ repeat zero
         ((length symbols + ReedSolomon.k self - 1) / ReedSolomon.k self
          * ReedSolomon.k self - length symbols).
Proof.
  intros Hk. revert symbols.
  induction fuel as [|fuel IH]; intros symbols Hf.
  - destruct symbols; [|simpl in Hf; lia].
    simpl. rewrite Nat.div_small by lia. reflexivity.
  - destruct (Nat.eq_dec (length symbols) 0) as [H0|H0].
    + destruct symbols; [|discriminate].
      simpl. rewrite Nat.div_small by lia. reflexivity.
    + rewrite ceil_succ by lia. rewrite seq_succ_map. cbn [concat].
      destruct (Nat.le_gt_cases (ReedSolomon.k self) (length symbols)) as [H|H].
      * rewrite (map_ext _ (fun j => ReedSolomon.chunk_at self
                                   (skipn (ReedSolomon.k self) symbols)
                                   (j * ReedSolomon.k self))).
        2:{ intros j. replace (S j * ReedSolomon.k self)
              with (ReedSolomon.k self + j * ReedSolomon.k self) by lia.
            now apply chunk_at_shift. }
        pose proof (IH (skipn (ReedSolomon.k self) symbols)) as IH'.
        rewrite length_skipn in IH'. rewrite IH' by lia.
        rewrite app_assoc. f_equal.
        -- unfold ReedSolomon.chunk_at, slice.
           destruct (Nat.ltb_spec (length symbols) (0 * ReedSolomon.k self + ReedSolomon.k self));
             [lia|].
           simpl. rewrite Nat.sub_0_r. apply firstn_skipn.
        -- f_equal.
           remember ((length symbols - ReedSolomon.k self + ReedSolomon.k self - 1)
                     / ReedSolomon.k self) as q.
           assert (length symbols - ReedSolomon.k self <= q * ReedSolomon.k self).
           { subst q.
             pose proof (Nat.div_mod_eq
                           (length symbols - ReedSolomon.k self + ReedSolomon.k self - 1)
                           (ReedSolomon.k self)).
             pose proof (Nat.mod_upper_bound
                           (length symbols - ReedSolomon.k self + ReedSolomon.k self - 1)
                           (ReedSolomon.k self)).
             nia. }
           lia.
      * replace (length symbols - ReedSolomon.k self) with 0 by lia.
        rewrite (Nat.div_small (0 + ReedSolomon.k self - 1)) by lia.
        cbn [seq map concat]. rewrite app_nil_r.
        unfold ReedSolomon.chunk_at, slice_from.
        destruct (Nat.ltb_spec (length symbols) (0 * ReedSolomon.k self + ReedSolomon.k self));
          [|lia].
        simpl. do 2 f_equal. lia.
Qed.

(** The codewords [encode] builds: one per chunk, each the chunk followed
    by n - k parity symbols. *)
Lemma encode_codewords (symbols : str) :
  valid_config self -> coder_systematic self ->
  exists codewords,
    mapM (fun i => imported (coder_encode (ReedSolomon.coder self)
                               (ReedSolomon.chunk_at self symbols i)))
         (py_range (length symbols) (ReedSolomon.k self)) = Ok codewords
    /\ Forall2
         (fun i cw =>
            coder_encode (ReedSolomon.coder self)
                         (ReedSolomon.chunk_at self symbols i) = Some cw
            /\ length cw = ReedSolomon.n self
            /\ firstn (ReedSolomon.k self) cw = ReedSolomon.chunk_at self symbols i)
         (py_range (length symbols) (ReedSolomon.k self)) codewords.
Proof.
  intros Hcfg Hsys. unfold valid_config in Hcfg.
  destruct (mapM_defined
              (fun i => imported (coder_encode (ReedSolomon.coder self)
                                    (ReedSolomon.chunk_at self symbols i)))
              (py_range (length symbols) (ReedSolomon.k self)))
    as [cws [Hm HF]].
  - intros i Hi. apply py_range_lt in Hi; [|lia].
    destruct (Hsys _ (length_chunk_at symbols Hi)) as [par [Hp _]].
    rewrite Hp. now eexists.
  - exists cws. split; [exact Hm|].
    assert (Hin : Forall (fun i => i < length symbols)
                         (py_range (length symbols) (ReedSolomon.k self))).
    { apply Forall_forall. intros i Hi. apply py_range_lt in Hi; lia. }
    clear Hm. induction HF as [|i cw idx cs Hic HF IH]; constructor.
    + inversion Hin as [|? ? Hi _]; subst.
      pose proof (length_chunk_at symbols Hi) as Hlen.
      destruct (Hsys _ Hlen) as [par [Hp Hpl]].
      rewrite Hp in Hic |- *. inversion Hic; subst cw.
      split; [reflexivity|]. split.
      * rewrite length_app. lia.
      * rewrite firstn_app, <- Hlen, Nat.sub_diag, firstn_all.
        simpl. apply app_nil_r.
    + apply IH. now inversion Hin.
Qed.

(** C8.  On every bitstring, [encode] cuts the input symbols into groups
    of k, the last one zero-padded on the right: the data parts of the
    codewords, read in order, are the symbols followed by zero symbols up
    to the next multiple of k.  Each group becomes a codeword of n symbols,
    the k data symbols first and n - k parity symbols after them; the
    bitstring returned is the codewords written as bits, n * 8 bits each. *)
Theorem encode_layout (message_bitstring : str) :
  utils_ok utils -> valid_config self -> coder_systematic self ->
  is_bitstring message_bitstring ->
  exists (symbols : str) (codewords : list str) (encoded : str),
    bitstring_to_ascii utils message_bitstring = Some symbols
    /\ ReedSolomon.encode utils self message_bitstring = Ok encoded
    /\ encoded = concat (map (ascii_to_bitstring utils) codewords)
    /\ length codewords
       = (length symbols + ReedSolomon.k self - 1) / ReedSolomon.k self
    /\ Forall
         (fun cw =>
            length cw = ReedSolomon.n self
            /\ length (firstn (ReedSolomon.k self) cw) = ReedSolomon.k self
            /\ length (skipn (ReedSolomon.k self) cw)
               = ReedSolomon.n self - ReedSolomon.k self
            /\ coder_encode (ReedSolomon.coder self)
                            (firstn (ReedSolomon.k self) cw) = Some cw)
         codewords
    /\ concat (map (firstn (ReedSolomon.k self)) codewords)
       = symbols
         ++ repeat zero (length codewords * ReedSolomon.k self - length symbols)
    /\ length encoded = length codewords * (ReedSolomon.n self * 8).
Proof.
  intros U Hcfg Hsys Hbits.
  destruct (reads_bits U Hbits) as [symbols [Hsyms _]].
  destruct (encode_codewords symbols Hcfg Hsys) as [cws [Hm HF]].
  assert (Hlen : length cws
                 = (length symbols + ReedSolomon.k self - 1) / ReedSolomon.k self).
  { apply Forall2_length in HF. unfold py_range in HF.
    now rewrite length_map, length_seq in HF. }
  assert (Hall : Forall (fun cw => length cw = ReedSolomon.n self) cws).
  { eapply Forall2_right; [exact HF|]. now intros i cw _ [_ [H _]]. }
  exists symbols, cws, (concat (map (ascii_to_bitstring utils) cws)).
  split; [exact Hsyms|].
  split; [|split; [reflexivity|split; [exact Hlen|split; [|split]]]].
  - rewrite encode_mapM, Hsyms. cbn [imported bind]. now rewrite Hm.
  - eapply Forall2_right; [exact HF|]. intros i cw _ [Henc [Hn Hk]].
    unfold valid_config in Hcfg.
    split; [exact Hn|]. split; [rewrite length_firstn; lia|].
    split; [rewrite length_skipn; lia|]. now rewrite Hk.
  - rewrite Hlen. rewrite <- (chunks_concat symbols (fuel := length symbols));
      [|unfold valid_config in Hcfg; lia|lia].
    f_equal. unfold py_range in HF. clear Hm Hlen Hall.
    remember (seq 0 ((length symbols + ReedSolomon.k self - 1) / ReedSolomon.k self))
      as js eqn:Ejs. clear Ejs.
    revert cws HF. induction js as [|j js IH]; intros cws HF.
    + inversion HF. reflexivity.
    + inversion HF as [|? cw ? cws' [_ [_ Hk]] HF']; subst.
      simpl. rewrite Hk. apply (f_equal (cons _)). now apply IH.
  - rewrite (length_concat_uniform (c := ReedSolomon.n self * 8)).
    + now rewrite length_map.
    + apply Forall_map. eapply Forall_impl; [|exact Hall].
      intros cw Hcw. cbn beta in *. rewrite (writes_eight_bits U). lia.
Qed.

(** Decoding the codewords of an encoding: every one is accepted, and the
    pieces of the output are the chunks written as bits. *)
Lemma decode_clean_codewords (symbols : str) (idxs : list nat)
      (codewords pieces : list str) :
  coder_decodes_clean self ->
  Forall (fun i => i < length symbols) idxs ->
  Forall2
    (fun i cw =>
       coder_encode (ReedSolomon.coder self)
                    (ReedSolomon.chunk_at self symbols i) = Some cw
       /\ length cw = ReedSolomon.n self
       /\ firstn (ReedSolomon.k self) cw = ReedSolomon.chunk_at self symbols i)
    idxs codewords ->
  Forall2 (codeword_output utils self) codewords pieces ->
  forallb (codeword_decodes self) codewords = true
  /\ pieces
     = map (fun i => ascii_to_bitstring utils (ReedSolomon.chunk_at self symbols i))
           idxs.
Proof.
  intros Hclean Hin HF. revert pieces.
  induction HF as [|i cw idxs cws [Henc _] HF IH]; intros pieces Hout.
  - inversion Hout. split; reflexivity.
  - inversion Hout as [|? piece ? pieces' Hp Hout']; subst.
    inversion Hin as [|? ? Hi Hin']; subst.
    destruct (Hclean _ _ (length_chunk_at symbols Hi) Henc) as [par Hd].
    destruct (IH Hin' pieces' Hout') as [Hall Hpieces].
    unfold codeword_output in Hp. cbn [forallb map].
    unfold codeword_decodes at 1. rewrite Hd in Hp |- *.
    cbn [fst] in Hp. subst. split; [exact Hall|reflexivity].
Qed.

(** Codewords of n symbols written as bits are read back as they were. *)
Lemma codewords_read_back (codewords : list str) :
  utils_ok utils -> 0 < ReedSolomon.n self ->
  Forall (fun cw => length cw = ReedSolomon.n self) codewords ->
  ReedSolomon.bitstring_to_codewords utils self
    (concat (map (ascii_to_bitstring utils) codewords)) = Ok codewords.
Proof.
  intros U Hn Hall.
  set (enc := concat (map (ascii_to_bitstring utils) codewords)).
  assert (Hbits : Forall (fun b => length b = ReedSolomon.n self * 8)
                         (map (ascii_to_bitstring utils) codewords)).
  { apply Forall_map. eapply Forall_impl; [|exact Hall].
    intros cw Hcw. cbn beta in *. rewrite (writes_eight_bits U). lia. }
  assert (E : map (fun i => slice i (i + ReedSolomon.n self * 8) enc)
                  (py_range (length enc) (ReedSolomon.n self * 8))
              = map (ascii_to_bitstring utils) codewords).
  { unfold enc. rewrite (length_concat_uniform Hbits).
    rewrite py_range_multiple by lia. rewrite map_map.
    apply (slices_of_concat Hbits). }
  rewrite bitstring_to_codewords_mapM. fold enc.
  transitivity (mapM (fun b => imported (bitstring_to_ascii utils b))
                     (map (fun i => slice i (i + ReedSolomon.n self * 8) enc)
                          (py_range (length enc) (ReedSolomon.n self * 8)))).
  { symmetry. apply mapM_of_map. }
  rewrite E, mapM_of_map.
  rewrite (mapM_map _ (fun cw => cw)).
  - now rewrite map_id.
  - intros cw _. now rewrite (reads_back U).
Qed.

(** C1.  For a bitstring whose length is a multiple of k * 8 bits,
    encoding and then decoding the unmodified result returns the bitstring
    with the flag true. *)
Theorem reed_solomon_round_trip (x : str) :
  utils_ok utils -> valid_config self ->
  coder_systematic self -> coder_decodes_clean self ->
  is_bitstring x -> length x mod (ReedSolomon.k self * 8) = 0 ->
  exists encoded,
    ReedSolomon.encode utils self x = Ok encoded
    /\ ReedSolomon.decode utils self encoded = Ok (x, true).
Proof.
  intros U Hcfg Hsys Hclean Hx Hmod.
  pose proof Hcfg as Hcfg'. unfold valid_config in Hcfg'.
  apply Nat.Div0.div_exact in Hmod.
  set (m := length x / (ReedSolomon.k self * 8)) in *.
  destruct (reads_bits U Hx) as [syms [Hsyms Hback]].
  assert (Hxs : ascii_to_bitstring utils syms = x).
  { apply Hback. rewrite Hmod.
    replace (ReedSolomon.k self * 8 * m) with (ReedSolomon.k self * m * 8) by lia.
    apply Nat.Div0.mod_mul. }
  assert (Hlen : length syms = m * ReedSolomon.k self).
  { pose proof (writes_eight_bits U syms) as Hw. rewrite Hxs in Hw. lia. }
  destruct (encode_codewords syms Hcfg Hsys) as [cws [Hm HF]].
  assert (Hin : Forall (fun i => i < length syms)
                       (py_range (length syms) (ReedSolomon.k self))).
  { apply Forall_forall. intros i Hi. apply py_range_lt in Hi; lia. }
  assert (Hcount : length cws = m).
  { apply Forall2_length in HF.
    rewrite Hlen, py_range_multiple, length_map, length_seq in HF by lia.
    now symmetry. }
  assert (Hall : Forall (fun b => length b = ReedSolomon.n self * 8)
                        (map (ascii_to_bitstring utils) cws)).
  { apply Forall_map. eapply Forall2_right; [exact HF|].
    intros i cw _ [_ [Hn _]]. cbn beta. rewrite (writes_eight_bits U). lia. }
  exists (concat (map (ascii_to_bitstring utils) cws)). split.
  - rewrite encode_mapM, Hsyms. cbn [imported bind]. now rewrite Hm.
  - destruct (decode_loop cws [] true) as [pieces [Hloop Hout]].
    destruct (@decode_clean_codewords _ _ _ _ Hclean Hin HF Hout)
      as [Hflag Hpieces].
    unfold ReedSolomon.decode. rewrite (codewords_read_back U); [|lia|].
    2:{ eapply Forall2_right; [exact HF|]. now intros i cw _ [_ [Hn _]]. }
    cbn [bind].
    eapply eq_trans; [exact Hloop|].
    rewrite Hflag. cbn [app andb]. do 2 f_equal.
    rewrite Hpieces, <- map_map, <- (a2b_concat _ U).
    unfold py_range. rewrite map_map.
    rewrite (chunks_concat syms (fuel := length syms)) by lia.
    replace ((length syms + ReedSolomon.k self - 1) / ReedSolomon.k self) with m.
    + replace (m * ReedSolomon.k self - length syms) with 0 by lia.
      cbn [repeat]. now rewrite app_nil_r, Hxs.
    + rewrite Hlen. apply Nat.div_unique with (ReedSolomon.k self - 1); lia.
Qed.

End ReedSolomonProperties.

(** ** The instances meet what the theorems assume *)

Lemma char_bit_bit_char (b : bool) :
  Reference.char_bit (Reference.bit_char b) = Some b.
Proof. destruct b; reflexivity. Qed.

Lemma bitstring_bits (s : str) :
  is_bitstring s -> exists bits, s = map Reference.bit_char bits.
Proof.
  induction 1 as [|c s Hc Hs [bits ->]].
  - exists []. reflexivity.
  - destruct Hc as [-> | ->]; [exists (false :: bits)|exists (true :: bits)];
      reflexivity.
Qed.

Lemma all_some_bits (bits : list bool) :
  Reference.all_some (map Reference.char_bit (map Reference.bit_char bits))
  = Some bits.
Proof.
  induction bits as [|b bits IH]; simpl; [reflexivity|].
  rewrite char_bit_bit_char, IH. reflexivity.
Qed.

Lemma read_symbols_step (b7 b6 b5 b4 b3 b2 b1 b0 : bool) (rest : str) :
  Reference.read_symbols
    (map Reference.bit_char [b7; b6; b5; b4; b3; b2; b1; b0] ++ rest)
  = option_map (cons (Ascii b0 b1 b2 b3 b4 b5 b6 b7))
               (Reference.read_symbols rest).
Proof.
  cbn [map app Reference.read_symbols].
  rewrite !char_bit_bit_char. cbn [Reference.all_some option_map].
  destruct (Reference.read_symbols rest); reflexivity.
Qed.

Lemma read_symbols_written (s : str) :
  Reference.read_symbols (flat_map Reference.symbol_bits s) = Some s.
Proof.
  induction s as [|c s IH]; [reflexivity|].
  destruct c as [b0 b1 b2 b3 b4 b5 b6 b7].
  cbn [flat_map Reference.symbol_bits].
  rewrite read_symbols_step, IH. reflexivity.
Qed.

Lemma read_symbols_defined (bound : nat) (bits : list bool) :
  length bits <= bound ->
  exists s, Reference.read_symbols (map Reference.bit_char bits) = Some s.
Proof.
  revert bits. induction bound as [|bound IH]; intros bits Hb.
  - destruct bits; [now exists []|simpl in Hb; lia].
  - do 8 (destruct bits as [|? bits];
          [cbn [map Reference.read_symbols]; rewrite ?char_bit_bit_char;
           now eexists|]).
    destruct (IH bits) as [s Hs]; [simpl in Hb; lia|].
    change (map Reference.bit_char (b :: b0 :: b1 :: b2 :: b3 :: b4 :: b5 :: b6 :: bits))
      with (map Reference.bit_char [b; b0; b1; b2; b3; b4; b5; b6]
            ++ map Reference.bit_char bits).
    rewrite read_symbols_step, Hs. now eexists.
Qed.

Lemma read_symbols_whole (m : nat) (bits : list bool) :
  length bits = 8 * m ->
  exists s, Reference.read_symbols (map Reference.bit_char bits) = Some s
            /\ flat_map Reference.symbol_bits s = map Reference.bit_char bits.
Proof.
  revert bits. induction m as [|m IH]; intros bits Hb.
  - destruct bits; [|discriminate]. now exists [].
  - do 8 (destruct bits as [|? bits]; [simpl in Hb; lia|]).
    destruct (IH bits) as [s [Hs Hw]]; [simpl in Hb; lia|].
    change (map Reference.bit_char (b :: b0 :: b1 :: b2 :: b3 :: b4 :: b5 :: b6 :: bits))
      with (map Reference.bit_char [b; b0; b1; b2; b3; b4; b5; b6]
            ++ map Reference.bit_char bits).
    rewrite read_symbols_step, Hs.
    eexists. split; [reflexivity|].
    cbn [flat_map Reference.symbol_bits]. now rewrite Hw.
Qed.

Lemma reference_utils_ok : utils_ok Reference.utils.
Proof.
  constructor; cbn [ascii_to_bitstring bitstring_to_ascii Reference.utils].
  - intros s. induction s as [|c s IH]; [reflexivity|].
    cbn [flat_map]. rewrite length_app, IH. destruct c. simpl. lia.
  - intros s1 s2. apply flat_map_app.
  - apply read_symbols_written.
  - intros b Hb. destruct (bitstring_bits Hb) as [bits ->].
    destruct (@read_symbols_defined _ bits (le_n _)) as [s Hs].
    exists s. split; [exact Hs|].
    rewrite length_map. intros Hmod.
    apply Nat.Div0.div_exact in Hmod.
    destruct (@read_symbols_whole _ bits Hmod) as [s' [Hs' Hw]].
    rewrite Hs in Hs'. now inversion Hs'.
Qed.

(** *** GF(2^8) and the Reed-Solomon coder *)

Ltac gf_bits :=
  intros;
  repeat match goal with a : ascii |- _ => destruct a end;
  cbv [GaloisField.add GaloisField.mul GaloisField.opp GaloisField.xtime
       GaloisField.scale zero one];
  f_equal; btauto.

(** GF(2^8) is a commutative ring (bit by bit, each law is an identity of
    Boolean polynomials). *)
Lemma gf_ring :
  ring_theory zero one GaloisField.add GaloisField.mul GaloisField.add
              GaloisField.opp eq.
Proof.
  constructor.
  - intros x. gf_bits.
  - intros x y. gf_bits.
  - intros x y z. gf_bits.
  - intros x. gf_bits.
  - intros x y. gf_bits.
  - intros x y z. gf_bits.
  - intros x y z. gf_bits.
  - intros x y. reflexivity.
  - intros x. gf_bits.
Qed.

Add Ring gf : gf_ring.

Lemma gf_add_self (a : ascii) : GaloisField.add a a = zero.
Proof. gf_bits. Qed.

Section Evaluation.

Import GaloisField.

Variable a : ascii.

Lemma eval_from (p : str) : forall acc,
  fold_left (fun acc c => add (mul acc a) c) p acc
  = add (mul acc (pow a (length p))) (ReedSolomonCodec.eval p a).
Proof.
  unfold ReedSolomonCodec.eval.
  induction p as [|c p IH]; intros acc; cbn [fold_left length pow].
  - ring.
  - rewrite (IH (add (mul acc a) c)), (IH (add (mul zero a) c)). ring.
Qed.

Lemma eval_app (p q : str) :
  ReedSolomonCodec.eval (p ++ q) a
  = add (mul (ReedSolomonCodec.eval p a) (pow a (length q)))
        (ReedSolomonCodec.eval q a).
Proof.
  unfold ReedSolomonCodec.eval at 1. rewrite fold_left_app.
  fold (ReedSolomonCodec.eval p a). apply (eval_from q).
Qed.

Lemma eval_nil : ReedSolomonCodec.eval [] a = zero.
Proof. reflexivity. Qed.

Lemma eval_cons (c : ascii) (p : str) :
  ReedSolomonCodec.eval (c :: p) a
  = add (mul c (pow a (length p))) (ReedSolomonCodec.eval p a).
Proof.
  change (c :: p) with ([c] ++ p). rewrite eval_app.
  unfold ReedSolomonCodec.eval at 1. cbn [fold_left]. ring.
Qed.

Lemma length_padd (p q : str) :
  length p = length q -> length (ReedSolomonCodec.padd p q) = length p.
Proof.
  intros H. unfold ReedSolomonCodec.padd. rewrite length_map, length_combine. lia.
Qed.

Lemma eval_padd (p : str) : forall q,
  length p = length q ->
  ReedSolomonCodec.eval (ReedSolomonCodec.padd p q) a
  = add (ReedSolomonCodec.eval p a) (ReedSolomonCodec.eval q a).
Proof.
  induction p as [|x p IH]; intros [|y q] Hl; try discriminate.
  - reflexivity.
  - unfold ReedSolomonCodec.padd. cbn [combine map fst snd].
    fold (ReedSolomonCodec.padd p q).
    rewrite !eval_cons, IH by (simpl in Hl; lia).
    rewrite length_padd by (simpl in Hl; lia).
    replace (length q) with (length p) by (simpl in Hl; lia).
    ring.
Qed.

Lemma eval_scale (f : ascii) (p : str) :
  ReedSolomonCodec.eval (map (mul f) p) a = mul f (ReedSolomonCodec.eval p a).
Proof.
  induction p as [|x p IH]; [cbn [map]; rewrite eval_nil; ring|].
  cbn [map]. rewrite !eval_cons, IH, length_map. ring.
Qed.

Lemma eval_zeros (r : nat) : ReedSolomonCodec.eval (repeat zero r) a = zero.
Proof.
  induction r as [|r IH]; [reflexivity|].
  cbn [repeat]. rewrite eval_cons, IH. ring.
Qed.

Lemma generator_eval_step (r : nat) :
  ReedSolomonCodec.eval (ReedSolomonCodec.generator (S r)) a
  = mul (ReedSolomonCodec.eval (ReedSolomonCodec.generator r) a)
        (add a (pow alpha (S r))).
Proof.
  cbn [ReedSolomonCodec.generator]. rewrite eval_padd.
  - rewrite eval_app, !eval_cons, eval_scale, eval_nil, length_map.
    cbn [length pow]. ring.
  - rewrite length_app. cbn [length]. rewrite length_map. lia.
Qed.

(** One step of the division keeps the word a multiple of the generator:
    it still vanishes at every root. *)
Lemma remainder_step_root (g_tail rem prefix : str) (c : ascii) :
  length rem = length g_tail -> 0 < length rem ->
  ReedSolomonCodec.eval (one :: g_tail) a = zero ->
  ReedSolomonCodec.eval (prefix ++ rem) a = zero ->
  ReedSolomonCodec.eval
    ((prefix ++ [c]) ++ ReedSolomonCodec.remainder_step g_tail rem c) a = zero.
Proof.
  intros Hlen Hpos Hroot Hinv.
  destruct rem as [|h t]; [simpl in Hpos; lia|].
  assert (Ht : length g_tail = S (length t)) by (simpl in Hlen; lia).
  unfold ReedSolomonCodec.remainder_step. cbn [hd tl].
  rewrite eval_cons in Hroot.
  rewrite eval_app, eval_cons in Hinv. cbn [length pow] in Hinv.
  rewrite !eval_app, eval_padd, eval_app, eval_scale.
  2:{ rewrite length_app, length_map. simpl. lia. }
  rewrite length_padd by (rewrite length_app, length_map; simpl; lia).
  rewrite length_app. cbn [length]. rewrite Nat.add_comm. cbn [Nat.add pow].
  rewrite Ht in Hroot. cbn [pow] in Hroot.
  unfold ReedSolomonCodec.eval at 2 4. cbn [fold_left].
  set (E := ReedSolomonCodec.eval prefix a) in *.
  set (et := ReedSolomonCodec.eval t a) in *.
  set (Q := pow a (length t)) in *.
  set (G := ReedSolomonCodec.eval g_tail a) in *.
  match goal with |- ?lhs = zero =>
    assert (H2 : add lhs (add (mul a (mul h Q)) (mul a (mul h Q)))
                 = add (mul a (add (mul E (mul a Q)) (add (mul h Q) et)))
                       (mul (add c h) (add (mul one (mul a Q)) G))) by ring;
    rewrite gf_add_self, Hinv, Hroot in H2;
    transitivity (add lhs zero); [ring|rewrite H2; ring]
  end.
Qed.

Lemma length_remainder_step (g_tail rem : str) (c : ascii) :
  length rem = length g_tail -> 0 < length rem ->
  length (ReedSolomonCodec.remainder_step g_tail rem c) = length g_tail.
Proof.
  intros Hlen Hpos. unfold ReedSolomonCodec.remainder_step.
  destruct rem as [|h t]; [simpl in Hpos; lia|]. cbn [tl].
  assert (Ht : length (t ++ [zero]) = length (map (mul (add c (hd zero (h :: t)))) g_tail)).
  { rewrite length_app, length_map. simpl in Hlen |- *. lia. }
  rewrite (@length_padd _ _ Ht), length_app. simpl in Hlen |- *. lia.
Qed.

Lemma length_remainder (g_tail message : str) : forall rem,
  length rem = length g_tail -> 0 < length rem ->
  length (fold_left (ReedSolomonCodec.remainder_step g_tail) message rem)
  = length g_tail.
Proof.
  induction message as [|c message IH]; intros rem Hlen Hpos; [exact Hlen|].
  cbn [fold_left]. pose proof (@length_remainder_step g_tail rem c Hlen Hpos) as Hl.
  apply IH; [exact Hl|lia].
Qed.

(** The division, symbol by symbol. *)
Lemma remainder_root (g_tail message : str) : forall prefix rem,
  length rem = length g_tail -> 0 < length rem ->
  ReedSolomonCodec.eval (one :: g_tail) a = zero ->
  ReedSolomonCodec.eval (prefix ++ rem) a = zero ->
  ReedSolomonCodec.eval
    ((prefix ++ message)
     ++ fold_left (ReedSolomonCodec.remainder_step g_tail) message rem) a
  = zero.
Proof.
  induction message as [|c message IH]; intros prefix rem Hlen Hpos Hroot Hinv.
  - cbn [fold_left]. now rewrite app_nil_r.
  - cbn [fold_left].
    pose proof (@length_remainder_step g_tail rem c Hlen Hpos) as Hl.
    replace (prefix ++ c :: message) with ((prefix ++ [c]) ++ message)
      by (now rewrite <- app_assoc).
    apply IH; [exact Hl|lia|exact Hroot|].
    now apply remainder_step_root.
Qed.

End Evaluation.

Lemma generator_length (r : nat) : length (ReedSolomonCodec.generator r) = S r.
Proof.
  induction r as [|r IH]; [reflexivity|].
  cbn [ReedSolomonCodec.generator]. rewrite length_padd.
  - rewrite length_app, IH. simpl. lia.
  - rewrite length_app. cbn [length]. rewrite length_map. lia.
Qed.

Lemma generator_monic (r : nat) :
  exists g_tail, ReedSolomonCodec.generator r = one :: g_tail.
Proof.
  induction r as [|r [gt IH]]; [now exists []|].
  cbn [ReedSolomonCodec.generator]. rewrite IH. unfold ReedSolomonCodec.padd.
  cbn [app combine map fst snd]. eexists. f_equal.
Qed.

Lemma generator_root (r j : nat) :
  1 <= j <= r ->
  ReedSolomonCodec.eval (ReedSolomonCodec.generator r)
                        (GaloisField.pow GaloisField.alpha j) = zero.
Proof.
  induction r as [|r IH]; intros Hj; [lia|].
  rewrite generator_eval_step.
  destruct (Nat.eq_dec j (S r)) as [->|Hne].
  - rewrite gf_add_self. ring.
  - rewrite IH by lia. ring.
Qed.

(** A message followed by its parity vanishes at every root of the
    generator: all its syndromes are zero. *)
Lemma parity_syndromes (r : nat) (message : str) :
  0 < r ->
  length (ReedSolomonCodec.parity r message) = r
  /\ forallb (fun s => Ascii.eqb s zero)
             (ReedSolomonCodec.syndromes r
                (message ++ ReedSolomonCodec.parity r message)) = true.
Proof.
  intros Hr. unfold ReedSolomonCodec.parity.
  destruct (generator_monic r) as [gt Hg].
  assert (Hgt : length gt = r).
  { pose proof (generator_length r) as H. rewrite Hg in H. simpl in H. lia. }
  rewrite Hg. cbn [tl].
  assert (Hrep : length (repeat zero r) = length gt)
    by (now rewrite repeat_length).
  assert (Hpos : 0 < length (repeat zero r)) by (now rewrite repeat_length).
  split.
  - now rewrite (@length_remainder gt message _ Hrep Hpos).
  - apply forallb_forall. intros s Hs. unfold ReedSolomonCodec.syndromes in Hs.
    apply in_map_iff in Hs. destruct Hs as [j [<- Hj]]. apply in_seq in Hj.
    apply Ascii.eqb_eq.
    apply (@remainder_root (GaloisField.pow GaloisField.alpha j) gt message []
                           (repeat zero r) Hrep Hpos).
    + rewrite <- Hg. apply generator_root. lia.
    + cbn [app]. apply eval_zeros.
Qed.

Section ReedSolomonCoder.

Variables n k : nat.
Hypothesis Hkn : 1 <= k < n.

Lemma coder_valid : valid_config (ReedSolomon.init Reference.rs n k).
Proof. exact Hkn. Qed.

Lemma coder_is_systematic :
  coder_systematic (ReedSolomon.init Reference.rs n k).
Proof.
  intros chunk Hc.
  exists (ReedSolomonCodec.parity (n - k) chunk).
  split; [reflexivity|]. apply parity_syndromes.
  cbn [ReedSolomon.init ReedSolomon.n ReedSolomon.k]. lia.
Qed.

Lemma coder_decodes_clean_codewords :
  coder_decodes_clean (ReedSolomon.init Reference.rs n k).
Proof.
  intros chunk cw Hc Henc.
  cbn [ReedSolomon.init ReedSolomon.coder ReedSolomon.k new_RSCoder Reference.rs
       coder_encode coder_decode ReedSolomonCodec.coder] in Hc, Henc |- *.
  inversion Henc; subst cw.
  exists (ReedSolomonCodec.parity (n - k) chunk).
  rewrite (proj2 (@parity_syndromes (n - k) chunk ltac:(lia))).
  rewrite firstn_app, skipn_app, <- Hc, Nat.sub_diag, firstn_all, skipn_all.
  cbn [firstn skipn app]. now rewrite app_nil_r.
Qed.

Lemma coder_returns_k_symbols :
  coder_nostrip (ReedSolomon.init Reference.rs n k).
Proof.
  intros c m p Hc Hd.
  cbn [ReedSolomon.init ReedSolomon.coder ReedSolomon.k ReedSolomon.n
       new_RSCoder Reference.rs coder_decode ReedSolomonCodec.coder]
    in Hc, Hd |- *.
  destruct (forallb _ _); [|discriminate].
  inversion Hd. rewrite length_firstn. lia.
Qed.

End ReedSolomonCoder.

(** ** Viterbi: validation and the degraded output *)

Lemma mapM_raise (A B : Type) (f : A -> result B) (l : list A) (e : exn) :
  mapM f l = Raise e -> exists a, In a l /\ f a = Raise e.
Proof.
  induction l as [|a l IH]; simpl; [discriminate|].
  destruct (f a) as [b|e'] eqn:Ha; simpl.
  - destruct (mapM f l); simpl; [discriminate|].
    intros H. destruct (IH H) as [a' [Hin Ha']]. exists a'. split; [now right|exact Ha'].
  - intros H. inversion H; subst. exists a. split; [now left|exact Ha].
Qed.

Lemma for_loop_raise (S I : Type) (body : S -> I -> result S) (items : list I)
      (s : S) (e : exn) :
  for_loop body items s = Raise e -> exists s' i, body s' i = Raise e.
Proof.
  revert s. induction items as [|i items IH]; intros s; simpl; [discriminate|].
  destruct (body s i) as [s'|e'] eqn:Hb; simpl.
  - apply IH.
  - intros H. inversion H; subst. now exists s, i.
Qed.

(** The type checks raise exactly on a wrong type, and only their own
    three exceptions. *)
Lemma check_input_spec (soft : bool) (input : pyval) :
  (Viterbi.check_input soft input = Ok tt /\ ~ wrong_type soft input)
  \/ (exists e, Viterbi.check_input soft input = Raise e
                /\ type_check_error e /\ wrong_type soft input).
Proof.
  unfold wrong_type, Viterbi.check_input, type_check_error.
  destruct soft.
  - destruct input as [s|x|z|b|l|l|]; cbn [is_list negb];
      try (right; eexists; split; [reflexivity|];
           split; [left; reflexivity|intros [l' [E _]]; discriminate]).
    destruct (forallb is_float l) eqn:Hf; cbn [negb].
    + left. split; [reflexivity|]. intros H. apply H. exists l.
      split; [reflexivity|]. apply Forall_forall. intros v Hv.
      rewrite forallb_forall in Hf. specialize (Hf v Hv).
      destruct v; try discriminate. now eexists.
    + right. eexists. split; [reflexivity|].
      split; [right; left; reflexivity|].
      intros [l' [E HF]]. inversion E; subst l'.
      assert (forallb is_float l = true); [|congruence].
      apply forallb_forall. intros v Hv.
      destruct (proj1 (Forall_forall _ _) HF v Hv) as [x ->]. reflexivity.
  - destruct input as [s|x|z|b|l|l|]; cbn [is_str negb];
      try (right; eexists; split; [reflexivity|];
           split; [right; right; reflexivity|intros [s' E]; discriminate]).
    left. split; [reflexivity|]. intros H. apply H. now exists s.
Qed.

(** [float] raises on a string exactly when one of its characters is not a
    digit, and then with its own [ValueError]. *)
Lemma mapM_py_float (s : str) :
  match mapM py_float s with
  | Ok _ => Forall (fun c => digit_of_char c <> None) s
  | Raise e => Exists (fun c => digit_of_char c = None) s /\ conversion_error e
  end.
Proof.
  induction s as [|c s IH]; cbn [mapM]; [constructor|].
  unfold py_float at 1. destruct (digit_of_char c) as [d|] eqn:Hc; cbn [bind].
  - destruct (mapM py_float s) as [l|e]; cbn [bind].
    + constructor; [congruence|exact IH].
    + destruct IH as [Hex He]. split; [now apply Exists_cons_tl|exact He].
  - split; [now apply Exists_cons_hd|reflexivity].
Qed.

(** The head of [decode] returns the sequence to decode exactly on an
    input that is not rejected; on a wrong type it raises what the type
    checks raise, and on a string of the right type with a character that
    is not a digit it raises the error of the conversion. *)
Lemma read_input_spec (soft : bool) (input : pyval) :
  match Viterbi.read_input soft input with
  | Ok _ => ~ rejected soft input
  | Raise e =>
      (wrong_type soft input /\ type_check_error e
       /\ Viterbi.check_input soft input = Raise e)
      \/ (~ wrong_type soft input /\ has_non_digit input /\ conversion_error e)
  end.
Proof.
  unfold Viterbi.read_input.
  destruct (check_input_spec soft input) as [[Hok Hnw]|[e0 [Hr [Hv Hw]]]].
  2:{ rewrite Hr. cbn [bind]. left. now repeat split. }
  rewrite Hok. cbn [bind].
  destruct input as [s|x|z|b|l|l|]; cbn [bind Viterbi.as_sequence];
    try (intros [H|[s' [E _]]]; [contradiction|discriminate]);
    try (exfalso; destruct soft; cbn in Hok; discriminate).
  pose proof (mapM_py_float s) as Hm.
  destruct (mapM py_float s) as [fl|e]; cbn [bind Viterbi.as_sequence].
  - intros [H|[s' [E Hex]]]; [contradiction|].
    inversion E; subst s'. apply Exists_exists in Hex.
    destruct Hex as [c [Hin Hc]].
    exact (proj1 (Forall_forall _ _) Hm c Hin Hc).
  - destruct Hm as [Hex He]. right. split; [exact Hnw|].
    split; [now exists s|exact He].
Qed.

Section ViterbiProperties.

Variable self : Viterbi.t.

(** The failure branch of [decode], whatever the library. *)
Lemma decode_invalid (lib : viterbi_module) (input : pyval) (observed : list pyval) :
  Viterbi.read_input (Viterbi.soft self) input = Ok observed ->
  structurally_invalid self observed ->
  Viterbi.decode lib self input
  = Ok (str_mul "0" (Z.of_nat (length observed) - Viterbi.k self), false).
Proof.
  intros Hread Hinv. unfold Viterbi.decode. rewrite Hread. cbn [bind].
  replace (negb (Z.of_nat (length observed) mod 2 =? 0)%Z
           || (Z.of_nat (length observed) <? Viterbi.k self)%Z) with true.
  - reflexivity.
  - symmetry. apply orb_true_iff. destruct Hinv as [H|H].
    + left. apply negb_true_iff. now apply Z.eqb_neq.
    + right. now apply Z.ltb_lt.
Qed.

(** C4, as amended.  On an input that [decode] reads (the right type for
    the mode and, for a string, digits only) whose observed length is odd
    or below the constraint length, [decode] returns without calling the
    library's decoder: the flag is false and the bitstring is made of the
    character 0 only, max(0, observed length - k) of them. *)
Theorem decode_degraded_output (input : pyval) (observed : list pyval) :
  Viterbi.read_input (Viterbi.soft self) input = Ok observed ->
  structurally_invalid self observed ->
  exists out,
    (forall lib, Viterbi.decode lib self input = Ok (out, false))
    /\ Forall (fun c => c = "0"%char) out
    /\ Z.of_nat (length out)
       = Z.max 0 (Z.of_nat (length observed) - Viterbi.k self).
Proof.
  intros Hread Hinv.
  exists (str_mul "0" (Z.of_nat (length observed) - Viterbi.k self)).
  split; [|split].
  - intros lib. now apply decode_invalid.
  - unfold str_mul. apply Forall_forall. intros c Hc.
    now apply repeat_spec in Hc.
  - unfold str_mul. rewrite repeat_length. lia.
Qed.

(** The failure branch of [decode] after the library's decoder raised. *)
Lemma decode_decoder_raised (lib : viterbi_module) (input : pyval)
      (observed : list pyval) (input_stream : list (pyval * pyval)) :
  Viterbi.read_input (Viterbi.soft self) input = Ok observed ->
  Viterbi.pair_observed observed = Ok input_stream ->
  Decoder lib (Viterbi.k self) input_stream (negb (Viterbi.soft self)) = None ->
  Viterbi.decode lib self input
  = Ok (str_mul "0" (Z.of_nat (length observed) - Viterbi.k self), false).
Proof.
  intros Hread Hpairs Hdec. unfold Viterbi.decode. rewrite Hread. cbn [bind].
  destruct (negb _ || _); [reflexivity|].
  rewrite Hpairs. cbn [bind]. now rewrite Hdec.
Qed.

(** C10.  When [decode] takes its failure branch (the observed length is
    odd or below k, or the library's decoder raised) on an observed length
    of at most k, the repetition count len(input) - k is not positive:
    [decode] returns the empty string, of length max(0, len(input) - k),
    with the flag false. *)
Theorem decode_degraded_empty (lib : viterbi_module) (input : pyval)
        (observed : list pyval) :
  Viterbi.read_input (Viterbi.soft self) input = Ok observed ->
  decoding_fails lib self observed ->
  (Z.of_nat (length observed) <= Viterbi.k self)%Z ->
  Viterbi.decode lib self input = Ok ([], false)
  /\ Z.of_nat (length (@nil ascii))
     = Z.max 0 (Z.of_nat (length observed) - Viterbi.k self).
Proof.
  intros Hread Hfail Hle.
  assert (Hd : Viterbi.decode lib self input
               = Ok (str_mul "0" (Z.of_nat (length observed) - Viterbi.k self),
                     false)).
  { destruct Hfail as [Hinv|[input_stream [Hpairs Hdec]]].
    - now apply decode_invalid.
    - now apply decode_decoder_raised with (input_stream := input_stream). }
  rewrite Hd. unfold str_mul.
  replace (Z.to_nat (Z.of_nat (length observed) - Viterbi.k self)) with 0%nat by lia.
  split; [reflexivity|]. simpl. lia.
Qed.

(** [decode] raises only what [read_input] raises, or an [IndexError]. *)
Lemma decode_raise (lib : viterbi_module) (input : pyval) (e : exn) :
  Viterbi.decode lib self input = Raise e ->
  Viterbi.read_input (Viterbi.soft self) input = Raise e \/ e = IndexError.
Proof.
  unfold Viterbi.decode.
  destruct (Viterbi.read_input (Viterbi.soft self) input) as [obs|e'];
    cbn [bind]; [|intros H; left; now inversion H].
  destruct (negb _ || _); cbn [bind negb]; [discriminate|].
  destruct (Viterbi.pair_observed obs) as [stream|e'] eqn:Hloop; cbn [bind].
  - destruct (Decoder lib _ _ _); cbn [bind negb]; discriminate.
  - intros H. inversion H; subst e'. right.
    unfold Viterbi.pair_observed in Hloop.
    apply for_loop_raise in Hloop. destruct Hloop as [st [i Hb]].
    unfold py_index in Hb.
    destruct (nth_error obs i); cbn [bind] in Hb; [|now inversion Hb].
    destruct (nth_error obs (i + 1)); cbn [bind] in Hb; [discriminate|].
    now inversion Hb.
Qed.

Lemma decode_rejects (lib : viterbi_module) (input : pyval) (e : exn) :
  Viterbi.check_input (Viterbi.soft self) input = Raise e ->
  Viterbi.decode lib self input = Raise e.
Proof.
  intros H. unfold Viterbi.decode, Viterbi.read_input. now rewrite H.
Qed.

End ViterbiProperties.

(** ** ConcatenatedViterbiRS *)

Lemma reed_solomon_decode_raise (utils : bitstring_utils) (self : ReedSolomon.t)
      (b : str) (e : exn) :
  ReedSolomon.decode utils self b = Raise e -> e = LibraryError.
Proof.
  unfold ReedSolomon.decode. rewrite bitstring_to_codewords_mapM.
  destruct (mapM _ _) as [cws|e'] eqn:Hm; cbn [bind].
  - destruct (decode_loop utils self cws [] true) as [pieces [Hl _]].
    intros H. pose proof (eq_trans (eq_sym Hl) H) as H'. discriminate H'.
  - intros H. inversion H; subst e'.
    apply mapM_raise in Hm. destruct Hm as [i [_ Hi]].
    destruct (bitstring_to_ascii utils _); [discriminate|now inversion Hi].
Qed.

Section ConcatenatedProperties.

Variable utils : bitstring_utils.
Variable lib : viterbi_module.
Variable rs : unireedsolomon.
Variable v_k : Z.
Variables n rs_k : nat.
Variable soft : bool.

(** C5.  [ConcatenatedViterbiRS.decode] returns a bitstring and a flag
    exactly when [Viterbi.decode] returns on the input and
    [ReedSolomon.decode] returns on the Viterbi layer's bitstring; the
    bitstring is then the Reed-Solomon layer's and the flag is the AND of
    the two layers' flags. *)
Theorem concatenated_decode (input : pyval) (decoded : str) (correctable : bool) :
  ConcatenatedViterbiRS.decode utils lib
    (ConcatenatedViterbiRS.init rs v_k n rs_k soft) input
  = Ok (decoded, correctable)
  <-> exists pred_rs_encoded vit_correctable rs_correctable,
        Viterbi.decode lib (Viterbi.init v_k soft) input
        = Ok (pred_rs_encoded, vit_correctable)
        /\ ReedSolomon.decode utils (ReedSolomon.init rs n rs_k) pred_rs_encoded
           = Ok (decoded, rs_correctable)
        /\ correctable = vit_correctable && rs_correctable.
Proof.
  unfold ConcatenatedViterbiRS.decode.
  cbn [ConcatenatedViterbiRS.init ConcatenatedViterbiRS.soft
       ConcatenatedViterbiRS.viterbi_coder ConcatenatedViterbiRS.rs_coder].
  destruct (Viterbi.check_input soft input) as [[]|e] eqn:Hc; cbn [bind].
  - destruct (Viterbi.decode lib (Viterbi.init v_k soft) input)
      as [[p vc]|e]; cbn [bind].
    + destruct (ReedSolomon.decode utils (ReedSolomon.init rs n rs_k) p)
        as [[d rc]|e] eqn:Hr; cbn [bind].
      * split.
        -- intros H. inversion H; subst. now exists p, vc, rc.
        -- intros [p' [vc' [rc' [Hv [Hr' Hf]]]]].
           inversion Hv; subst p' vc'. rewrite Hr in Hr'.
           inversion Hr'; subst. reflexivity.
      * split; [discriminate|].
        intros [p' [vc' [rc' [Hv [Hr' _]]]]].
        inversion Hv; subst p' vc'. rewrite Hr in Hr'. discriminate.
    + split; [discriminate|]. intros [p [vc [rc [Hv _]]]]. discriminate.
  - split; [discriminate|]. intros [p [vc [rc [Hv _]]]].
    rewrite (decode_rejects (Viterbi.init v_k soft) lib input Hc) in Hv.
    discriminate.
Qed.

Lemma concatenated_decode_raise (input : pyval) (e : exn) :
  ConcatenatedViterbiRS.decode utils lib
    (ConcatenatedViterbiRS.init rs v_k n rs_k soft) input = Raise e ->
  Viterbi.check_input soft input = Raise e
  \/ Viterbi.decode lib (Viterbi.init v_k soft) input = Raise e
  \/ e = LibraryError.
Proof.
  unfold ConcatenatedViterbiRS.decode.
  cbn [ConcatenatedViterbiRS.init ConcatenatedViterbiRS.soft
       ConcatenatedViterbiRS.viterbi_coder ConcatenatedViterbiRS.rs_coder].
  destruct (Viterbi.check_input soft input) as [[]|e']; cbn [bind].
  2:{ intros H. left. now inversion H. }
  destruct (Viterbi.decode lib (Viterbi.init v_k soft) input)
    as [[p vc]|e']; cbn [bind].
  2:{ intros H. right. left. now inversion H. }
  destruct (ReedSolomon.decode utils (ReedSolomon.init rs n rs_k) p)
    as [[d rc]|e'] eqn:Hr; cbn [bind]; [discriminate|].
  intros H. inversion H; subst e'. right. right.
  exact (reed_solomon_decode_raise _ _ _ Hr).
Qed.

(** C9, as amended.  [Viterbi.decode] and [ConcatenatedViterbiRS.decode]
    raise a validation error exactly when the input is rejected: it has
    the wrong type for the mode, or it is a string with a character that
    [float] does not convert.  The error is one of the three of the type
    checks exactly when the type is wrong.  A rejected input is rejected
    in the head of [decode], before any decoding: the exception is the
    same whatever the imported modules do, and the call has no other
    result. *)
Theorem type_validation (input : pyval) :
  (rejected soft input
   <-> exists e, validation_error e
                 /\ Viterbi.decode lib (Viterbi.init v_k soft) input = Raise e)
  /\ (rejected soft input
      <-> exists e, validation_error e
                    /\ ConcatenatedViterbiRS.decode utils lib
                         (ConcatenatedViterbiRS.init rs v_k n rs_k soft) input
                       = Raise e)
  /\ (wrong_type soft input
      <-> exists e, type_check_error e
                    /\ Viterbi.decode lib (Viterbi.init v_k soft) input = Raise e)
  /\ (wrong_type soft input
      <-> exists e, type_check_error e
                    /\ ConcatenatedViterbiRS.decode utils lib
                         (ConcatenatedViterbiRS.init rs v_k n rs_k soft) input
                       = Raise e)
  /\ (rejected soft input ->
      exists e, Viterbi.read_input soft input = Raise e
                /\ forall utils' lib' rs',
                     Viterbi.decode lib' (Viterbi.init v_k soft) input = Raise e
                     /\ ConcatenatedViterbiRS.decode utils' lib'
                          (ConcatenatedViterbiRS.init rs' v_k n rs_k soft) input
                        = Raise e).
Proof.
  assert (Hvit : forall lib' e,
             Viterbi.read_input soft input = Raise e ->
             Viterbi.decode lib' (Viterbi.init v_k soft) input = Raise e).
  { intros lib' e H. unfold Viterbi.decode.
    cbn [Viterbi.init Viterbi.soft]. now rewrite H. }
  assert (Hconc : forall utils' lib' rs' e,
             Viterbi.read_input soft input = Raise e ->
             ConcatenatedViterbiRS.decode utils' lib'
               (ConcatenatedViterbiRS.init rs' v_k n rs_k soft) input = Raise e).
  { intros utils' lib' rs' e H. unfold ConcatenatedViterbiRS.decode.
    cbn [ConcatenatedViterbiRS.init ConcatenatedViterbiRS.soft
         ConcatenatedViterbiRS.viterbi_coder ConcatenatedViterbiRS.rs_coder].
    destruct (Viterbi.check_input soft input) as [[]|e'] eqn:Hc; cbn [bind].
    - now rewrite (Hvit lib' e H).
    - unfold Viterbi.read_input in H. rewrite Hc in H. cbn [bind] in H.
      now inversion H. }
  assert (Hback : forall e,
             validation_error e ->
             Viterbi.decode lib (Viterbi.init v_k soft) input = Raise e
             \/ ConcatenatedViterbiRS.decode utils lib
                  (ConcatenatedViterbiRS.init rs v_k n rs_k soft) input = Raise e ->
             Viterbi.read_input soft input = Raise e).
  { intros e Hv Hd.
    assert (Hd' : Viterbi.decode lib (Viterbi.init v_k soft) input = Raise e
                  \/ Viterbi.check_input soft input = Raise e).
    { destruct Hd as [Hd|Hd]; [now left|].
      destruct (concatenated_decode_raise _ Hd) as [Hc|[Hvd| ->]];
        [now right|now left|].
      exfalso. destruct Hv as [[E|[E|E]]|E]; discriminate. }
    destruct Hd' as [Hd'|Hc].
    - destruct (@decode_raise _ _ _ _ Hd') as [Hread| ->]; [exact Hread|].
      exfalso. destruct Hv as [[E|[E|E]]|E]; discriminate.
    - unfold Viterbi.read_input. now rewrite Hc. }
  pose proof (read_input_spec soft input) as Hspec.
  destruct (Viterbi.read_input soft input) as [observed|e0] eqn:Hread.
  - assert (Hno : forall e, validation_error e ->
               Viterbi.decode lib (Viterbi.init v_k soft) input = Raise e
               \/ ConcatenatedViterbiRS.decode utils lib
                    (ConcatenatedViterbiRS.init rs v_k n rs_k soft) input = Raise e ->
               False).
    { intros e Hv Hd. specialize (Hback e Hv Hd). discriminate. }
    assert (Hnw : ~ wrong_type soft input) by (intros H; apply Hspec; now left).
    repeat split; try (intros H; contradiction).
    + intros [e [Hv Hd]]. exfalso. apply (Hno e Hv). now left.
    + intros [e [Hv Hd]]. exfalso. apply (Hno e Hv). now right.
    + intros [e [Hv Hd]]. exfalso. apply (Hno e (or_introl Hv)). now left.
    + intros [e [Hv Hd]]. exfalso. apply (Hno e (or_introl Hv)). now right.
  - assert (Hrej : rejected soft input).
    { destruct Hspec as [[Hw _]|[_ [Hn _]]]; [now left|now right]. }
    assert (Hval : validation_error e0).
    { destruct Hspec as [[_ [Ht _]]|[_ [_ Hc]]]; [now left|now right]. }
    assert (Htype : wrong_type soft input <-> type_check_error e0).
    { destruct Hspec as [[Hw [Ht _]]|[Hnw [_ Hc]]]; [tauto|].
      split; [intros H; contradiction|].
      intros [E|[E|E]]; rewrite Hc in E; discriminate. }
    assert (Hsame : forall e,
               validation_error e ->
               Viterbi.decode lib (Viterbi.init v_k soft) input = Raise e
               \/ ConcatenatedViterbiRS.decode utils lib
                    (ConcatenatedViterbiRS.init rs v_k n rs_k soft) input = Raise e ->
               e = e0).
    { intros e Hv Hd. specialize (Hback e Hv Hd). now inversion Hback. }
    split; [|split; [|split; [|split]]].
    + split; [|intros _; exact Hrej].
      intros _. exists e0. split; [exact Hval|now apply Hvit].
    + split; [|intros _; exact Hrej].
      intros _. exists e0. split; [exact Hval|now apply Hconc].
    + split.
      * intros Hw. exists e0. split; [now apply Htype|now apply Hvit].
      * intros [e [Ht Hd]]. apply Htype.
        now rewrite <- (Hsame e (or_introl Ht) (or_introl Hd)).
      + split.
      * intros Hw. exists e0. split; [now apply Htype|now apply Hconc].
      * intros [e [Ht Hd]]. apply Htype.
        now rewrite <- (Hsame e (or_introl Ht) (or_intror Hd)).
    + intros _. exists e0. split; [reflexivity|].
      intros utils' lib' rs'. split; [now apply Hvit|now apply Hconc].
Qed.

End ConcatenatedProperties.

(** ** The trellis decoder on a noise-free hard observation *)

Lemma state_eqb_eq (s1 s2 : ViterbiSpec.state) :
  ViterbiSpec.state_eqb s1 s2 = true <-> s1 = s2.
Proof.
  revert s2. induction s1 as [|b1 s1 IH]; intros [|b2 s2]; simpl;
    try (split; [discriminate|discriminate]); [tauto|].
  rewrite andb_true_iff, IH. split.
  - intros [Hb ->]. apply Bool.eqb_prop in Hb. now subst.
  - intros H. inversion H; subst. split; [apply Bool.eqb_reflx|reflexivity].
Qed.

Lemma in_all_states (s : ViterbiSpec.state) :
  In s (ViterbiSpec.all_states (length s)).
Proof.
  induction s as [|b s IH]; simpl; [now left|].
  apply in_flat_map. exists s. split; [exact IH|].
  destruct b; simpl; tauto.
Qed.

Lemma hamming_zero (e o : bool * bool) :
  ViterbiSpec.hamming e (hard_pair o) = 0 <-> e = o.
Proof.
  destruct e as [[] []], o as [[] []]; vm_compute;
    split; intros H; try reflexivity; try discriminate.
Qed.

Section FirstMin.

Variable A : Type.
Variable key : A -> nat.

Lemma first_min_in (l : list A) (a : A) :
  ViterbiSpec.first_min Nat.ltb key l = Some a -> In a l.
Proof.
  unfold ViterbiSpec.first_min.
  assert (H : forall best,
             fold_left
               (fun best a =>
                  match best with
                  | None => Some a
                  | Some a0 => if key a <? key a0 then Some a else best
                  end) l best = Some a ->
             best = Some a \/ In a l).
  { induction l as [|x l IH]; intros best Hf; simpl in Hf; [now left|].
    destruct (IH _ Hf) as [Hb|Hin]; [|right; now right].
    destruct best as [a0|].
    - destruct (key x <? key a0); [|now left].
      inversion Hb; subst. right. now left.
    - inversion Hb; subst. right. now left. }
  intros Hf. destruct (H None Hf) as [Hb|Hin]; [discriminate|exact Hin].
Qed.

(** The only element of key 0 is the first minimum. *)
Lemma first_min_zero (l : list A) (a : A) :
  In a l -> key a = 0 ->
  (forall a', In a' l -> key a' = 0 -> a' = a) ->
  ViterbiSpec.first_min Nat.ltb key l = Some a.
Proof.
  intros Hin Hk Huniq. unfold ViterbiSpec.first_min.
  assert (H : forall best,
             (forall a', In a' l -> key a' = 0 -> a' = a) ->
             best = Some a
             \/ (In a l /\ (best = None
                            \/ exists a0, best = Some a0 /\ key a0 <> 0)) ->
             fold_left
               (fun best a =>
                  match best with
                  | None => Some a
                  | Some a0 => if key a <? key a0 then Some a else best
                  end) l best = Some a).
  { clear Hin Huniq. induction l as [|x l IH]; intros best Hu Hb; simpl.
    - destruct Hb as [Hb|[[] _]]. exact Hb.
    - apply IH; [intros a' Ha'; apply Hu; now right|].
      destruct Hb as [->|[Hin Hb]].
      + left. rewrite Hk. reflexivity.
      + destruct (Nat.eq_dec (key x) 0) as [Hx|Hx].
        * assert (x = a) by (apply Hu; [now left|exact Hx]). subst x.
          left. destruct Hb as [->|[a0 [-> Ha0]]]; [reflexivity|].
          destruct (Nat.ltb_spec (key a) (key a0)); [reflexivity|lia].
        * right. split.
          -- destruct Hin as [->|Hin]; [contradiction|exact Hin].
          -- right. destruct Hb as [->|[a0 [-> Ha0]]]; [now exists x|].
             destruct (key x <? key a0); [now exists x|now exists a0]. }
  apply H; [exact Huniq|]. right. split; [exact Hin|now left].
Qed.

End FirstMin.

Lemma lookup_tabulate (M : Type) (F : ViterbiSpec.state -> ViterbiSpec.cell M)
      (states : list ViterbiSpec.state) (s : ViterbiSpec.state) :
  In s states ->
  ViterbiSpec.lookup (map (fun d => (d, F d)) states) s = F s.
Proof.
  unfold ViterbiSpec.lookup.
  induction states as [|d states IH]; intros Hin; [destruct Hin|].
  cbn [map find fst].
  destruct (ViterbiSpec.state_eqb d s) eqn:Hd.
  - apply state_eqb_eq in Hd. now subst.
  - apply IH. destruct Hin as [->|Hin]; [|exact Hin].
    assert (ViterbiSpec.state_eqb s s = true) by now apply state_eqb_eq.
    congruence.
Qed.

Lemma length_removelast_cons (A : Type) (x : A) (l : list A) :
  length (removelast (x :: l)) = length l.
Proof.
  revert x. induction l as [|y l IH]; intros x; [reflexivity|].
  change (length (x :: removelast (y :: l)) = length (y :: l)).
  cbn [length]. f_equal. apply IH.
Qed.

Section HardTrellis.

Variable c : ViterbiSpec.code.
Variable K : nat.
Hypothesis Htap : taps_input c K.

Lemma step_distinguishes (s : ViterbiSpec.state) (b b' : bool) :
  snd (ViterbiSpec.step c K s b) = snd (ViterbiSpec.step c K s b') -> b = b'.
Proof.
  unfold ViterbiSpec.step. cbn [snd]. intros H. inversion H as [[H0 H1]].
  unfold taps_input in Htap.
  destruct (ViterbiSpec.g0 c K) as [|t0 g0'], (ViterbiSpec.g1 c K) as [|t1 g1'];
    cbn [hd ViterbiSpec.xor_taps] in *; try discriminate.
  - destruct t1; [|discriminate].
    destruct b, b', (ViterbiSpec.xor_taps g1' s); simpl in H1; congruence.
  - destruct t0; [|discriminate].
    destruct b, b', (ViterbiSpec.xor_taps g0' s); simpl in H0; congruence.
  - destruct t0.
    + destruct b, b', (ViterbiSpec.xor_taps g0' s); simpl in H0; congruence.
    + destruct t1; [|discriminate].
      destruct b, b', (ViterbiSpec.xor_taps g1' s); simpl in H1; congruence.
Qed.

(** Among the transitions of a stage, the one along the path is the only
    one of cumulative metric 0. *)
Lemma candidate_zero (F : ViterbiSpec.state -> ViterbiSpec.cell nat)
      (s s' : ViterbiSpec.state) (x : bool) (out : bool * bool)
      (cd : ViterbiSpec.state * (nat * ViterbiSpec.state * bool)) :
  (forall d m p b, F d = Some (m, p, b) -> m = 0 -> d = s) ->
  ViterbiSpec.step c K s x = (s', out) ->
  In cd (ViterbiSpec.candidates Nat.add ViterbiSpec.hamming c K
           (map (fun d => (d, F d)) (ViterbiSpec.all_states (K - 1)))
           (hard_pair out)) ->
  fst (fst (snd cd)) = 0 ->
  cd = (s', (0, s, x)).
Proof.
  intros Huniq Hstep Hin Hkey.
  unfold ViterbiSpec.candidates in Hin.
  apply in_flat_map in Hin. destruct Hin as [e [He Hcd]].
  apply in_map_iff in He. destruct He as [p [<- _]]. cbn [fst snd] in Hcd.
  destruct (F p) as [[[mp q] qb]|] eqn:HF; [|destruct Hcd].
  apply in_map_iff in Hcd. destruct Hcd as [b [Hcd _]].
  destruct (ViterbiSpec.step c K p b) as [d o] eqn:Hpb.
  subst cd. cbn [fst snd] in Hkey.
  assert (mp = 0) by lia. assert (Ho : ViterbiSpec.hamming o (hard_pair out) = 0) by lia.
  subst mp. apply hamming_zero in Ho. subst o.
  assert (p = s) by (eapply Huniq; [exact HF|reflexivity]). subst p.
  assert (b = x).
  { apply step_distinguishes with (s := s). now rewrite Hpb, Hstep. }
  subst b. rewrite Hstep in Hpb. inversion Hpb; subst. now rewrite Hkey.
Qed.

Lemma candidate_on_path (F : ViterbiSpec.state -> ViterbiSpec.cell nat)
      (s s' p : ViterbiSpec.state) (x b : bool) (out : bool * bool) :
  length s = K - 1 -> F s = Some (0, p, b) ->
  ViterbiSpec.step c K s x = (s', out) ->
  In (s', (0, s, x))
     (ViterbiSpec.candidates Nat.add ViterbiSpec.hamming c K
        (map (fun d => (d, F d)) (ViterbiSpec.all_states (K - 1)))
        (hard_pair out)).
Proof.
  intros Hlen HF Hstep. unfold ViterbiSpec.candidates.
  apply in_flat_map. exists (s, F s). split.
  - apply in_map_iff. exists s. split; [reflexivity|].
    rewrite <- Hlen. apply in_all_states.
  - cbn [fst snd]. rewrite HF. apply in_map_iff. exists x.
    rewrite Hstep. split.
    + replace (ViterbiSpec.hamming out (hard_pair out)) with 0; [reflexivity|].
      symmetry. now apply hamming_zero.
    + destruct x; simpl; tauto.
Qed.

(** One stage keeps the table on the path and records the transition. *)
Lemma stage_on_path (T : ViterbiSpec.table nat) (s s' : ViterbiSpec.state)
      (x : bool) (out : bool * bool) :
  on_path K T s ->
  ViterbiSpec.step c K s x = (s', out) ->
  on_path K (ViterbiSpec.stage Nat.add Nat.ltb ViterbiSpec.hamming c K T
                               (hard_pair out)) s'
  /\ ViterbiSpec.lookup
       (ViterbiSpec.stage Nat.add Nat.ltb ViterbiSpec.hamming c K T (hard_pair out))
       s' = Some (0, s, x).
Proof.
  intros [F [-> [Hlen [[p [b HF]] Huniq]]]] Hstep.
  assert (Hlen' : length s' = K - 1).
  { assert (E : s' = removelast (x :: s))
      by (unfold ViterbiSpec.step in Hstep; congruence).
    now rewrite E, length_removelast_cons. }
  set (cands := ViterbiSpec.candidates Nat.add ViterbiSpec.hamming c K
                  (map (fun d => (d, F d)) (ViterbiSpec.all_states (K - 1)))
                  (hard_pair out)).
  set (F' := fun d =>
               option_map snd
                 (ViterbiSpec.first_min Nat.ltb
                    (fun cd : ViterbiSpec.state * (nat * ViterbiSpec.state * bool) =>
                       fst (fst (snd cd)))
                    (filter (fun cd => ViterbiSpec.state_eqb (fst cd) d) cands))).
  assert (Hs' : F' s' = Some (0, s, x)).
  { unfold F'. rewrite (first_min_zero _ _ (a := (s', (0, s, x)))); [reflexivity|..].
    - apply filter_In. split.
      + eapply candidate_on_path; eassumption.
      + now apply state_eqb_eq.
    - reflexivity.
    - intros cd Hcd Hkey. apply filter_In in Hcd. destruct Hcd as [Hcd _].
      eapply candidate_zero; eassumption. }
  assert (Htab : ViterbiSpec.stage Nat.add Nat.ltb ViterbiSpec.hamming c K
                   (map (fun d => (d, F d)) (ViterbiSpec.all_states (K - 1)))
                   (hard_pair out)
                 = map (fun d => (d, F' d)) (ViterbiSpec.all_states (K - 1)))
    by reflexivity.
  rewrite Htab. split.
  - exists F'. split; [reflexivity|]. split; [exact Hlen'|].
    split; [now exists s, x|].
    intros d m q qb Hd Hm. unfold F' in Hd.
    destruct (ViterbiSpec.first_min _ _ _) as [cd|] eqn:Hmin; [|discriminate].
    cbn [option_map] in Hd. inversion Hd as [Hsnd].
    apply first_min_in in Hmin. apply filter_In in Hmin.
    destruct Hmin as [Hcd Heq]. apply state_eqb_eq in Heq.
    assert (Hkey : fst (fst (snd cd)) = 0) by (rewrite Hsnd; simpl; exact Hm).
    assert (Ecd : cd = (s', (0, s, x)))
      by (eapply candidate_zero; eassumption).
    rewrite Ecd in Heq. now symmetry.
  - rewrite lookup_tabulate; [exact Hs'|].
    rewrite <- Hlen'. apply in_all_states.
Qed.

(** The forward pass over a noise-free observation follows the encoder,
    and the recorded predecessors spell the input bits backwards. *)
Lemma forward_on_path (bits : list bool) :
  forall (T : ViterbiSpec.table nat) (s : ViterbiSpec.state)
         (earlier : list (ViterbiSpec.table nat)),
    on_path K T s ->
    exists T' stages s',
      ViterbiSpec.forward Nat.add Nat.ltb ViterbiSpec.hamming c K T
        (map hard_pair (ViterbiSpec.encode_from c K s bits)) earlier
      = (T', stages)
      /\ on_path K T' s'
      /\ ViterbiSpec.traceback stages s'
         = rev bits ++ ViterbiSpec.traceback earlier s.
Proof.
  induction bits as [|x bits IH]; intros T s earlier HT.
  - exists T, earlier, s. cbn. auto.
  - cbn [ViterbiSpec.encode_from].
    destruct (ViterbiSpec.step c K s x) as [s1 out] eqn:Hstep.
    cbn [map ViterbiSpec.forward].
    destruct (stage_on_path HT Hstep) as [HT1 Hlook].
    destruct (IH _ s1
                 (ViterbiSpec.stage Nat.add Nat.ltb ViterbiSpec.hamming c K T
                                    (hard_pair out) :: earlier) HT1)
      as [T' [stages [s' [Hf [HT' Htb]]]]].
    exists T', stages, s'. split; [exact Hf|]. split; [exact HT'|].
    rewrite Htb. cbn [ViterbiSpec.traceback rev]. rewrite Hlook.
    now rewrite <- app_assoc.
Qed.

Lemma best_final_on_path (T : ViterbiSpec.table nat) (s : ViterbiSpec.state) :
  on_path K T s -> ViterbiSpec.best_final Nat.ltb T = Some s.
Proof.
  intros [F [-> [Hlen [[p [b HF]] Huniq]]]].
  unfold ViterbiSpec.best_final.
  rewrite (first_min_zero _ _ (a := (s, 0))); [reflexivity|..].
  - apply in_flat_map. exists (s, F s). split.
    + apply in_map_iff. exists s. split; [reflexivity|].
      rewrite <- Hlen. apply in_all_states.
    + cbn [fst snd]. rewrite HF. now left.
  - reflexivity.
  - intros [d m] Hin Hm. cbn [snd] in Hm. subst m.
    apply in_flat_map in Hin. destruct Hin as [e [He Hin]].
    apply in_map_iff in He. destruct He as [d0 [<- _]]. cbn [fst snd] in Hin.
    destruct (F d0) as [[[m q] qb]|] eqn:Hd0; [|destruct Hin].
    destruct Hin as [E|[]]. inversion E; subst.
    f_equal. eapply Huniq; [exact Hd0|reflexivity].
Qed.

Lemma stage0_on_path :
  on_path K (ViterbiSpec.stage0 0 K) (ViterbiSpec.zero_state K).
Proof.
  exists (fun d => if ViterbiSpec.state_eqb d (ViterbiSpec.zero_state K)
                   then Some (0, d, false) else None).
  split; [reflexivity|]. split; [apply repeat_length|]. split.
  - exists (ViterbiSpec.zero_state K), false.
    now rewrite (proj2 (state_eqb_eq _ _) eq_refl).
  - intros d m p b Hd _.
    destruct (ViterbiSpec.state_eqb d (ViterbiSpec.zero_state K)) eqn:E;
      [|discriminate].
    now apply state_eqb_eq.
Qed.

(** The trellis search returns the bits of a noise-free hard observation. *)
Lemma trellis_decode_noise_free (bits : list bool) :
  ViterbiSpec.trellis_decode 0 Nat.add Nat.ltb ViterbiSpec.hamming c K
    (map hard_pair
         (ViterbiSpec.encode_from c K (ViterbiSpec.zero_state K) bits))
  = bits.
Proof.
  unfold ViterbiSpec.trellis_decode.
  destruct (forward_on_path bits [] stage0_on_path)
    as [T' [stages [s' [Hf [HT' Htb]]]]].
  rewrite Hf, (best_final_on_path HT'), Htb.
  cbn [ViterbiSpec.traceback]. rewrite app_nil_r. apply rev_involutive.
Qed.

End HardTrellis.

(** ** Viterbi: the round trip through the wrapper *)

Lemma py_str_bit (b : bool) : py_str (Z.b2z b) = [Reference.bit_char b].
Proof. destruct b; reflexivity. Qed.

Lemma py_int_bit (b : bool) : py_int (Reference.bit_char b) = Ok (Z.b2z b).
Proof. destruct b; reflexivity. Qed.

Lemma py_float_bit (b : bool) :
  py_float (Reference.bit_char b) = Ok (inject_Z (Z.b2z b)).
Proof. destruct b; reflexivity. Qed.

Lemma bit_of_int_bit (b : bool) : ViterbiSpec.bit_of_int (Z.b2z b) = b.
Proof. destruct b; reflexivity. Qed.

Lemma length_encode_from (c : ViterbiSpec.code) (K : nat) (bits : list bool) :
  forall s, length (ViterbiSpec.encode_from c K s bits) = length bits.
Proof.
  induction bits as [|b bits IH]; intros s; [reflexivity|].
  cbn [ViterbiSpec.encode_from].
  destruct (ViterbiSpec.step c K s b) as [s' out]. simpl. now rewrite IH.
Qed.

(** The encoded string: two characters per output pair. *)
Lemma encode_fold (outs : list (bool * bool)) (acc : str) :
  fold_left
    (fun encoded_bitstring (el : Z * Z) =>
       (encoded_bitstring ++ py_str (fst el)) ++ py_str (snd el))
    (map (fun o => (Z.b2z (fst o), Z.b2z (snd o))) outs) acc
  = acc ++ flat_map (fun o => [Reference.bit_char (fst o);
                               Reference.bit_char (snd o)]) outs.
Proof.
  revert acc. induction outs as [|o outs IH]; intros acc; cbn [map fold_left flat_map].
  - now rewrite app_nil_r.
  - rewrite IH. cbn [fst snd]. rewrite !py_str_bit, <- !app_assoc. reflexivity.
Qed.

Lemma decode_fold (bits : list bool) (acc : str) :
  fold_left (fun dec_bitstring b => dec_bitstring ++ py_str b)
            (map Z.b2z bits) acc
  = acc ++ map Reference.bit_char bits.
Proof.
  revert acc. induction bits as [|b bits IH]; intros acc; cbn [map fold_left].
  - now rewrite app_nil_r.
  - rewrite IH, py_str_bit, <- app_assoc. reflexivity.
Qed.

(** A hard input string is read as the floats of its output pairs. *)
Lemma read_hard_input (outs : list (bool * bool)) :
  Viterbi.read_input false
    (PyStr (flat_map (fun o => [Reference.bit_char (fst o);
                                Reference.bit_char (snd o)]) outs))
  = Ok (flat_map (fun o => [fst (hard_pair o); snd (hard_pair o)]) outs).
Proof.
  unfold Viterbi.read_input. cbn [Viterbi.check_input is_str negb bind].
  assert (H : mapM py_float
                (flat_map (fun o => [Reference.bit_char (fst o);
                                     Reference.bit_char (snd o)]) outs)
              = Ok (flat_map (fun o => [inject_Z (Z.b2z (fst o));
                                        inject_Z (Z.b2z (snd o))]) outs)).
  { induction outs as [|o outs IH]; [reflexivity|].
    cbn [flat_map app mapM]. rewrite !py_float_bit. cbn [bind].
    now rewrite IH. }
  rewrite H. cbn [bind Viterbi.as_sequence]. f_equal.
  clear H. induction outs as [|o outs IH]; [reflexivity|].
  cbn [flat_map app map hard_pair fst snd]. now rewrite IH.
Qed.

(** Pairing up the observed values gives the output pairs back. *)
Lemma pair_up_from (A : Type) (L : list A) (ps : list (A * A)) :
  forall (pre : list A) (acc : list (A * A)),
    L = pre ++ flat_map (fun p => [fst p; snd p]) ps ->
    for_loop
      (fun input_stream i =>
         a <- py_index L i ;;
         b <- py_index L (i + 1) ;;
         Ok (input_stream ++ [(a, b)]))
      (map (fun j => length pre + j * 2) (seq 0 (length ps))) acc
    = Ok (acc ++ ps).
Proof.
  induction ps as [|[a b] ps IH]; intros pre acc HL.
  - cbn. now rewrite app_nil_r.
  - cbn [length]. rewrite seq_succ_map. cbn [for_loop].
    assert (Ha : py_index L (length pre + 0 * 2) = Ok a).
    { unfold py_index. rewrite HL, nth_error_app2 by lia.
      replace (length pre + 0 * 2 - length pre) with 0 by lia. reflexivity. }
    assert (Hb : py_index L (length pre + 0 * 2 + 1) = Ok b).
    { unfold py_index. rewrite HL, nth_error_app2 by lia.
      replace (length pre + 0 * 2 + 1 - length pre) with 1 by lia. reflexivity. }
    rewrite Ha, Hb. cbn [bind].
    rewrite (map_ext _ (fun j => length (pre ++ [a; b]) + j * 2)).
    2:{ intros j. rewrite length_app. simpl. lia. }
    rewrite (IH (pre ++ [a; b]) (acc ++ [(a, b)])).
    + now rewrite <- app_assoc.
    + rewrite HL. cbn [flat_map fst snd]. now rewrite <- app_assoc.
Qed.

Lemma pair_up (ps : list (pyval * pyval)) :
  Viterbi.pair_observed (flat_map (fun p => [fst p; snd p]) ps) = Ok ps.
Proof.
  unfold Viterbi.pair_observed.
  assert (Hlen : length (flat_map (fun p : pyval * pyval => [fst p; snd p]) ps)
                 = length ps * 2).
  { induction ps as [|p ps IH]; [reflexivity|]. cbn [flat_map app length].
    rewrite IH. lia. }
  rewrite Hlen, py_range_multiple by lia.
  apply pair_up_from with (pre := @nil pyval). reflexivity.
Qed.

Lemma length_flat_pairs (A B : Type) (f g : A -> B) (l : list A) :
  length (flat_map (fun o => [f o; g o]) l) = 2 * length l.
Proof.
  induction l as [|a l IH]; [reflexivity|]. cbn [flat_map app length].
  rewrite IH. lia.
Qed.

(** C2, as amended.  In hard mode, with the convolutional coder of the
    specification whose generators tap the input bit, encoding a bitstring
    and decoding the unmodified result returns the bitstring with the flag
    true, provided the encoded string is at least k long (otherwise
    [decode] takes its failure branch). *)
Theorem viterbi_round_trip (c : ViterbiSpec.code) (v_k : Z) (x : str) :
  is_bitstring x ->
  taps_input c (Z.to_nat v_k) ->
  (v_k <= 2 * Z.of_nat (length x))%Z ->
  exists encoded,
    Viterbi.encode (ViterbiSpec.module c) (Viterbi.init v_k false) x = Ok encoded
    /\ Viterbi.decode (ViterbiSpec.module c) (Viterbi.init v_k false)
                      (PyStr encoded)
       = Ok (x, true).
Proof.
  intros Hx Htap Hk.
  destruct (bitstring_bits Hx) as [bits ->].
  set (outs := ViterbiSpec.encode_from c (Z.to_nat v_k)
                 (ViterbiSpec.zero_state (Z.to_nat v_k)) bits).
  exists (flat_map (fun o => [Reference.bit_char (fst o);
                              Reference.bit_char (snd o)]) outs).
  split.
  - unfold Viterbi.encode.
    rewrite mapM_of_map, (mapM_map _ Z.b2z) by (intros b _; apply py_int_bit).
    cbn [bind Viterbi.init Viterbi.k stream_encoder ViterbiSpec.module].
    unfold ViterbiSpec.stream_encoder.
    rewrite map_map, (map_ext _ (fun b => b)) by apply bit_of_int_bit.
    rewrite map_id. fold outs. now rewrite encode_fold.
  - unfold Viterbi.decode.
    cbn [Viterbi.init Viterbi.k Viterbi.soft].
    rewrite read_hard_input. cbn [bind].
    rewrite length_flat_pairs.
    assert (Hlen : length outs = length bits) by apply length_encode_from.
    rewrite length_map in Hk.
    replace (negb (Z.of_nat (2 * length outs) mod 2 =? 0)%Z
             || (Z.of_nat (2 * length outs) <? v_k)%Z) with false.
    2:{ symmetry. apply orb_false_iff. split.
        - apply negb_false_iff. apply Z.eqb_eq.
          rewrite Nat2Z.inj_mul, Z.mul_comm. apply Z.mod_mul. lia.
        - apply Z.ltb_ge. lia. }
    rewrite <- (length_flat_pairs (fun o => fst (hard_pair o))
                                  (fun o => snd (hard_pair o)) outs).
    pose proof (pair_up (map hard_pair outs)) as Hp.
    rewrite flat_map_concat_map, map_map, <- flat_map_concat_map in Hp.
    rewrite Hp. cbn [bind negb Decoder ViterbiSpec.module].
    unfold ViterbiSpec.Decoder. unfold outs.
    rewrite (trellis_decode_noise_free Htap bits).
    cbn [bind negb]. now rewrite decode_fold.
Qed.

(** ** The theorems on concrete inputs *)

Ltac bitstring :=
  repeat (apply Forall_cons; [first [now left | now right]|]); apply Forall_nil.

(** C1 on the 24-bit message 11010010 00000000 00000000 with the (5, 3)
    coder. *)
Lemma reed_solomon_round_trip_witness :
  exists encoded,
    ReedSolomon.encode Reference.utils (ReedSolomon.init Reference.rs 5 3)
      (Reference.lit "110100100000000000000000") = Ok encoded
    /\ ReedSolomon.decode Reference.utils (ReedSolomon.init Reference.rs 5 3)
         encoded
       = Ok (Reference.lit "110100100000000000000000", true).
Proof.
  apply (@reed_solomon_round_trip Reference.utils
           (ReedSolomon.init Reference.rs 5 3)
           (Reference.lit "110100100000000000000000")).
  - exact reference_utils_ok.
  - apply coder_valid. lia.
  - apply coder_is_systematic. lia.
  - apply coder_decodes_clean_codewords. lia.
  - bitstring.
  - reflexivity.
Defined.

(** C2 fails on short messages: with k = 5 the encoding of 10 has four
    characters, [decode] takes its failure branch and returns the empty
    string with the flag false. *)
Lemma viterbi_round_trip_short :
  exists x encoded,
    is_bitstring x
    /\ Viterbi.encode Reference.viterbi (Viterbi.init 5 false) x = Ok encoded
    /\ Viterbi.decode Reference.viterbi (Viterbi.init 5 false) (PyStr encoded)
       = Ok ([], false)
    /\ Ok ([], false) <> Ok (x, true).
Proof.
  exists (Reference.lit "10"), (Reference.lit "1110").
  split; [bitstring|]. split; [reflexivity|]. split; [reflexivity|].
  discriminate.
Qed.

(** C2 as amended, on the message 1010 with k = 5. *)
Lemma viterbi_round_trip_witness :
  exists encoded,
    Viterbi.encode (ViterbiSpec.module Reference.code) (Viterbi.init 5 false)
      (Reference.lit "1010") = Ok encoded
    /\ Viterbi.decode (ViterbiSpec.module Reference.code) (Viterbi.init 5 false)
         (PyStr encoded)
       = Ok (Reference.lit "1010", true).
Proof.
  apply (@viterbi_round_trip Reference.code 5 (Reference.lit "1010")).
  - bitstring.
  - reflexivity.
  - vm_compute. discriminate.
Defined.

(** C3 fails on an input that is no whole number of codewords.  The
    sixteen bits 0101010011111100 are read as one codeword of two symbols,
    on which the coder raises: [decode] returns the two symbols, 16 bits,
    with the flag false.  That is not k * 8 = 24 bits for the one
    codeword, the length of the output whenever the decode of this
    codeword succeeds with the k symbols of a message. *)
Lemma decode_short_codeword :
  exists bitstring codeword,
    bitstring = Reference.lit "0101010011111100"
    /\ is_bitstring bitstring
    /\ ReedSolomon.bitstring_to_codewords Reference.utils
         (ReedSolomon.init Reference.rs 5 3) bitstring
       = Ok [codeword]
    /\ length codeword = 2
    /\ ReedSolomon.decode Reference.utils (ReedSolomon.init Reference.rs 5 3)
         bitstring
       = Ok (bitstring, false)
    /\ length bitstring = 16
    /\ length bitstring <> 1 * (3 * 8)
    /\ (forall rs message parity,
          coder_decode (new_RSCoder rs 5 3) codeword = Some (message, parity) ->
          length message = 3 ->
          exists decoded,
            ReedSolomon.decode Reference.utils (ReedSolomon.init rs 5 3)
              bitstring
            = Ok (decoded, true)
            /\ length decoded = 1 * (3 * 8)).
Proof.
  exists (Reference.lit "0101010011111100"), ["T"%char; "252"%char].
  split; [reflexivity|]. split; [bitstring|]. split; [reflexivity|].
  split; [reflexivity|]. split; [reflexivity|]. split; [reflexivity|].
  split; [discriminate|].
  intros rs message parity Hd Hlen.
  exists (ascii_to_bitstring Reference.utils message). split.
  - unfold ReedSolomon.decode.
    change (ReedSolomon.bitstring_to_codewords Reference.utils
              (ReedSolomon.init rs 5 3) (Reference.lit "0101010011111100"))
      with (Ok [["T"%char; "252"%char]]).
    cbn [bind for_loop ReedSolomon.init ReedSolomon.coder]. rewrite Hd.
    cbn [bind fst app andb]. reflexivity.
  - rewrite (writes_eight_bits reference_utils_ok), Hlen. reflexivity.
Qed.

(** C3 as amended, on two codewords of the (5, 3) coder, the second with
    its first bit flipped: the coder raises on the second, and the output
    has 2 * 24 bits all the same. *)
Lemma decode_best_effort_witness :
  exists codewords pieces,
    ReedSolomon.bitstring_to_codewords Reference.utils
      (ReedSolomon.init Reference.rs 5 3)
      (Reference.lit
         "11010010000000000000000010011110100000000101001000000000000000001001111010000000")
    = Ok codewords
    /\ ReedSolomon.decode Reference.utils (ReedSolomon.init Reference.rs 5 3)
         (Reference.lit
            "11010010000000000000000010011110100000000101001000000000000000001001111010000000")
       = Ok (concat pieces,
             forallb (codeword_decodes (ReedSolomon.init Reference.rs 5 3))
                     codewords)
    /\ Forall2 (codeword_output Reference.utils (ReedSolomon.init Reference.rs 5 3))
               codewords pieces
    /\ length codewords = 2
    /\ length (concat pieces) = 2 * (3 * 8).
Proof.
  destruct (@decode_best_effort Reference.utils (ReedSolomon.init Reference.rs 5 3)
              (Reference.lit
                 "11010010000000000000000010011110100000000101001000000000000000001001111010000000"))
    as [codewords [pieces [Hcws [Hdec [Hout Hlen]]]]].
  - exact reference_utils_ok.
  - simpl. lia.
  - bitstring.
  - exists codewords, pieces.
    split; [exact Hcws|]. split; [exact Hdec|]. split; [exact Hout|].
    destruct Hlen as [Hn Hl].
    + apply coder_valid. lia.
    + apply coder_returns_k_symbols. lia.
    + reflexivity.
    + rewrite Hl, Hn. split; reflexivity.
Defined.

(** C4 fails below the constraint length: with k = 2 the one-character
    input 0 gives the empty string, whose length 0 is not 1 - 2. *)
Lemma decode_degraded_negative :
  exists input out,
    (forall lib,
       Viterbi.decode lib (Viterbi.init 2 false) (PyStr input) = Ok (out, false))
    /\ (Z.of_nat (length input) mod 2 <> 0)%Z
    /\ (Z.of_nat (length out) <> Z.of_nat (length input) - 2)%Z.
Proof.
  exists (Reference.lit "0"), [].
  split; [intros lib; reflexivity|]. split; vm_compute; discriminate.
Qed.

(** C9 fails on a hard-mode string with a character that is not a digit.
    The input 1a is a string, the right type for hard mode, and yet both
    [decode] methods reject it before any decoding, whatever the imported
    modules: [float] raises its [ValueError] on the character a. *)
Lemma type_validation_non_digit :
  exists input e,
    input = PyStr (Reference.lit "1a")
    /\ ~ wrong_type false input
    /\ validation_error e
    /\ (forall lib v_k,
          Viterbi.decode lib (Viterbi.init v_k false) input = Raise e)
    /\ (forall utils lib rs v_k n rs_k,
          ConcatenatedViterbiRS.decode utils lib
            (ConcatenatedViterbiRS.init rs v_k n rs_k false) input
          = Raise e).
Proof.
  exists (PyStr (Reference.lit "1a")),
         (ValueError "could not convert string to float").
  split; [reflexivity|]. split; [|split; [|split]].
  - intros H. apply H. now eexists.
  - right. reflexivity.
  - intros lib v_k. reflexivity.
  - intros utils lib rs v_k n rs_k. reflexivity.
Qed.

(** C4 as amended, on the seven-character hard input 1110000 with k = 5. *)
Lemma decode_degraded_output_witness :
  exists out,
    (forall lib,
       Viterbi.decode lib (Viterbi.init 5 false)
                      (PyStr (Reference.lit "1110000")) = Ok (out, false))
    /\ Forall (fun c => c = "0"%char) out
    /\ Z.of_nat (length out)
       = Z.max 0 (Z.of_nat (length (map PyFloat [1; 1; 1; 0; 0; 0; 0]%Q))
                  - Viterbi.k (Viterbi.init 5 false)).
Proof.
  apply (@decode_degraded_output (Viterbi.init 5 false)
           (PyStr (Reference.lit "1110000"))
           (map PyFloat [1; 1; 1; 0; 0; 0; 0]%Q)).
  - reflexivity.
  - left. vm_compute. discriminate.
Defined.

(** C8 on the message 11010010 with the (5, 3) coder. *)
Lemma encode_layout_witness :
  exists (symbols : str) (codewords : list str) (encoded : str),
    bitstring_to_ascii Reference.utils (Reference.lit "11010010") = Some symbols
    /\ ReedSolomon.encode Reference.utils (ReedSolomon.init Reference.rs 5 3)
         (Reference.lit "11010010") = Ok encoded
    /\ encoded = concat (map (ascii_to_bitstring Reference.utils) codewords)
    /\ length codewords = (length symbols + 3 - 1) / 3
    /\ Forall
         (fun cw =>
            length cw = 5
            /\ length (firstn 3 cw) = 3
            /\ length (skipn 3 cw) = 5 - 3
            /\ coder_encode (ReedSolomonCodec.coder 5 3) (firstn 3 cw) = Some cw)
         codewords
    /\ concat (map (firstn 3) codewords)
       = symbols ++ repeat zero (length codewords * 3 - length symbols)
    /\ length encoded = length codewords * (5 * 8).
Proof.
  apply (@encode_layout Reference.utils (ReedSolomon.init Reference.rs 5 3)
           (Reference.lit "11010010")).
  - exact reference_utils_ok.
  - apply coder_valid. lia.
  - apply coder_is_systematic. lia.
  - bitstring.
Defined.

(** C10 on the three-character hard input 101 with k = 5. *)
Lemma decode_degraded_empty_witness :
  Viterbi.decode Reference.viterbi (Viterbi.init 5 false)
                 (PyStr (Reference.lit "101")) = Ok ([], false)
  /\ Z.of_nat (length (@nil ascii))
     = Z.max 0 (Z.of_nat (length (map PyFloat [1; 0; 1]%Q))
                - Viterbi.k (Viterbi.init 5 false)).
Proof.
  apply (@decode_degraded_empty (Viterbi.init 5 false) Reference.viterbi
           (PyStr (Reference.lit "101")) (map PyFloat [1; 0; 1]%Q)).
  - reflexivity.
  - left. left. vm_compute. discriminate.
  - vm_compute. discriminate.
Defined.

(** C6: [encode] returns the doubly-encoded string alone, no pair: on
    11010010 with the (5, 3) coder and k = 5, one string of 80
    characters. *)
Theorem concatenated_encode_one_value :
  exists final_encoded,
    ConcatenatedViterbiRS.encode Reference.utils Reference.viterbi
      (ConcatenatedViterbiRS.init Reference.rs 5 5 3 false)
      (Reference.lit "11010010")
    = Ok (PyStr final_encoded)
    /\ length final_encoded = 80
    /\ (exists rs_encoded,
          ReedSolomon.encode Reference.utils (ReedSolomon.init Reference.rs 5 3)
            (Reference.lit "11010010") = Ok rs_encoded
          /\ Viterbi.encode Reference.viterbi (Viterbi.init 5 false) rs_encoded
             = Ok final_encoded
          /\ PyStr final_encoded
             <> PyTuple [PyStr final_encoded; PyStr rs_encoded]).
Proof.
  eexists. split; [vm_compute; reflexivity|]. split; [reflexivity|].
  eexists. split; [vm_compute; reflexivity|]. split; [vm_compute; reflexivity|].
  discriminate.
Qed.

(** C7: [strength] is a true division: for n = 4 and k = 1 it returns the
    float 1.5, where floor((n - k) / 2) is the integer 1. *)
Theorem strength_true_division :
  ReedSolomon.strength (ReedSolomon.init Reference.rs 4 1) = PyFloat (3 # 2)
  /\ ((4 - 1) / 2 = 1)%Z
  /\ PyFloat (3 # 2) <> PyInt 1
  /\ ~ (3 # 2 == inject_Z 1)%Q.
Proof.
  split; [reflexivity|]. split; [reflexivity|]. split; [discriminate|].
  vm_compute. discriminate.
Qed.

(** * Further properties *)

(** ** ReedSolomon: codewords and bitstrings *)

Lemma mapM_app (A B : Type) (f : A -> result B) (l1 l2 : list A) :
  mapM f (l1 ++ l2)
  = (xs <- mapM f l1 ;; ys <- mapM f l2 ;; Ok (xs ++ ys)).
Proof.
  induction l1 as [|a l1 IH]; cbn [app mapM bind].
  - destruct (mapM f l2); reflexivity.
  - destruct (f a) as [b|e]; cbn [bind]; [|reflexivity].
    rewrite IH. destruct (mapM f l1) as [xs|e]; cbn [bind]; [|reflexivity].
    destruct (mapM f l2); reflexivity.
Qed.

Lemma mapM_ext_in (A B : Type) (f g : A -> result B) (l : list A) :
  (forall a, In a l -> f a = g a) -> mapM f l = mapM g l.
Proof.
  induction l as [|a l IH]; intros H; [reflexivity|].
  cbn [mapM]. rewrite (H a (or_introl eq_refl)), IH; [reflexivity|].
  intros a' Ha'. apply H. now right.
Qed.

(** The slices of a loop over [range(0, len(s), c)] make up [s]. *)
Lemma slices_cover (A : Type) (c fuel : nat) (s : list A) :
  0 < c -> length s <= fuel ->
  concat (map (fun j => slice (j * c) (j * c + c) s)
              (seq 0 ((length s + c - 1) / c))) = s.
Proof.
  intros Hc. revert s. induction fuel as [|fuel IH]; intros s Hf.
  - destruct s; [|simpl in Hf; lia].
    simpl. rewrite Nat.div_small by lia. reflexivity.
  - destruct s as [|a s'] eqn:Hs.
    + simpl. rewrite Nat.div_small by lia. reflexivity.
    + rewrite <- Hs in *. assert (Hpos : 0 < length s) by (subst s; simpl; lia).
      rewrite ceil_succ by lia. rewrite seq_succ_map. cbn [concat].
      rewrite (map_ext _ (fun j => slice (j * c) (j * c + c) (skipn c s))).
      2:{ intros j. unfold slice. rewrite skipn_skipn.
          replace (S j * c + c - S j * c) with (j * c + c - j * c) by lia.
          f_equal. f_equal. lia. }
      pose proof (IH (skipn c s)) as IH'. rewrite length_skipn in IH'.
      rewrite IH' by lia.
      unfold slice. cbn [Nat.mul Nat.add skipn]. rewrite Nat.sub_0_r.
      apply firstn_skipn.
Qed.

Lemma length_slice_le (A : Type) (i j : nat) (s : list A) :
  length (slice i j s) <= j - i.
Proof. unfold slice. rewrite length_firstn. lia. Qed.

Lemma length_slice_in (A : Type) (i c : nat) (s : list A) :
  i + c <= length s -> length (slice i (i + c) s) = c.
Proof.
  intros H. unfold slice. rewrite length_firstn, length_skipn. lia.
Qed.

Lemma ceil_bounds (len c : nat) :
  0 < c ->
  len <= (len + c - 1) / c * c < len + c.
Proof.
  intros Hc.
  pose proof (Nat.div_mod_eq (len + c - 1) c).
  pose proof (Nat.mod_upper_bound (len + c - 1) c).
  nia.
Qed.

Section CodewordsAndBitstrings.

Variable utils : bitstring_utils.
Variable self : ReedSolomon.t.

(** X1.  [bitstring_to_codewords] cuts the bitstring into consecutive
    chunks that make up the whole input, ceil(len / (n * 8)) of them, each
    of n * 8 characters except possibly the last, and converts them in
    order: it returns the list of the conversions, or raises when one of
    them does. *)
Theorem codewords_partition (bitstring : str) :
  0 < ReedSolomon.n self ->
  exists chunks,
    concat chunks = bitstring
    /\ length chunks
       = (length bitstring + ReedSolomon.n self * 8 - 1) / (ReedSolomon.n self * 8)
    /\ (forall j, S j < length chunks ->
          length (nth j chunks []) = ReedSolomon.n self * 8)
    /\ Forall (fun chunk => 0 < length chunk <= ReedSolomon.n self * 8) chunks
    /\ ReedSolomon.bitstring_to_codewords utils self bitstring
       = mapM (fun chunk => imported (bitstring_to_ascii utils chunk)) chunks.
Proof.
  intros Hn.
  set (c := ReedSolomon.n self * 8). assert (Hc : 0 < c) by (unfold c; lia).
  set (m := (length bitstring + c - 1) / c).
  exists (map (fun j => slice (j * c) (j * c + c) bitstring) (seq 0 m)).
  pose proof (ceil_bounds (length bitstring) Hc) as Hb. fold m in Hb.
  split; [|split; [|split; [|split]]].
  - apply slices_cover with (fuel := length bitstring); [exact Hc|lia].
  - now rewrite length_map, length_seq.
  - intros j Hj. rewrite length_map, length_seq in Hj.
    rewrite (nth_indep _ [] (slice (0 * c) (0 * c + c) bitstring))
      by (rewrite length_map, length_seq; lia).
    rewrite (map_nth (fun j => slice (j * c) (j * c + c) bitstring)).
    rewrite seq_nth by lia. apply length_slice_in. nia.
  - apply Forall_forall. intros chunk Hin.
    apply in_map_iff in Hin. destruct Hin as [j [<- Hj]]. apply in_seq in Hj.
    split.
    + unfold slice. rewrite length_firstn, length_skipn. nia.
    + pose proof (length_slice_le (j * c) (j * c + c) bitstring). lia.
  - rewrite bitstring_to_codewords_mapM. fold c. unfold py_range. fold m.
    now rewrite !mapM_of_map.
Qed.

(** X2.  Codewords of n symbols each, written as one bitstring by
    [codewords_to_bitstring], are read back by [bitstring_to_codewords] as
    they were. *)
Theorem codewords_round_trip (codewords : list str) :
  utils_ok utils -> 0 < ReedSolomon.n self ->
  Forall (fun cw => length cw = ReedSolomon.n self) codewords ->
  ReedSolomon.bitstring_to_codewords utils self
    (ReedSolomon.codewords_to_bitstring utils codewords) = Ok codewords.
Proof.
  intros U Hn Hall. rewrite codewords_to_bitstring_concat.
  now apply codewords_read_back.
Qed.

(** X3.  A bitstring of whole bytes, cut into codewords by
    [bitstring_to_codewords], is put together again by
    [codewords_to_bitstring], also when its last codeword is short. *)
Theorem bitstring_round_trip (bitstring : str) :
  utils_ok utils -> 0 < ReedSolomon.n self ->
  is_bitstring bitstring -> length bitstring mod 8 = 0 ->
  exists codewords,
    ReedSolomon.bitstring_to_codewords utils self bitstring = Ok codewords
    /\ ReedSolomon.codewords_to_bitstring utils codewords = bitstring.
Proof.
  intros U Hn Hb Hmod.
  set (c := ReedSolomon.n self * 8). assert (Hc : 0 < c) by (unfold c; lia).
  set (m := (length bitstring + c - 1) / c).
  set (chunk := fun j => slice (j * c) (j * c + c) bitstring).
  assert (Hchunk : forall j, exists s,
             bitstring_to_ascii utils (chunk j) = Some s
             /\ ascii_to_bitstring utils s = chunk j).
  { intros j.
    destruct (reads_bits U (is_bitstring_slice (j * c) (j * c + c) Hb))
      as [s [Hs Hback]].
    exists s. split; [exact Hs|]. apply Hback.
    unfold slice. rewrite length_firstn, length_skipn.
    apply Nat.Div0.div_exact in Hmod.
    destruct (Nat.le_gt_cases (j * c + c - j * c) (length bitstring - j * c)).
    - rewrite Nat.min_l by lia. replace (j * c + c - j * c) with c by lia.
      unfold c. apply Nat.Div0.mod_mul.
    - rewrite Nat.min_r by lia. rewrite Hmod. unfold c.
      replace (8 * (length bitstring / 8) - j * (ReedSolomon.n self * 8))
        with ((length bitstring / 8 - j * ReedSolomon.n self) * 8) by lia.
      apply Nat.Div0.mod_mul. }
  destruct (mapM_defined
              (fun j => imported (bitstring_to_ascii utils (chunk j))) (seq 0 m))
    as [cws [Hm HF]].
  { intros j _. destruct (Hchunk j) as [s [Hs _]]. exists s. now rewrite Hs. }
  exists cws. split.
  - rewrite bitstring_to_codewords_mapM. fold c. unfold py_range. fold m.
    rewrite mapM_of_map. exact Hm.
  - rewrite codewords_to_bitstring_concat.
    transitivity (concat (map chunk (seq 0 m))).
    + f_equal. clear Hm. induction HF as [|j cw js cs Hj HF IH]; [reflexivity|].
      cbn [map]. rewrite IH. apply (f_equal (fun x => x :: _)).
      destruct (Hchunk j) as [s [Hs Hback]]. rewrite Hs in Hj.
      inversion Hj; subst. exact Hback.
    + apply slices_cover with (fuel := length bitstring); [exact Hc|lia].
Qed.

End CodewordsAndBitstrings.

(** ** ReedSolomon: decoding block by block *)

Lemma slice_left (A : Type) (i j : nat) (a b : list A) :
  j <= length a -> slice i j (a ++ b) = slice i j a.
Proof.
  intros H. unfold slice. rewrite skipn_app, firstn_app, length_skipn.
  replace (j - i - (length a - i)) with 0 by lia.
  cbn [firstn]. apply app_nil_r.
Qed.

Lemma seq_plus_map (m q : nat) : seq m q = map (fun j => m + j) (seq 0 q).
Proof.
  revert m. induction q as [|q IH]; intros m; [reflexivity|].
  cbn [seq map]. rewrite Nat.add_0_r. f_equal.
  rewrite (IH (S m)), (IH 1), map_map. apply map_ext. intros j. lia.
Qed.

Section BlockDecoding.

Variable utils : bitstring_utils.
Variable self : ReedSolomon.t.

Lemma codeword_output_map (codewords pieces : list str) :
  Forall2 (codeword_output utils self) codewords pieces ->
  pieces
  = map (fun c => ascii_to_bitstring utils (recovered_symbols self c)) codewords.
Proof.
  induction 1 as [|c p cs ps Hcp _ IH]; [reflexivity|].
  cbn [map]. rewrite <- IH. apply (f_equal (fun x => x :: ps)).
  unfold codeword_output in Hcp. unfold recovered_symbols.
  now destruct (coder_decode (ReedSolomon.coder self) c).
Qed.

(** [decode], once the codewords are read. *)
Lemma decode_of_codewords (bitstring : str) (codewords : list str) :
  ReedSolomon.bitstring_to_codewords utils self bitstring = Ok codewords ->
  ReedSolomon.decode utils self bitstring
  = Ok (concat (map (fun c => ascii_to_bitstring utils (recovered_symbols self c))
                    codewords),
        forallb (codeword_decodes self) codewords).
Proof.
  intros H. unfold ReedSolomon.decode. rewrite H. cbn [bind].
  destruct (decode_loop utils self codewords [] true) as [pieces [Hloop Hout]].
  eapply eq_trans; [exact Hloop|].
  now rewrite (codeword_output_map Hout).
Qed.

Lemma decode_raises (bitstring : str) (e : exn) :
  ReedSolomon.bitstring_to_codewords utils self bitstring = Raise e ->
  ReedSolomon.decode utils self bitstring = Raise e.
Proof. intros H. unfold ReedSolomon.decode. now rewrite H. Qed.

(** The codewords of a concatenation that is cut at a codeword boundary. *)
Lemma codewords_app (a b : str) :
  0 < ReedSolomon.n self ->
  length a mod (ReedSolomon.n self * 8) = 0 ->
  ReedSolomon.bitstring_to_codewords utils self (a ++ b)
  = (xs <- ReedSolomon.bitstring_to_codewords utils self a ;;
     ys <- ReedSolomon.bitstring_to_codewords utils self b ;;
     Ok (xs ++ ys)).
Proof.
  intros Hn Hmod. rewrite !bitstring_to_codewords_mapM.
  set (c := ReedSolomon.n self * 8) in *.
  assert (Hc : 0 < c) by (unfold c; lia).
  apply Nat.Div0.div_exact in Hmod.
  set (m := length a / c) in *.
  assert (Ha : length a = m * c) by lia.
  unfold py_range. rewrite length_app, Ha.
  replace (m * c + length b + c - 1) with (m * c + (length b + c - 1)) by lia.
  rewrite Nat.div_add_l by lia.
  replace ((m * c + c - 1) / c) with m
    by (apply Nat.div_unique with (c - 1); lia).
  rewrite seq_app, map_app, mapM_app. cbn [Nat.add].
  rewrite (seq_plus_map m), !map_map, !mapM_of_map.
  rewrite (mapM_ext_in
             (fun j => imported (bitstring_to_ascii utils
                         (slice (j * c) (j * c + c) (a ++ b))))
             (fun j => imported (bitstring_to_ascii utils
                         (slice (j * c) (j * c + c) a)))).
  2:{ intros j Hj. apply in_seq in Hj. rewrite slice_left; [reflexivity|nia]. }
  rewrite (mapM_ext_in
             (fun j => imported (bitstring_to_ascii utils
                         (slice ((m + j) * c) ((m + j) * c + c) (a ++ b))))
             (fun j => imported (bitstring_to_ascii utils
                         (slice (j * c) (j * c + c) b)))).
  2:{ intros j _.
      replace ((m + j) * c) with (length a + j * c) by lia.
      replace (length a + j * c + c) with (length a + (j * c + c)) by lia.
      now rewrite slice_shift. }
  reflexivity.
Qed.

(** X4.  [decode] works block by block: on a concatenation cut at a
    codeword boundary it returns the two decoded bitstrings one after the
    other and the AND of the two flags, and it raises when decoding either
    part raises. *)
Theorem decode_concat (a b : str) :
  0 < ReedSolomon.n self ->
  length a mod (ReedSolomon.n self * 8) = 0 ->
  ReedSolomon.decode utils self (a ++ b)
  = ('(decoded_a, correctable_a) <- ReedSolomon.decode utils self a ;;
     '(decoded_b, correctable_b) <- ReedSolomon.decode utils self b ;;
     Ok (decoded_a ++ decoded_b, correctable_a && correctable_b)).
Proof.
  intros Hn Hmod.
  pose proof (codewords_app a b Hn Hmod) as Happ.
  destruct (ReedSolomon.bitstring_to_codewords utils self a) as [xs|e] eqn:Hxs.
  2:{ cbn [bind] in Happ.
      now rewrite (decode_raises _ Happ), (decode_raises _ Hxs). }
  destruct (ReedSolomon.bitstring_to_codewords utils self b) as [ys|e] eqn:Hys.
  2:{ cbn [bind] in Happ.
      now rewrite (decode_raises _ Happ), (decode_of_codewords _ Hxs),
        (decode_raises _ Hys). }
  cbn [bind] in Happ.
  rewrite (decode_of_codewords _ Happ), (decode_of_codewords _ Hxs),
    (decode_of_codewords _ Hys).
  cbn [bind]. now rewrite map_app, concat_app, forallb_app.
Qed.

End BlockDecoding.

(** ** ReedSolomon: the round trip of any message, and [check] *)

Section PaddedRoundTrip.

Variable utils : bitstring_utils.
Variable self : ReedSolomon.t.

Hypothesis U : utils_ok utils.
Hypothesis Hcfg : valid_config self.
Hypothesis Hsys : coder_systematic self.
Hypothesis Hclean : coder_decodes_clean self.

(** Encoding the symbols read from a bitstring and decoding the result
    gives the symbols back, followed by the padding of the last chunk. *)
Lemma round_trip_symbols (x symbols : str) :
  bitstring_to_ascii utils x = Some symbols ->
  exists codewords,
    Forall (fun cw => length cw = ReedSolomon.n self) codewords
    /\ length codewords
       = (length symbols + ReedSolomon.k self - 1) / ReedSolomon.k self
    /\ ReedSolomon.encode utils self x
       = Ok (concat (map (ascii_to_bitstring utils) codewords))
    /\ ReedSolomon.decode utils self
         (concat (map (ascii_to_bitstring utils) codewords))
       = Ok (ascii_to_bitstring utils
               (symbols ++ repeat zero (padding self (length symbols))),
             true).
Proof.
  intros Hsyms. pose proof Hcfg as Hcfg'. unfold valid_config in Hcfg'.
  destruct (encode_codewords symbols Hcfg Hsys) as [cws [Hm HF]].
  assert (Hin : Forall (fun i => i < length symbols)
                       (py_range (length symbols) (ReedSolomon.k self))).
  { apply Forall_forall. intros i Hi. apply py_range_lt in Hi; lia. }
  assert (Hn : Forall (fun cw => length cw = ReedSolomon.n self) cws).
  { eapply Forall2_right; [exact HF|]. now intros i cw _ [_ [Hl _]]. }
  exists cws. split; [exact Hn|]. split; [|split].
  - apply Forall2_length in HF. unfold py_range in HF.
    now rewrite length_map, length_seq in HF.
  - rewrite encode_mapM, Hsyms. cbn [imported bind]. now rewrite Hm.
  - destruct (decode_loop utils self cws [] true) as [pieces [Hloop Hout]].
    destruct (@decode_clean_codewords utils self symbols _ _ _ Hclean Hin HF Hout)
      as [Hflag Hpieces].
    unfold ReedSolomon.decode. rewrite (@codewords_read_back utils self cws U); [|lia|exact Hn].
    cbn [bind]. eapply eq_trans; [exact Hloop|].
    rewrite Hflag. cbn [app andb]. do 2 f_equal.
    rewrite Hpieces, <- map_map, <- (a2b_concat _ U).
    unfold py_range. rewrite map_map.
    rewrite (@chunks_concat self (length symbols) symbols) by lia.
    reflexivity.
Qed.

(** X5.  For every bitstring of whole bytes, encoding and then decoding
    the unmodified result succeeds with the flag true, and returns the
    message followed by the bits of the zero symbols that padded its last
    chunk: the padding is not removed, so the message comes back alone
    only when its length is a multiple of k * 8. *)
Theorem round_trip_keeps_padding (x : str) :
  is_bitstring x -> length x mod 8 = 0 ->
  exists encoded,
    ReedSolomon.encode utils self x = Ok encoded
    /\ ReedSolomon.decode utils self encoded
       = Ok (x ++ ascii_to_bitstring utils
                    (repeat zero (padding self (length x / 8))),
             true).
Proof.
  intros Hx Hmod.
  destruct (reads_bits U Hx) as [symbols [Hsyms Hback]].
  specialize (Hback Hmod).
  assert (Hlen : length symbols = length x / 8).
  { pose proof (writes_eight_bits U symbols) as Hw. rewrite Hback in Hw.
    rewrite Hw, Nat.mul_comm. symmetry. apply Nat.div_mul. lia. }
  destruct (round_trip_symbols _ Hsyms) as [cws [_ [_ [Henc Hdec]]]].
  exists (concat (map (ascii_to_bitstring utils) cws)).
  split; [exact Henc|].
  rewrite Hdec, (writes_per_symbol U), Hback, Hlen. reflexivity.
Qed.

End PaddedRoundTrip.

Section Check.

Variable utils : bitstring_utils.
Variable self : ReedSolomon.t.

Lemma length_decoded (bitstring decoded : str) (correctable : bool) :
  (forall s, length (ascii_to_bitstring utils s) = 8 * length s) ->
  ReedSolomon.decode utils self bitstring = Ok (decoded, correctable) ->
  length decoded mod 8 = 0.
Proof.
  intros Hw Hd.
  destruct (ReedSolomon.bitstring_to_codewords utils self bitstring)
    as [cws|e] eqn:Hcws.
  2:{ rewrite (decode_raises _ _ _ Hcws) in Hd. discriminate. }
  rewrite (decode_of_codewords _ _ _ Hcws) in Hd. inversion Hd; subst.
  clear - Hw. induction cws as [|c cws IH]; [reflexivity|].
  cbn [map concat]. rewrite length_app, Hw.
  rewrite Nat.add_comm, Nat.mul_comm, Nat.Div0.mod_add. exact IH.
Qed.

Lemma str_eqb_length (s t : str) : length s <> length t -> str_eqb s t = false.
Proof.
  intros H. unfold str_eqb. destruct (list_eq_dec ascii_dec s t); [|reflexivity].
  now subst.
Qed.

(** X6.  The total that [check] prints counts at most two errors, whatever
    the message and whatever was decoded: [zip] pairs the message with the
    pair that [decode] returned, the decoded string and the flag.  A
    message of two characters or more is charged at least one error, also
    on a perfect round trip; when the conversions write eight bits per
    symbol the total is min(len(message), 2). *)
Theorem check_total_errors (test_message_bitstring : str)
        (lines : list (list printed)) :
  ReedSolomon.check utils self test_message_bitstring = Ok lines ->
  exists err,
    nth_error lines 3
    = Some [Text "Total errors: "; Value (PyInt err); Text " bits"]
    /\ (0 <= err <= 2)%Z
    /\ (2 <= length test_message_bitstring -> (1 <= err)%Z)
    /\ ((forall s, length (ascii_to_bitstring utils s) = 8 * length s) ->
        err = Z.of_nat (Nat.min (length test_message_bitstring) 2)).
Proof.
  unfold ReedSolomon.check.
  destruct (ReedSolomon.encode utils self test_message_bitstring)
    as [codewords|e]; cbn [bind]; [|discriminate].
  destruct (ReedSolomon.decode utils self codewords) as [[decoded flag]|e] eqn:Hd;
    cbn [bind]; [|discriminate].
  cbn [fst snd py_zip py_iter bind].
  intros H. inversion H; subst lines. clear H.
  eexists. split; [reflexivity|].
  destruct test_message_bitstring as [|c1 [|c2 rest]];
    cbn [map combine sum_ne fold_left fst snd py_eq py_number length].
  - split; [lia|]. split; [lia|]. intros _. reflexivity.
  - split; [destruct (str_eqb [c1] decoded); simpl; lia|].
    split; [lia|]. intros Hw.
    rewrite str_eqb_length; [reflexivity|].
    pose proof (length_decoded _ Hw Hd) as Hm. intros E.
    rewrite <- E in Hm. discriminate.
  - rewrite combine_nil. cbn [fold_left].
    split; [destruct (str_eqb [c1] decoded); simpl; lia|].
    split; [intros _; destruct (str_eqb [c1] decoded); simpl; lia|].
    intros Hw. rewrite str_eqb_length; [rewrite Nat.min_r by lia; reflexivity|].
    pose proof (length_decoded _ Hw Hd) as Hm. intros E.
    rewrite <- E in Hm. discriminate.
Qed.

End Check.

(** ** Viterbi: what [encode] and [decode] raise and return *)

Lemma is_digit_py_int (c : ascii) :
  (is_digit c = true /\ exists d, digit_of_char c = Some d /\ py_int c = Ok d)
  \/ (is_digit c = false
      /\ py_int c = Raise (ValueError "invalid literal for int() with base 10")).
Proof.
  unfold is_digit, py_int. destruct (digit_of_char c) as [d|].
  - left. split; [reflexivity|]. now exists d.
  - right. split; reflexivity.
Qed.

Lemma is_digit_py_float (c : ascii) :
  (is_digit c = true /\ exists d, py_float c = Ok (inject_Z d))
  \/ (is_digit c = false
      /\ py_float c = Raise (ValueError "could not convert string to float")).
Proof.
  unfold is_digit, py_float. destruct (digit_of_char c) as [d|].
  - left. split; [reflexivity|]. now exists d.
  - right. split; reflexivity.
Qed.

(** A conversion character by character: it returns when every character
    is a digit and raises the conversion's error at the first that is not. *)
Lemma mapM_digits (B : Type) (f : ascii -> result B) (e : exn) (s : str) :
  (forall c, (is_digit c = true /\ exists b, f c = Ok b)
             \/ (is_digit c = false /\ f c = Raise e)) ->
  (forallb is_digit s = true /\ exists l, mapM f s = Ok l)
  \/ (forallb is_digit s = false /\ mapM f s = Raise e).
Proof.
  intros Hf. induction s as [|c s IH]; cbn [forallb mapM].
  - left. split; [reflexivity|]. now exists [].
  - destruct (Hf c) as [[Hc [b Hb]]|[Hc Hb]]; rewrite Hc, Hb; cbn [andb bind].
    + destruct IH as [[Hs [l Hl]]|[Hs Hl]]; rewrite Hs, Hl; cbn [bind].
      * left. split; [reflexivity|]. now eexists.
      * right. split; reflexivity.
    + right. split; reflexivity.
Qed.

Lemma fold_left_pairs (list_output : list (Z * Z)) (acc : str) :
  fold_left
    (fun encoded_bitstring (el : Z * Z) =>
       (encoded_bitstring ++ py_str (fst el)) ++ py_str (snd el))
    list_output acc
  = acc ++ flat_map (fun el => py_str (fst el) ++ py_str (snd el)) list_output.
Proof.
  revert acc. induction list_output as [|el l IH]; intros acc; cbn [fold_left flat_map].
  - now rewrite app_nil_r.
  - rewrite IH, <- !app_assoc. reflexivity.
Qed.

Lemma py_str_bit_value (z : Z) :
  is_bit_value z -> exists c, py_str z = [c] /\ is_bit c.
Proof.
  intros [->| ->].
  - exists "0"%char. split; [reflexivity|now left].
  - exists "1"%char. split; [reflexivity|now right].
Qed.

(** Pairs of bits, written one after the other, make a bitstring of two
    characters per pair. *)
Lemma bit_pairs_written (list_output : list (Z * Z)) :
  Forall (fun el => is_bit_value (fst el) /\ is_bit_value (snd el)) list_output ->
  is_bitstring (flat_map (fun el => py_str (fst el) ++ py_str (snd el)) list_output)
  /\ length (flat_map (fun el => py_str (fst el) ++ py_str (snd el)) list_output)
     = 2 * length list_output.
Proof.
  induction 1 as [|el l [H0 H1] _ [IHb IHl]]; [split; [constructor|reflexivity]|].
  cbn [flat_map].
  destruct (py_str_bit_value H0) as [c0 [-> Hc0]].
  destruct (py_str_bit_value H1) as [c1 [-> Hc1]].
  cbn [app length]. split.
  - constructor; [exact Hc0|]. constructor; [exact Hc1|exact IHb].
  - rewrite IHl. lia.
Qed.

(** [encode] on a string of digits: the library is called on their
    values. *)
Lemma encode_digits (lib : viterbi_module) (self : Viterbi.t) (s : str) :
  forallb is_digit s = true ->
  exists input_stream,
    length input_stream = length s
    /\ Viterbi.encode lib self s
       = Ok (flat_map (fun el => py_str (fst el) ++ py_str (snd el))
                      (stream_encoder lib (Viterbi.k self) input_stream)).
Proof.
  intros Hd.
  destruct (mapM_defined py_int s) as [input_stream [Hm HF]].
  { intros c Hc. rewrite forallb_forall in Hd. specialize (Hd c Hc).
    destruct (is_digit_py_int c) as [[_ [d [_ H]]]|[H _]]; [now exists d|congruence]. }
  exists input_stream. split; [symmetry; exact (Forall2_length HF)|].
  unfold Viterbi.encode. rewrite Hm. cbn [bind]. now rewrite fold_left_pairs.
Qed.

Section ViterbiWrapper.

Variable lib : viterbi_module.
Variable self : Viterbi.t.

(** X7.  [encode] reads each character with [int]: it raises that
    conversion's [ValueError] exactly when some character is not a decimal
    digit, before the library is called.  Digits other than 0 and 1 are
    not rejected: their values are handed to [stream_encoder], and the
    result is its output pairs written one after the other. *)
Theorem encode_reads_digits (input_bitstring : str) :
  (forallb is_digit input_bitstring = true ->
   exists input_stream,
     Forall2 (fun c d => digit_of_char c = Some d) input_bitstring input_stream
     /\ Viterbi.encode lib self input_bitstring
        = Ok (flat_map (fun el => py_str (fst el) ++ py_str (snd el))
                       (stream_encoder lib (Viterbi.k self) input_stream)))
  /\ (forallb is_digit input_bitstring = false ->
      Viterbi.encode lib self input_bitstring
      = Raise (ValueError "invalid literal for int() with base 10")).
Proof.
  unfold Viterbi.encode. split.
  - intros Hd.
    destruct (mapM_defined py_int input_bitstring) as [input_stream [Hm HF]].
    { intros c Hc. rewrite forallb_forall in Hd. specialize (Hd c Hc).
      destruct (is_digit_py_int c) as [[_ [d [_ H]]]|[H _]]; [now exists d|congruence]. }
    exists input_stream. split.
    + clear Hm Hd. induction HF as [|c d cs ds Hcd _ IH]; constructor; [|exact IH].
      unfold py_int in Hcd. destruct (digit_of_char c); [now inversion Hcd|discriminate].
    + rewrite Hm. cbn [bind]. now rewrite fold_left_pairs.
  - intros Hd.
    destruct (@mapM_digits _ py_int
                (ValueError "invalid literal for int() with base 10")
                input_bitstring) as [[H _]|[_ H]].
    + intros c. destruct (is_digit_py_int c) as [[Hc [d [_ H]]]|[Hc H]].
      * left. split; [exact Hc|now exists d].
      * right. split; [exact Hc|exact H].
    + congruence.
    + now rewrite H.
Qed.

(** X8.  When [stream_encoder] yields one pair of bits per input value,
    the encoding of a bitstring is a bitstring twice as long. *)
Theorem encode_doubles_length (input_bitstring : str) :
  emits_bit_pairs lib (Viterbi.k self) ->
  forallb is_digit input_bitstring = true ->
  exists encoded_bitstring,
    Viterbi.encode lib self input_bitstring = Ok encoded_bitstring
    /\ is_bitstring encoded_bitstring
    /\ length encoded_bitstring = 2 * length input_bitstring.
Proof.
  intros Hlib Hd.
  destruct (@encode_digits lib self input_bitstring Hd)
    as [input_stream [Hlen Henc]].
  destruct (Hlib input_stream) as [Hout Hbits].
  destruct (bit_pairs_written Hbits) as [Hb Hl].
  eexists. split; [exact Henc|]. split; [exact Hb|].
  rewrite Hl, Hout, Hlen. reflexivity.
Qed.

End ViterbiWrapper.

Lemma flat_pairs_of (A : Type) (m : nat) (l : list A) :
  length l = 2 * m -> flat_map (fun p => [fst p; snd p]) (pairs_of l) = l.
Proof.
  revert l. induction m as [|m IH]; intros l Hl.
  - destruct l; [reflexivity|discriminate].
  - destruct l as [|a [|b l']]; try (simpl in Hl; lia).
    cbn [pairs_of flat_map fst snd app]. rewrite IH; [reflexivity|].
    simpl in Hl. lia.
Qed.

(** On a sequence of even length the pairing loop of [decode] stays within
    bounds and yields the items two by two. *)
Lemma pair_observed_even (observed : list pyval) :
  (Z.of_nat (length observed) mod 2 = 0)%Z ->
  Viterbi.pair_observed observed = Ok (pairs_of observed).
Proof.
  intros Hmod.
  assert (Hm : exists m, length observed = 2 * m).
  { exists (length observed / 2).
    pose proof (Nat.div_mod_eq (length observed) 2) as Hdm.
    assert (length observed mod 2 = 0).
    { apply Nat2Z.inj. rewrite Nat2Z.inj_mod. exact Hmod. }
    lia. }
  destruct Hm as [m Hm].
  rewrite <- (flat_pairs_of m observed Hm) at 1. apply pair_up.
Qed.

Lemma fold_left_py_str (dec_list : list Z) (acc : str) :
  fold_left (fun dec_bitstring b => dec_bitstring ++ py_str b) dec_list acc
  = acc ++ concat (map py_str dec_list).
Proof. apply fold_left_app_concat. Qed.

(** Reading an input of the right type: only [float] can raise, on a
    hard-mode string with a character that is not a digit. *)
Lemma read_typed_input (soft : bool) (input : pyval) :
  ~ wrong_type soft input ->
  (exists observed,
     Viterbi.read_input soft input = Ok observed
     /\ forall s, input = PyStr s -> forallb is_digit s = true)
  \/ (exists s,
        input = PyStr s /\ soft = false /\ forallb is_digit s = false
        /\ Viterbi.read_input soft input
           = Raise (ValueError "could not convert string to float")).
Proof.
  intros Htype.
  destruct (check_input_spec soft input)
    as [[Hcheck _]|[e [_ [_ Hw]]]]; [|contradiction].
  destruct input as [s|x|z|b|l|l|];
    try (exfalso; apply Htype; unfold wrong_type;
         destruct soft; [intros [l' [E _]]|intros [s' E]]; discriminate).
  - destruct (@mapM_digits _ py_float
                (ValueError "could not convert string to float") s)
      as [[Hs [fl Hfl]]|[Hs Hfl]].
    + intros c. destruct (is_digit_py_float c) as [[Hc [d H]]|[Hc H]].
      * left. split; [exact Hc|exists (inject_Z d); exact H].
      * right. split; [exact Hc|exact H].
    + left. exists (map PyFloat fl). split.
      * unfold Viterbi.read_input. rewrite Hcheck. cbn [bind].
        rewrite Hfl. reflexivity.
      * intros s' E. now inversion E; subst s'.
    + right. exists s.
      destruct soft.
      { exfalso. apply Htype. unfold wrong_type.
        intros [l [E _]]. discriminate. }
      split; [reflexivity|]. split; [reflexivity|]. split; [exact Hs|].
      unfold Viterbi.read_input.
      cbn [Viterbi.check_input is_str negb bind]. now rewrite Hfl.
  - left. exists l. split.
    + unfold Viterbi.read_input. rewrite Hcheck. reflexivity.
    + intros s E. discriminate.
Qed.

Section ViterbiDecode.

Variable lib : viterbi_module.
Variable self : Viterbi.t.

Lemma structurally_invalid_test (observed : list pyval) :
  (negb (Z.of_nat (length observed) mod 2 =? 0)%Z
   || (Z.of_nat (length observed) <? Viterbi.k self)%Z = true
   /\ structurally_invalid self observed)
  \/ (negb (Z.of_nat (length observed) mod 2 =? 0)%Z
      || (Z.of_nat (length observed) <? Viterbi.k self)%Z = false
      /\ ~ structurally_invalid self observed
      /\ (Z.of_nat (length observed) mod 2 = 0)%Z).
Proof.
  unfold structurally_invalid.
  destruct (Z.eqb_spec (Z.of_nat (length observed) mod 2) 0) as [He|He];
    destruct (Z.ltb_spec (Z.of_nat (length observed)) (Viterbi.k self)) as [Hl|Hl];
    cbn [negb orb]; try (left; split; [reflexivity|lia]).
  right. split; [reflexivity|]. split; [lia|exact He].
Qed.

(** [decode] past its head: the two branches. *)
Lemma decode_branches (input : pyval) (observed : list pyval) :
  Viterbi.read_input (Viterbi.soft self) input = Ok observed ->
  (decoding_fails lib self observed
   /\ Viterbi.decode lib self input
      = Ok (str_mul "0" (Z.of_nat (length observed) - Viterbi.k self), false))
  \/ (exists dec_list,
        ~ structurally_invalid self observed
        /\ Decoder lib (Viterbi.k self) (pairs_of observed)
                   (negb (Viterbi.soft self)) = Some dec_list
        /\ Viterbi.decode lib self input
           = Ok (concat (map py_str dec_list), true)).
Proof.
  intros Hread.
  destruct (structurally_invalid_test observed) as [[Ht Hinv]|[Ht [Hval Heven]]].
  - left. split; [now left|]. now apply decode_invalid.
  - pose proof (pair_observed_even observed Heven) as Hpairs.
    destruct (Decoder lib (Viterbi.k self) (pairs_of observed)
                      (negb (Viterbi.soft self))) as [dec_list|] eqn:Hdec.
    + right. exists dec_list. split; [exact Hval|]. split; [reflexivity|].
      unfold Viterbi.decode. rewrite Hread. cbn [bind]. rewrite Ht, Hpairs.
      cbn [bind]. rewrite Hdec. cbn [bind negb].
      now rewrite fold_left_py_str.
    + left. split.
      * right. exists (pairs_of observed). split; [exact Hpairs|exact Hdec].
      * now apply decode_decoder_raised with (input_stream := pairs_of observed).
Qed.

(** X9.  What [decode] returns.  The flag is true exactly when the input
    is read, its length is even and at least k, and the library's decoder
    returns on the values taken two by two; the bitstring is then the
    decoder's values written one after the other.  The flag is false
    exactly when the length is odd or below k, or the library's decoder
    raised; the bitstring is then len(input) - k times the character 0,
    whatever the number of message bits. *)
Theorem decode_outcome (input : pyval) (out : str) :
  (Viterbi.decode lib self input = Ok (out, true)
   <-> exists observed dec_list,
         Viterbi.read_input (Viterbi.soft self) input = Ok observed
         /\ ~ structurally_invalid self observed
         /\ Decoder lib (Viterbi.k self) (pairs_of observed)
                    (negb (Viterbi.soft self)) = Some dec_list
         /\ out = concat (map py_str dec_list))
  /\ (Viterbi.decode lib self input = Ok (out, false)
      <-> exists observed,
            Viterbi.read_input (Viterbi.soft self) input = Ok observed
            /\ decoding_fails lib self observed
            /\ out = str_mul "0" (Z.of_nat (length observed) - Viterbi.k self)).
Proof.
  destruct (Viterbi.read_input (Viterbi.soft self) input) as [observed|e] eqn:Hread.
  2:{ assert (Hd : Viterbi.decode lib self input = Raise e)
        by (unfold Viterbi.decode; now rewrite Hread).
      rewrite Hd. split; (split; [discriminate|]).
      - intros [o [d [H _]]]. discriminate.
      - intros [o [H _]]. discriminate. }
  destruct (decode_branches input Hread)
    as [[Hfail Hd]|[dec_list [Hval [Hdec Hd]]]]; rewrite Hd; split; split.
  - discriminate.
  - intros [o [d [Ho [Hv [Hdec _]]]]]. inversion Ho; subst o. exfalso.
    destruct Hfail as [Hinv|[stream [Hp HN]]]; [now apply Hv|].
    destruct (structurally_invalid_test observed) as [[_ Hinv]|[_ [_ Heven]]];
      [now apply Hv|].
    rewrite (pair_observed_even observed Heven) in Hp. inversion Hp; subst stream.
    congruence.
  - intros H. inversion H; subst out. now exists observed.
  - intros [o [Ho [_ ->]]]. now inversion Ho; subst o.
  - intros H. inversion H; subst out. now exists observed, dec_list.
  - intros [o [d [Ho [_ [Hdec' ->]]]]]. inversion Ho; subst o.
    rewrite Hdec in Hdec'. now inversion Hdec'.
  - discriminate.
  - intros [o [Ho [Hfail _]]]. inversion Ho; subst o. exfalso.
    destruct Hfail as [Hinv|[stream [Hp HN]]]; [now apply Hval|].
    destruct (structurally_invalid_test observed) as [[_ Hinv]|[_ [_ Heven]]];
      [now apply Hval|].
    rewrite (pair_observed_even observed Heven) in Hp. inversion Hp; subst stream.
    congruence.
Qed.

(** X10.  On an input of the right type [decode] returns a bitstring and a
    flag, with one exception: in hard mode a string with a character that
    is not a decimal digit makes [float] raise its [ValueError].  Digits
    other than 0 and 1 are accepted. *)
Theorem decode_on_typed_input (input : pyval) :
  ~ wrong_type (Viterbi.soft self) input ->
  (exists s, input = PyStr s /\ Viterbi.soft self = false
             /\ forallb is_digit s = false
             /\ Viterbi.decode lib self input
                = Raise (ValueError "could not convert string to float"))
  \/ (exists out correctable,
        Viterbi.decode lib self input = Ok (out, correctable)
        /\ forall s, input = PyStr s -> forallb is_digit s = true).
Proof.
  intros Htype.
  destruct (@read_typed_input _ _ Htype)
    as [[observed [Hread Hdigits]]|[s [E [Hsoft [Hs Hread]]]]].
  - right.
    destruct (decode_branches input Hread) as [[_ H]|[d [_ [_ H]]]];
      rewrite H; eexists _, _; (split; [reflexivity|exact Hdigits]).
  - left. exists s. split; [exact E|]. split; [exact Hsoft|]. split; [exact Hs|].
    unfold Viterbi.decode. now rewrite Hread.
Qed.

End ViterbiDecode.

(** ** ConcatenatedViterbiRS: the two layers together *)

(** The Viterbi wrapper's round trip, for any library that decodes a
    noise-free observation. *)
Lemma viterbi_wrapper_round_trip (lib : viterbi_module) (v_k : Z) (x : str) :
  decodes_noise_free lib v_k ->
  is_bitstring x ->
  (v_k <= 2 * Z.of_nat (length x))%Z ->
  exists encoded,
    Viterbi.encode lib (Viterbi.init v_k false) x = Ok encoded
    /\ length encoded = 2 * length x
    /\ Viterbi.decode lib (Viterbi.init v_k false) (PyStr encoded) = Ok (x, true).
Proof.
  intros Hlib Hx Hk.
  destruct (bitstring_bits Hx) as [bits ->].
  destruct (Hlib bits) as [outs [Henc [Hlen Hdec]]].
  exists (flat_map (fun o => [Reference.bit_char (fst o);
                              Reference.bit_char (snd o)]) outs).
  rewrite length_map in Hk |- *.
  split; [|split].
  - unfold Viterbi.encode.
    rewrite mapM_of_map, (mapM_map _ Z.b2z) by (intros b _; apply py_int_bit).
    cbn [bind Viterbi.init Viterbi.k]. rewrite Henc. now rewrite encode_fold.
  - now rewrite length_flat_pairs, Hlen.
  - unfold Viterbi.decode.
    cbn [Viterbi.init Viterbi.k Viterbi.soft].
    rewrite read_hard_input. cbn [bind].
    rewrite length_flat_pairs.
    replace (negb (Z.of_nat (2 * length outs) mod 2 =? 0)%Z
             || (Z.of_nat (2 * length outs) <? v_k)%Z) with false.
    2:{ symmetry. apply orb_false_iff. split.
        - apply negb_false_iff. apply Z.eqb_eq.
          rewrite Nat2Z.inj_mul, Z.mul_comm. apply Z.mod_mul. lia.
        - apply Z.ltb_ge. lia. }
    pose proof (pair_up (map hard_pair outs)) as Hp.
    rewrite flat_map_concat_map, map_map, <- flat_map_concat_map in Hp.
    rewrite Hp. cbn [bind negb]. rewrite Hdec.
    cbn [bind negb]. now rewrite decode_fold.
Qed.

Lemma is_bitstring_concat (l : list str) :
  Forall is_bitstring l -> is_bitstring (concat l).
Proof.
  induction 1 as [|s l Hs _ IH]; [constructor|].
  cbn [concat]. apply Forall_app. now split.
Qed.

Lemma is_bitstring_digits (s : str) : is_bitstring s -> forallb is_digit s = true.
Proof.
  intros H. apply forallb_forall. intros c Hc.
  destruct (proj1 (Forall_forall _ _) H c Hc) as [-> | ->]; reflexivity.
Qed.

Section Concatenated.

Variable utils : bitstring_utils.
Variable lib : viterbi_module.
Variable rs : unireedsolomon.
Variable v_k : Z.
Variables n rs_k : nat.

Hypothesis U : utils_ok utils.
Hypothesis W : writes_bits utils.

(** The two layers on a clean run: what each of them returns. *)
Lemma concatenated_pipeline (x : str) :
  valid_config (ReedSolomon.init rs n rs_k) ->
  coder_systematic (ReedSolomon.init rs n rs_k) ->
  coder_decodes_clean (ReedSolomon.init rs n rs_k) ->
  decodes_noise_free lib v_k ->
  (v_k <= 16 * Z.of_nat n)%Z ->
  is_bitstring x -> length x mod 8 = 0 -> 0 < length x ->
  exists rs_encoded final_encoded,
    ReedSolomon.encode utils (ReedSolomon.init rs n rs_k) x = Ok rs_encoded
    /\ Viterbi.encode lib (Viterbi.init v_k false) rs_encoded = Ok final_encoded
    /\ Viterbi.decode lib (Viterbi.init v_k false) (PyStr final_encoded)
       = Ok (rs_encoded, true)
    /\ ReedSolomon.decode utils (ReedSolomon.init rs n rs_k) rs_encoded
       = Ok (x ++ ascii_to_bitstring utils
                    (repeat zero
                       (padding (ReedSolomon.init rs n rs_k) (length x / 8))),
             true).
Proof.
  intros Hcfg Hsys Hclean Hlib Hvk Hx Hmod Hpos.
  set (self := ReedSolomon.init rs n rs_k) in *.
  destruct (reads_bits U Hx) as [symbols [Hsyms Hback]].
  specialize (Hback Hmod).
  assert (Hlen : length symbols = length x / 8).
  { pose proof (writes_eight_bits U symbols) as Hw. rewrite Hback in Hw.
    rewrite Hw, Nat.mul_comm. symmetry. apply Nat.div_mul. lia. }
  destruct (round_trip_symbols U Hcfg Hsys Hclean _ Hsyms)
    as [cws [Hn [Hcount [Henc Hdec]]]].
  set (rs_encoded := concat (map (ascii_to_bitstring utils) cws)) in *.
  assert (Hbits : is_bitstring rs_encoded).
  { apply is_bitstring_concat, Forall_map, Forall_forall. intros cw _. apply W. }
  assert (Hsize : length rs_encoded = length cws * (n * 8)).
  { unfold rs_encoded.
    rewrite (@length_concat_uniform _ (n * 8)), length_map; [reflexivity|].
    apply Forall_map. eapply Forall_impl; [|exact Hn]. intros cw Hcw.
    cbn beta in *. rewrite (writes_eight_bits U). unfold self in Hcw.
    cbn in Hcw. lia. }
  assert (Hcws : 0 < length cws).
  { rewrite Hcount. unfold valid_config in Hcfg. cbn in Hcfg.
    assert (0 < length symbols).
    { pose proof (writes_eight_bits U symbols) as Hw. rewrite Hback in Hw. lia. }
    cbn [self ReedSolomon.init ReedSolomon.k].
    apply Nat.div_str_pos. lia. }
  destruct (@viterbi_wrapper_round_trip lib v_k rs_encoded Hlib Hbits)
    as [final [Hvenc [_ Hvdec]]]; [nia|].
  exists rs_encoded, final.
  split; [exact Henc|]. split; [exact Hvenc|]. split; [exact Hvdec|].
  now rewrite Hdec, (writes_per_symbol U), Hback, Hlen.
Qed.

(** X11.  The concatenated round trip in hard mode.  When the two
    libraries meet their contracts, a non-empty message of whole bytes
    that is encoded and then decoded unmodified comes back with the flag
    true, followed by the bits of the zero symbols that padded its last
    Reed-Solomon chunk.  The Viterbi layer needs an observation of at
    least [v_k] values, which one codeword provides when
    [v_k <= 16 * n]. *)
Theorem concatenated_round_trip (x : str) :
  valid_config (ReedSolomon.init rs n rs_k) ->
  coder_systematic (ReedSolomon.init rs n rs_k) ->
  coder_decodes_clean (ReedSolomon.init rs n rs_k) ->
  decodes_noise_free lib v_k ->
  (v_k <= 16 * Z.of_nat n)%Z ->
  is_bitstring x -> length x mod 8 = 0 -> 0 < length x ->
  exists final_encoded,
    ConcatenatedViterbiRS.encode utils lib
      (ConcatenatedViterbiRS.init rs v_k n rs_k false) x
    = Ok (PyStr final_encoded)
    /\ ConcatenatedViterbiRS.decode utils lib
         (ConcatenatedViterbiRS.init rs v_k n rs_k false) (PyStr final_encoded)
       = Ok (x ++ ascii_to_bitstring utils
                    (repeat zero
                       (padding (ReedSolomon.init rs n rs_k) (length x / 8))),
             true).
Proof.
  intros Hcfg Hsys Hclean Hlib Hvk Hx Hmod Hpos.
  destruct (concatenated_pipeline Hcfg Hsys Hclean Hlib Hvk Hx Hmod Hpos)
    as [rs_encoded [final [Henc [Hvenc [Hvdec Hdec]]]]].
  exists final. split.
  - unfold ConcatenatedViterbiRS.encode.
    cbn [ConcatenatedViterbiRS.init ConcatenatedViterbiRS.rs_coder
         ConcatenatedViterbiRS.viterbi_coder].
    rewrite Henc. cbn [bind]. now rewrite Hvenc.
  - unfold ConcatenatedViterbiRS.decode.
    cbn [ConcatenatedViterbiRS.init ConcatenatedViterbiRS.rs_coder
         ConcatenatedViterbiRS.viterbi_coder ConcatenatedViterbiRS.soft
         Viterbi.check_input is_str negb bind].
    rewrite Hvdec. cbn [bind]. now rewrite Hdec.
Qed.

(** X12.  The size of a concatenated encoding.  When [stream_encoder]
    yields one pair of bits per input value, [encode] returns a bitstring
    of 16 * n characters per Reed-Solomon codeword, one codeword per k
    bytes of the message (the last one padded). *)
Theorem concatenated_encode_size (soft : bool) (x : str) :
  valid_config (ReedSolomon.init rs n rs_k) ->
  coder_systematic (ReedSolomon.init rs n rs_k) ->
  emits_bit_pairs lib v_k ->
  is_bitstring x -> length x mod 8 = 0 ->
  exists final_encoded,
    ConcatenatedViterbiRS.encode utils lib
      (ConcatenatedViterbiRS.init rs v_k n rs_k soft) x
    = Ok (PyStr final_encoded)
    /\ is_bitstring final_encoded
    /\ length final_encoded
       = (length x / 8 + rs_k - 1) / rs_k * (16 * n).
Proof.
  intros Hcfg Hsys Hlib Hx Hmod.
  set (self := ReedSolomon.init rs n rs_k) in *.
  destruct (reads_bits U Hx) as [symbols [Hsyms Hback]].
  specialize (Hback Hmod).
  assert (Hlen : length symbols = length x / 8).
  { pose proof (writes_eight_bits U symbols) as Hw. rewrite Hback in Hw.
    rewrite Hw, Nat.mul_comm. symmetry. apply Nat.div_mul. lia. }
  destruct (encode_codewords symbols Hcfg Hsys) as [cws [Hm HF]].
  set (rs_encoded := concat (map (ascii_to_bitstring utils) cws)).
  assert (Henc : ReedSolomon.encode utils self x = Ok rs_encoded).
  { rewrite encode_mapM, Hsyms. cbn [imported bind]. now rewrite Hm. }
  assert (Hbits : is_bitstring rs_encoded).
  { apply is_bitstring_concat, Forall_map, Forall_forall. intros cw _. apply W. }
  assert (Hsize : length rs_encoded = length cws * (n * 8)).
  { unfold rs_encoded.
    rewrite (@length_concat_uniform _ (n * 8)), length_map; [reflexivity|].
    apply Forall_map. eapply Forall2_right; [exact HF|].
    intros i cw _ [_ [Hcw _]]. cbn beta.
    rewrite (writes_eight_bits U). unfold self in Hcw. cbn in Hcw. lia. }
  assert (Hcount : length cws = (length x / 8 + rs_k - 1) / rs_k).
  { apply Forall2_length in HF. unfold py_range in HF.
    rewrite length_map, length_seq in HF. rewrite <- HF, Hlen. reflexivity. }
  destruct (@encode_digits lib (Viterbi.init v_k soft) rs_encoded
              (is_bitstring_digits Hbits)) as [input_stream [Hin Hvenc]].
  destruct (Hlib input_stream) as [Hout Hpairs].
  destruct (bit_pairs_written Hpairs) as [Hfb Hfl].
  eexists. split; [|split; [exact Hfb|]].
  - unfold ConcatenatedViterbiRS.encode.
    cbn [ConcatenatedViterbiRS.init ConcatenatedViterbiRS.rs_coder
         ConcatenatedViterbiRS.viterbi_coder].
    fold self. rewrite Henc. cbn [bind]. now rewrite Hvenc.
  - rewrite Hfl, Hout, Hin, Hsize, Hcount. lia.
Qed.

(** X13.  [ConcatenatedViterbiRS.decode] returns on every input of the
    right type whose characters, if it is a string, are digits: the
    degraded output of the Viterbi layer and the bits its decoder returns
    are bitstrings, which the Reed-Solomon layer always decodes. *)
Theorem concatenated_decode_returns (soft : bool) (input : pyval) :
  0 < n ->
  decodes_to_bits lib v_k ->
  ~ wrong_type soft input ->
  (forall s, input = PyStr s -> forallb is_digit s = true) ->
  exists decoded correctable,
    ConcatenatedViterbiRS.decode utils lib
      (ConcatenatedViterbiRS.init rs v_k n rs_k soft) input
    = Ok (decoded, correctable).
Proof.
  intros Hn Hlib Htype Hdigits.
  destruct (check_input_spec soft input)
    as [[Hcheck _]|[e [_ [_ Hw]]]]; [|contradiction].
  destruct (@read_typed_input _ _ Htype)
    as [[observed [Hread _]]|[s [E [_ [Hs _]]]]].
  2:{ rewrite (Hdigits s E) in Hs. discriminate. }
  assert (Hv : exists out flag,
             Viterbi.decode lib (Viterbi.init v_k soft) input = Ok (out, flag)
             /\ is_bitstring out).
  { destruct (@decode_branches lib (Viterbi.init v_k soft) input observed Hread)
      as [[_ H]|[d [_ [Hd H]]]]; rewrite H; eexists _, _; (split; [reflexivity|]).
    - unfold str_mul. apply Forall_forall. intros c Hc.
      apply repeat_spec in Hc. now left.
    - apply is_bitstring_concat, Forall_map.
      eapply Forall_impl; [|exact (Hlib _ _ _ Hd)].
      intros z Hz. destruct (py_str_bit_value Hz) as [c [-> Hc]].
      now constructor. }
  destruct Hv as [out [flag [Hv Hout]]].
  destruct (@codewords_of_bitstring utils (ReedSolomon.init rs n rs_k) out U Hn Hout)
    as [cws [Hcws _]].
  eexists _, _. unfold ConcatenatedViterbiRS.decode.
  cbn [ConcatenatedViterbiRS.init ConcatenatedViterbiRS.rs_coder
       ConcatenatedViterbiRS.viterbi_coder ConcatenatedViterbiRS.soft].
  rewrite Hcheck. cbn [bind]. rewrite Hv. cbn [bind].
  rewrite (decode_of_codewords _ _ _ Hcws). cbn [bind]. reflexivity.
Qed.

End Concatenated.

(** ** The simulators: noise *)

Lemma differences_prefix (s t : str) : differences s (s ++ t) = 0%Z.
Proof.
  induction s as [|c s IH]; [reflexivity|].
  cbn [differences app]. rewrite Ascii.eqb_refl, IH. reflexivity.
Qed.

Lemma differences_bounds (a b : str) :
  (0 <= differences a b <= Z.of_nat (Nat.min (length a) (length b)))%Z.
Proof.
  revert b. induction a as [|x a IH]; intros b; [simpl; lia|].
  destruct b as [|y b]; [simpl; lia|].
  cbn [differences length Nat.min]. specialize (IH b).
  destruct (Ascii.eqb x y); lia.
Qed.

Lemma flipped_differs (c : ascii) : Ascii.eqb c (flipped c) = false.
Proof.
  unfold flipped. destruct (Ascii.eqb c "1") eqn:E.
  - apply Ascii.eqb_eq in E. now subst.
  - exact E.
Qed.

Lemma flipped_is_bit (c : ascii) : is_bit (flipped c).
Proof. unfold flipped. destruct (Ascii.eqb c "1"); [now left|now right]. Qed.

Section HardNoise.

Variable rng : Type.
Variable random : random_module rng.
Variable float_mul : Q -> Q -> Q.

(** The loop of [noise_bitstring], from any state of its three variables:
    each character is kept or flipped, and every flip is counted. *)
Lemma noise_loop (flip_probability : Q) (s : str) :
  forall (acc : str) (count : Z) (g : rng),
    exists out g',
      fold_left
        (fun (st : (str * Z) * rng) i =>
           let '((noised_payload, num_bit_flips), g) := st in
           let '(d, g) := randint random 0 100 g in
           if HardDecodingNoisyChannelSimulator.below
                d (float_mul flip_probability 100) then
             let num_bit_flips := (num_bit_flips + 1)%Z in
             if Ascii.eqb i "1" then
               ((noised_payload ++ ["0"%char], num_bit_flips), g)
             else ((noised_payload ++ ["1"%char], num_bit_flips), g)
           else ((noised_payload ++ [i], num_bit_flips), g))
        s ((acc, count), g)
      = ((acc ++ out, (count + differences s out)%Z), g')
      /\ Forall2 (fun c c' => c' = c \/ c' = flipped c) s out.
Proof.
  match goal with |- context [fold_left ?b _ _] => set (body := b) end.
  assert (Hstep : forall acc count g c,
             body ((acc, count), g) c
             = (if HardDecodingNoisyChannelSimulator.below
                     (fst (randint random 0 100 g))
                     (float_mul flip_probability 100)
                then ((acc ++ [flipped c], (count + 1)%Z),
                      snd (randint random 0 100 g))
                else ((acc ++ [c], count), snd (randint random 0 100 g)))).
  { intros acc count g c. unfold body, flipped.
    destruct (randint random 0 100 g) as [d g1]. cbn [fst snd].
    destruct (HardDecodingNoisyChannelSimulator.below _ _); [|reflexivity].
    now destruct (Ascii.eqb c "1"). }
  induction s as [|c s IH]; intros acc count g.
  - exists [], g. cbn. rewrite app_nil_r, Z.add_0_r. split; [reflexivity|constructor].
  - cbn [fold_left]. rewrite Hstep.
    destruct (HardDecodingNoisyChannelSimulator.below _ _); cbv iota.
    + destruct (IH (acc ++ [flipped c]) (count + 1)%Z
                   (snd (randint random 0 100 g))) as [out [g' [Hf HF]]].
      exists (flipped c :: out), g'. split.
      * eapply eq_trans; [exact Hf|]. rewrite <- app_assoc.
        cbn [app differences]. rewrite flipped_differs. do 2 f_equal. lia.
      * constructor; [now right|exact HF].
    + destruct (IH (acc ++ [c]) count (snd (randint random 0 100 g)))
        as [out [g' [Hf HF]]].
      exists (c :: out), g'. split.
      * eapply eq_trans; [exact Hf|]. rewrite <- app_assoc.
        cbn [app differences]. rewrite Ascii.eqb_refl. reflexivity.
      * constructor; [now left|exact HF].
Qed.

(** X14.  [noise_bitstring] returns a string as long as its input, in
    which every character is the input's or its flip (0 for a 1, and 1 for
    any other character), and the count it returns is the number of
    positions at which the two strings differ.  A bitstring stays a
    bitstring. *)
Theorem noise_bitstring_counts_flips (encoded_bitstring : str)
        (flip_probability : Q) (g : rng) :
  exists noised_payload num_bit_flips g',
    HardDecodingNoisyChannelSimulator.noise_bitstring
      random float_mul encoded_bitstring flip_probability g
    = ((noised_payload, num_bit_flips), g')
    /\ length noised_payload = length encoded_bitstring
    /\ Forall2 (fun c c' => c' = c \/ c' = flipped c)
               encoded_bitstring noised_payload
    /\ num_bit_flips = differences encoded_bitstring noised_payload
    /\ (0 <= num_bit_flips <= Z.of_nat (length encoded_bitstring))%Z
    /\ (is_bitstring encoded_bitstring -> is_bitstring noised_payload).
Proof.
  destruct (noise_loop flip_probability encoded_bitstring [] 0%Z g)
    as [out [g' [Hf HF]]].
  exists out, (differences encoded_bitstring out), g'.
  pose proof (Forall2_length HF) as Hlen.
  split; [exact Hf|]. split; [now symmetry|]. split; [exact HF|].
  split; [reflexivity|]. split.
  - pose proof (differences_bounds encoded_bitstring out). lia.
  - intros Hb. clear Hf Hlen.
    induction HF as [|c c' s out' Hc _ IH]; [constructor|].
    inversion Hb as [|? ? Hbc Hbs]; subst.
    constructor; [|now apply IH].
    destruct Hc as [-> | ->]; [exact Hbc|apply flipped_is_bit].
Qed.

Lemma below_false (d : Z) (threshold : Q) :
  (threshold <= inject_Z d)%Q ->
  HardDecodingNoisyChannelSimulator.below d threshold = false.
Proof.
  intros H. unfold HardDecodingNoisyChannelSimulator.below.
  apply negb_false_iff. now apply Qle_bool_iff.
Qed.

Lemma below_true (d : Z) (threshold : Q) :
  (inject_Z d < threshold)%Q ->
  HardDecodingNoisyChannelSimulator.below d threshold = true.
Proof.
  intros H. unfold HardDecodingNoisyChannelSimulator.below.
  apply negb_true_iff. destruct (Qle_bool threshold (inject_Z d)) eqn:E; [|reflexivity].
  apply Qle_bool_iff in E. exfalso. exact (Qlt_not_le _ _ H E).
Qed.

(** The loop when no draw is below the threshold, and when every draw
    is. *)
Lemma noise_loop_none (flip_probability : Q) (s : str) :
  (forall g, HardDecodingNoisyChannelSimulator.below
               (fst (randint random 0 100 g)) (float_mul flip_probability 100)
             = false) ->
  forall (acc : str) (count : Z) (g : rng),
    fst (fold_left
           (fun (st : (str * Z) * rng) i =>
              let '((noised_payload, num_bit_flips), g) := st in
              let '(d, g) := randint random 0 100 g in
              if HardDecodingNoisyChannelSimulator.below
                   d (float_mul flip_probability 100) then
                let num_bit_flips := (num_bit_flips + 1)%Z in
                if Ascii.eqb i "1" then
                  ((noised_payload ++ ["0"%char], num_bit_flips), g)
                else ((noised_payload ++ ["1"%char], num_bit_flips), g)
              else ((noised_payload ++ [i], num_bit_flips), g))
           s ((acc, count), g))
    = (acc ++ s, count).
Proof.
  intros Hnone.
  match goal with |- context [fold_left ?b _ _] => set (body := b) end.
  assert (Hstep : forall acc count g c,
             body ((acc, count), g) c
             = ((acc ++ [c], count), snd (randint random 0 100 g))).
  { intros acc count g c. unfold body. specialize (Hnone g).
    destruct (randint random 0 100 g) as [d g1]. cbn [fst snd] in *.
    now rewrite Hnone. }
  induction s as [|c s IH]; intros acc count g.
  - cbn. now rewrite app_nil_r.
  - cbn [fold_left]. rewrite Hstep.
    eapply eq_trans; [apply IH|]. now rewrite <- app_assoc.
Qed.

Lemma noise_loop_all (flip_probability : Q) (s : str) :
  (forall g, HardDecodingNoisyChannelSimulator.below
               (fst (randint random 0 100 g)) (float_mul flip_probability 100)
             = true) ->
  forall (acc : str) (count : Z) (g : rng),
    fst (fold_left
           (fun (st : (str * Z) * rng) i =>
              let '((noised_payload, num_bit_flips), g) := st in
              let '(d, g) := randint random 0 100 g in
              if HardDecodingNoisyChannelSimulator.below
                   d (float_mul flip_probability 100) then
                let num_bit_flips := (num_bit_flips + 1)%Z in
                if Ascii.eqb i "1" then
                  ((noised_payload ++ ["0"%char], num_bit_flips), g)
                else ((noised_payload ++ ["1"%char], num_bit_flips), g)
              else ((noised_payload ++ [i], num_bit_flips), g))
           s ((acc, count), g))
    = (acc ++ map flipped s, (count + Z.of_nat (length s))%Z).
Proof.
  intros Hall.
  match goal with |- context [fold_left ?b _ _] => set (body := b) end.
  assert (Hstep : forall acc count g c,
             body ((acc, count), g) c
             = ((acc ++ [flipped c], (count + 1)%Z),
                snd (randint random 0 100 g))).
  { intros acc count g c. unfold body, flipped. specialize (Hall g).
    destruct (randint random 0 100 g) as [d g1]. cbn [fst snd] in *.
    rewrite Hall. now destruct (Ascii.eqb c "1"). }
  induction s as [|c s IH]; intros acc count g.
  - cbn. now rewrite app_nil_r, Z.add_0_r.
  - cbn [fold_left]. rewrite Hstep.
    eapply eq_trans; [apply IH|]. rewrite <- app_assoc.
    cbn [map app length]. f_equal. lia.
Qed.

(** X15.  The two ends of the flip probability.  The draw is an integer
    from 0 to 100 and a character is flipped when the draw is below
    flip_probability * 100.  When that product is at most 0 nothing is
    flipped and the count is 0; when it is above 100 every character is
    flipped and the count is the length.  When it is exactly 100 (a flip
    probability of 1) a draw of 100 leaves the character as it is. *)
Theorem noise_bitstring_extremes (encoded_bitstring : str)
        (flip_probability : Q) (g : rng) :
  randint_in_range random ->
  ((float_mul flip_probability 100 <= 0)%Q ->
   fst (HardDecodingNoisyChannelSimulator.noise_bitstring
          random float_mul encoded_bitstring flip_probability g)
   = (encoded_bitstring, 0%Z))
  /\ ((100 < float_mul flip_probability 100)%Q ->
      fst (HardDecodingNoisyChannelSimulator.noise_bitstring
             random float_mul encoded_bitstring flip_probability g)
      = (map flipped encoded_bitstring, Z.of_nat (length encoded_bitstring)))
  /\ ((float_mul flip_probability 100 == 100)%Q ->
      fst (randint random 0 100 g) = 100%Z ->
      forall c,
        fst (HardDecodingNoisyChannelSimulator.noise_bitstring
               random float_mul [c] flip_probability g)
        = ([c], 0%Z)).
Proof.
  intros Hrange. split; [|split].
  - intros Hp. unfold HardDecodingNoisyChannelSimulator.noise_bitstring.
    rewrite noise_loop_none; [reflexivity|].
    intros g0. apply below_false.
    apply Qle_trans with 0%Q; [exact Hp|].
    change 0%Q with (inject_Z 0). rewrite <- Zle_Qle. apply Hrange.
  - intros Hp. unfold HardDecodingNoisyChannelSimulator.noise_bitstring.
    rewrite noise_loop_all; [reflexivity|].
    intros g0. apply below_true.
    apply Qle_lt_trans with 100%Q; [|exact Hp].
    change 100%Q with (inject_Z 100). rewrite <- Zle_Qle. apply Hrange.
  - intros Hp Hd c. unfold HardDecodingNoisyChannelSimulator.noise_bitstring.
    cbn [fold_left]. destruct (randint random 0 100 g) as [d g1].
    cbn [fst] in Hd. subst d.
    rewrite below_false; [reflexivity|].
    rewrite Hp. apply Qle_refl.
Qed.

End HardNoise.

(** ** The simulators: a run *)

Lemma py_eq_chars (x y : ascii) : py_eq (PyStr [x]) (PyStr [y]) = Ascii.eqb x y.
Proof.
  cbn [py_eq]. unfold str_eqb.
  destruct (list_eq_dec ascii_dec [x] [y]) as [E|E].
  - inversion E; subst. symmetry. apply Ascii.eqb_refl.
  - symmetry. apply Ascii.eqb_neq. intros ->. now apply E.
Qed.

Lemma sum_ne_differences (a b : str) (total : Z) :
  fold_left (fun total p => (total + Z.b2z (negb (py_eq (fst p) (snd p))))%Z)
            (combine (map (fun c => PyStr [c]) a) (map (fun c => PyStr [c]) b))
            total
  = (total + differences a b)%Z.
Proof.
  revert b total. induction a as [|x a IH]; intros b total.
  - cbn. lia.
  - destruct b as [|y b]; [cbn; lia|].
    cbn [map combine fold_left fst snd differences].
    rewrite IH, py_eq_chars. destruct (Ascii.eqb x y); cbn [negb Z.b2z]; lia.
Qed.

(** The count of errors is the number of positions, within the shorter of
    the two strings, at which the message and the decoded payload differ. *)
Lemma count_errors_differences (message_bitstring decoded_payload : str) :
  count_errors message_bitstring decoded_payload
  = Ok (differences message_bitstring decoded_payload).
Proof.
  unfold count_errors, py_zip, sum_ne. cbn [py_iter bind].
  now rewrite sum_ne_differences.
Qed.

Lemma reed_solomon_encode_raise (utils : bitstring_utils) (self : ReedSolomon.t)
      (x : str) (e : exn) :
  ReedSolomon.encode utils self x = Raise e -> e = LibraryError.
Proof.
  rewrite encode_mapM.
  destruct (bitstring_to_ascii utils x) as [symbols|]; cbn [imported bind].
  2:{ intros H. now inversion H. }
  destruct (mapM _ _) as [cws|e'] eqn:Hm; cbn [bind]; [discriminate|].
  intros H. inversion H; subst e'.
  apply mapM_raise in Hm. destruct Hm as [i [_ Hi]].
  destruct (coder_encode _ _); [discriminate|now inversion Hi].
Qed.

Lemma viterbi_encode_raise (lib : viterbi_module) (self : Viterbi.t)
      (x : str) (e : exn) :
  Viterbi.encode lib self x = Raise e ->
  e = ValueError "invalid literal for int() with base 10".
Proof.
  unfold Viterbi.encode.
  destruct (mapM py_int x) as [l|e'] eqn:Hm; cbn [bind]; [discriminate|].
  intros H. inversion H; subst e'.
  apply mapM_raise in Hm. destruct Hm as [c [_ Hc]].
  unfold py_int in Hc. destruct (digit_of_char c); [discriminate|now inversion Hc].
Qed.

Lemma concatenated_encode_raise (utils : bitstring_utils) (lib : viterbi_module)
      (self : ConcatenatedViterbiRS.t) (x : str) (e : exn) :
  (final_encoded <- ConcatenatedViterbiRS.encode utils lib self x ;;
   as_str final_encoded) = Raise e ->
  e = LibraryError \/ e = ValueError "invalid literal for int() with base 10".
Proof.
  unfold ConcatenatedViterbiRS.encode.
  destruct (ReedSolomon.encode utils _ x) as [rs_encoded|e'] eqn:Hr; cbn [bind].
  2:{ intros H. inversion H; subst e'. left.
      exact (reed_solomon_encode_raise _ _ _ Hr). }
  destruct (Viterbi.encode lib _ rs_encoded) as [final|e'] eqn:Hv; cbn [bind as_str].
  - discriminate.
  - intros H. inversion H; subst e'. right.
    exact (viterbi_encode_raise _ _ _ Hv).
Qed.

(** A concatenated corrector whose layers agree on the mode is what
    [__init__] builds. *)
Lemma concatenated_as_built (c : ConcatenatedViterbiRS.t) :
  Viterbi.soft (ConcatenatedViterbiRS.viterbi_coder c)
  = ConcatenatedViterbiRS.soft c ->
  c = ConcatenatedViterbiRS.init
        {| new_RSCoder := fun _ _ =>
             ReedSolomon.coder (ConcatenatedViterbiRS.rs_coder c) |}
        (Viterbi.k (ConcatenatedViterbiRS.viterbi_coder c))
        (ReedSolomon.n (ConcatenatedViterbiRS.rs_coder c))
        (ReedSolomon.k (ConcatenatedViterbiRS.rs_coder c))
        (ConcatenatedViterbiRS.soft c).
Proof.
  destruct c as [soft [vk vsoft] [n k coder]]. cbn. intros ->. reflexivity.
Qed.

(** Decoding a value of the right type can only raise the error of
    [float], on a string. *)
Lemma viterbi_decode_typed (lib : viterbi_module) (self : Viterbi.t)
      (input : pyval) (e : exn) :
  Viterbi.check_input (Viterbi.soft self) input = Ok tt ->
  Viterbi.decode lib self input = Raise e ->
  e = ValueError "could not convert string to float"
  /\ exists s, input = PyStr s.
Proof.
  intros Hcheck Hd.
  destruct (Viterbi.read_input (Viterbi.soft self) input) as [observed|e'] eqn:Hread.
  { destruct (decode_branches lib self input Hread) as [[_ H]|[d [_ [_ H]]]];
      rewrite H in Hd; discriminate. }
  assert (e' = e).
  { unfold Viterbi.decode in Hd. rewrite Hread in Hd. cbn [bind] in Hd.
    now inversion Hd. }
  subst e'. unfold Viterbi.read_input in Hread. rewrite Hcheck in Hread.
  cbn [bind] in Hread.
  destruct input as [s|x|z|b|l|l|]; cbn [bind Viterbi.as_sequence] in Hread;
    try (unfold Viterbi.check_input in Hcheck;
         destruct (Viterbi.soft self); discriminate).
  destruct (mapM py_float s) as [fl|e'] eqn:Hm; cbn [bind Viterbi.as_sequence] in Hread;
    [discriminate|].
  inversion Hread; subst e'. split; [|now exists s].
  apply mapM_raise in Hm. destruct Hm as [c [_ Hc]].
  unfold py_float in Hc. destruct (digit_of_char c); [discriminate|now inversion Hc].
Qed.

Lemma concatenated_decode_typed (utils : bitstring_utils) (lib : viterbi_module)
      (c : ConcatenatedViterbiRS.t) (input : pyval) (e : exn) :
  Viterbi.soft (ConcatenatedViterbiRS.viterbi_coder c)
  = ConcatenatedViterbiRS.soft c ->
  Viterbi.check_input (ConcatenatedViterbiRS.soft c) input = Ok tt ->
  ConcatenatedViterbiRS.decode utils lib c input = Raise e ->
  e = LibraryError
  \/ (e = ValueError "could not convert string to float"
      /\ exists s, input = PyStr s).
Proof.
  intros Hbuilt Hcheck Hd.
  rewrite (concatenated_as_built c Hbuilt) in Hd.
  destruct (concatenated_decode_raise _ _ _ _ _ _ _ _ Hd) as [Hc|[Hv| ->]].
  - congruence.
  - right.
    exact (@viterbi_decode_typed lib
             (Viterbi.init (Viterbi.k (ConcatenatedViterbiRS.viterbi_coder c))
                           (ConcatenatedViterbiRS.soft c))
             input e Hcheck Hv).
  - now left.
Qed.

Section HardSimulation.

Variable utils : bitstring_utils.
Variable lib : viterbi_module.
Variable rng : Type.
Variable random : random_module rng.
Variable float_mul : Q -> Q -> Q.

(** X16.  What a run reports.  When [simulate] returns, the corrector
    encoded the message, decoded the noised payload, and the two counts
    printed are the number of positions at which the noised payload
    differs from the encoded one and the number of positions at which the
    decoded payload differs from the message.  The second count stops at
    the shorter of the two strings: what a short decoded payload lacks is
    not counted as an error. *)
Theorem simulate_reports_differences
        (self : HardDecodingNoisyChannelSimulator.t)
        (message_bitstring : str) (error_probability : Q) (g g' : rng)
        (lines : list (list printed)) :
  HardDecodingNoisyChannelSimulator.simulate
    utils lib random float_mul self message_bitstring error_probability g
  = Ok (lines, g') ->
  exists encoded_payload noised_payload num_bit_flips decoded_payload correctable,
    HardDecodingNoisyChannelSimulator.corrector_encode
      utils lib self message_bitstring = Ok encoded_payload
    /\ HardDecodingNoisyChannelSimulator.noise_bitstring
         random float_mul encoded_payload error_probability g
       = ((noised_payload, num_bit_flips), g')
    /\ HardDecodingNoisyChannelSimulator.corrector_decode
         utils lib self noised_payload = Ok (decoded_payload, correctable)
    /\ nth_error lines 6
       = Some [Value (PyInt (differences encoded_payload noised_payload));
               Text " bits flipped during noise addition."]
    /\ nth_error lines 7
       = Some [Text "Total errors: ";
               Value (PyInt (differences message_bitstring decoded_payload));
               Text " bits"]
    /\ (0 <= differences message_bitstring decoded_payload
        <= Z.of_nat (Nat.min (length message_bitstring)
                             (length decoded_payload)))%Z.
Proof.
  unfold HardDecodingNoisyChannelSimulator.simulate.
  destruct (HardDecodingNoisyChannelSimulator.corrector_encode
              utils lib self message_bitstring) as [encoded|e] eqn:Henc;
    cbn [bind]; [|discriminate].
  destruct (noise_loop random float_mul error_probability encoded [] 0%Z g)
    as [noised [g1 [Hnoise _]]].
  assert (Hn : HardDecodingNoisyChannelSimulator.noise_bitstring
                 random float_mul encoded error_probability g
               = ((noised, differences encoded noised), g1)) by exact Hnoise.
  rewrite Hn.
  destruct (HardDecodingNoisyChannelSimulator.corrector_decode
              utils lib self noised) as [[decoded flag]|e] eqn:Hdec;
    cbn [bind]; [|discriminate].
  rewrite count_errors_differences. cbn [bind].
  intros H. inversion H; subst lines g'. clear H.
  exists encoded, noised, (differences encoded noised), decoded, flag.
  split; [reflexivity|]. split; [exact Hn|]. split; [exact Hdec|].
  split; [reflexivity|]. split; [reflexivity|].
  apply differences_bounds.
Qed.

(** A run without noise on a corrector that gives the message back,
    possibly followed by padding. *)
Lemma simulate_without_noise (self : HardDecodingNoisyChannelSimulator.t)
      (message_bitstring encoded_payload rest : str) (correctable : bool)
      (error_probability : Q) (g : rng) :
  randint_in_range random ->
  (float_mul error_probability 100 <= 0)%Q ->
  HardDecodingNoisyChannelSimulator.corrector_encode
    utils lib self message_bitstring = Ok encoded_payload ->
  HardDecodingNoisyChannelSimulator.corrector_decode
    utils lib self encoded_payload
  = Ok (message_bitstring ++ rest, correctable) ->
  exists lines g',
    HardDecodingNoisyChannelSimulator.simulate
      utils lib random float_mul self message_bitstring error_probability g
    = Ok (lines, g')
    /\ nth_error lines 6
       = Some [Value (PyInt 0); Text " bits flipped during noise addition."]
    /\ nth_error lines 7
       = Some [Text "Total errors: "; Value (PyInt 0); Text " bits"].
Proof.
  intros Hrange Hp Henc Hdec.
  assert (Hnoise : fst (HardDecodingNoisyChannelSimulator.noise_bitstring
                          random float_mul encoded_payload error_probability g)
                   = (encoded_payload, 0%Z)).
  { unfold HardDecodingNoisyChannelSimulator.noise_bitstring.
    rewrite noise_loop_none; [reflexivity|].
    intros g0. apply below_false.
    apply Qle_trans with 0%Q; [exact Hp|].
    change 0%Q with (inject_Z 0). rewrite <- Zle_Qle. apply Hrange. }
  destruct (HardDecodingNoisyChannelSimulator.noise_bitstring
              random float_mul encoded_payload error_probability g)
    as [[noised flips] g1] eqn:Hn.
  cbn [fst] in Hnoise. inversion Hnoise; subst noised flips.
  eexists _, g1.
  unfold HardDecodingNoisyChannelSimulator.simulate.
  rewrite Henc. cbn [bind]. rewrite Hn, Hdec. cbn [bind].
  rewrite count_errors_differences. cbn [bind].
  rewrite differences_prefix.
  split; [reflexivity|]. split; reflexivity.
Qed.

(** X17.  A noise-free run on a Reed-Solomon corrector.  When
    flip_probability * 100 is at most 0 and the libraries meet their
    contracts, [simulate] on a message of whole bytes reports 0 bits
    flipped and 0 errors: the decoded payload is the message followed by
    the padding, and the comparison stops at the end of the message. *)
Theorem simulate_noise_free (c : ReedSolomon.t)
        (message_bitstring : str) (error_probability : Q) (g : rng) :
  utils_ok utils -> valid_config c ->
  coder_systematic c -> coder_decodes_clean c ->
  randint_in_range random ->
  (float_mul error_probability 100 <= 0)%Q ->
  is_bitstring message_bitstring -> length message_bitstring mod 8 = 0 ->
  exists lines g',
    HardDecodingNoisyChannelSimulator.simulate
      utils lib random float_mul
      {| HardDecodingNoisyChannelSimulator.error_corrector :=
           HardDecodingNoisyChannelSimulator.RS c |}
      message_bitstring error_probability g
    = Ok (lines, g')
    /\ nth_error lines 6
       = Some [Value (PyInt 0); Text " bits flipped during noise addition."]
    /\ nth_error lines 7
       = Some [Text "Total errors: "; Value (PyInt 0); Text " bits"].
Proof.
  intros U Hcfg Hsys Hclean Hrange Hp Hx Hmod.
  destruct (reads_bits U Hx) as [symbols [Hsyms Hback]].
  specialize (Hback Hmod).
  destruct (round_trip_symbols U Hcfg Hsys Hclean _ Hsyms)
    as [cws [_ [_ [Henc Hdec]]]].
  rewrite (writes_per_symbol U), Hback in Hdec.
  eapply simulate_without_noise; [exact Hrange|exact Hp|exact Henc|exact Hdec].
Qed.

(** X24.  A noise-free run on a hard-mode Viterbi corrector.  When
    flip_probability * 100 is at most 0 and the library's decoder inverts
    its encoder on a noise-free observation, [simulate] on a bitstring
    whose encoding has at least k characters reports 0 bits flipped and 0
    errors. *)
Theorem simulate_noise_free_viterbi (k : Z)
        (message_bitstring : str) (error_probability : Q) (g : rng) :
  decodes_noise_free lib k ->
  randint_in_range random ->
  (float_mul error_probability 100 <= 0)%Q ->
  is_bitstring message_bitstring ->
  (k <= 2 * Z.of_nat (length message_bitstring))%Z ->
  exists lines g',
    HardDecodingNoisyChannelSimulator.simulate
      utils lib random float_mul
      {| HardDecodingNoisyChannelSimulator.error_corrector :=
           HardDecodingNoisyChannelSimulator.Vit (Viterbi.init k false) |}
      message_bitstring error_probability g
    = Ok (lines, g')
    /\ nth_error lines 6
       = Some [Value (PyInt 0); Text " bits flipped during noise addition."]
    /\ nth_error lines 7
       = Some [Text "Total errors: "; Value (PyInt 0); Text " bits"].
Proof.
  intros Hlib Hrange Hp Hx Hk.
  destruct (@viterbi_wrapper_round_trip lib k message_bitstring Hlib Hx Hk)
    as [encoded [Henc [_ Hdec]]].
  rewrite <- (app_nil_r message_bitstring) in Hdec.
  eapply simulate_without_noise; [exact Hrange|exact Hp|exact Henc|exact Hdec].
Qed.

(** X25.  A noise-free run on a hard-mode concatenated corrector.  When
    flip_probability * 100 is at most 0 and the libraries meet their
    contracts, [simulate] on a non-empty message of whole bytes reports 0
    bits flipped and 0 errors, through both layers. *)
Theorem simulate_noise_free_concatenated (rs : unireedsolomon) (v_k : Z)
        (n rs_k : nat)
        (message_bitstring : str) (error_probability : Q) (g : rng) :
  utils_ok utils -> writes_bits utils ->
  valid_config (ReedSolomon.init rs n rs_k) ->
  coder_systematic (ReedSolomon.init rs n rs_k) ->
  coder_decodes_clean (ReedSolomon.init rs n rs_k) ->
  decodes_noise_free lib v_k ->
  (v_k <= 16 * Z.of_nat n)%Z ->
  randint_in_range random ->
  (float_mul error_probability 100 <= 0)%Q ->
  is_bitstring message_bitstring -> length message_bitstring mod 8 = 0 ->
  0 < length message_bitstring ->
  exists lines g',
    HardDecodingNoisyChannelSimulator.simulate
      utils lib random float_mul
      {| HardDecodingNoisyChannelSimulator.error_corrector :=
           HardDecodingNoisyChannelSimulator.Concat
             (ConcatenatedViterbiRS.init rs v_k n rs_k false) |}
      message_bitstring error_probability g
    = Ok (lines, g')
    /\ nth_error lines 6
       = Some [Value (PyInt 0); Text " bits flipped during noise addition."]
    /\ nth_error lines 7
       = Some [Text "Total errors: "; Value (PyInt 0); Text " bits"].
Proof.
  intros U W Hcfg Hsys Hclean Hlib Hvk Hrange Hp Hx Hmod Hpos.
  destruct (@concatenated_pipeline utils lib rs v_k n rs_k U W message_bitstring
              Hcfg Hsys Hclean Hlib Hvk Hx Hmod Hpos)
    as [rs_encoded [final [Henc [Hvenc [Hvdec Hdec]]]]].
  eapply simulate_without_noise with (encoded_payload := final);
    [exact Hrange|exact Hp| |].
  - unfold HardDecodingNoisyChannelSimulator.corrector_encode,
      ConcatenatedViterbiRS.encode.
    cbn [HardDecodingNoisyChannelSimulator.error_corrector
         ConcatenatedViterbiRS.init ConcatenatedViterbiRS.rs_coder
         ConcatenatedViterbiRS.viterbi_coder].
    rewrite Henc. cbn [bind]. rewrite Hvenc. reflexivity.
  - unfold HardDecodingNoisyChannelSimulator.corrector_decode,
      ConcatenatedViterbiRS.decode.
    cbn [HardDecodingNoisyChannelSimulator.error_corrector
         ConcatenatedViterbiRS.init ConcatenatedViterbiRS.rs_coder
         ConcatenatedViterbiRS.viterbi_coder ConcatenatedViterbiRS.soft
         Viterbi.check_input is_str negb bind].
    rewrite Hvdec. cbn [bind]. rewrite Hdec. reflexivity.
Qed.

(** X18.  A simulator that [__init__] accepted holds a Reed-Solomon
    corrector, or a Viterbi or concatenated corrector in hard mode.  When
    the Reed-Solomon layer of the corrector, if it has one, has
    1 <= k < n, [simulate] on it never raises one of the errors of the
    type checks of [decode], the payload it decodes being a string: it can
    only raise what a library raises, or the [ValueError] of [int] or of
    [float] on a character that is not a digit.  (With k = 0 the loop of
    [ReedSolomon.encode] has step 0 and [range] raises.) *)
Theorem hard_simulator_is_well_typed (o : object)
        (self : HardDecodingNoisyChannelSimulator.t) :
  as_built o ->
  reed_solomon_layer_valid o ->
  HardDecodingNoisyChannelSimulator.init o = inr self ->
  ((exists c, o = OfReedSolomon c
              /\ HardDecodingNoisyChannelSimulator.error_corrector self
                 = HardDecodingNoisyChannelSimulator.RS c)
   \/ (exists c, o = OfViterbi c /\ Viterbi.soft c = false
                 /\ HardDecodingNoisyChannelSimulator.error_corrector self
                    = HardDecodingNoisyChannelSimulator.Vit c)
   \/ (exists c, o = OfConcatenated c /\ ConcatenatedViterbiRS.soft c = false
                 /\ HardDecodingNoisyChannelSimulator.error_corrector self
                    = HardDecodingNoisyChannelSimulator.Concat c))
  /\ (forall message_bitstring error_probability g e,
        HardDecodingNoisyChannelSimulator.simulate
          utils lib random float_mul self message_bitstring error_probability g
        = Raise e ->
        e = LibraryError
        \/ e = ValueError "invalid literal for int() with base 10"
        \/ e = ValueError "could not convert string to float").
Proof.
  intros Hbuilt _ Hinit.
  assert (Hcases :
            (exists c, o = OfReedSolomon c
                       /\ HardDecodingNoisyChannelSimulator.error_corrector self
                          = HardDecodingNoisyChannelSimulator.RS c)
            \/ (exists c, o = OfViterbi c /\ Viterbi.soft c = false
                          /\ HardDecodingNoisyChannelSimulator.error_corrector self
                             = HardDecodingNoisyChannelSimulator.Vit c)
            \/ (exists c, o = OfConcatenated c
                          /\ ConcatenatedViterbiRS.soft c = false
                          /\ HardDecodingNoisyChannelSimulator.error_corrector self
                             = HardDecodingNoisyChannelSimulator.Concat c)).
  { unfold HardDecodingNoisyChannelSimulator.init in Hinit.
    destruct o as [c|c|c|v]; cbn in Hinit.
    - left. exists c. inversion Hinit. now split.
    - right. left. exists c. destruct (Viterbi.soft c); [discriminate|].
      inversion Hinit. now repeat split.
    - right. right. exists c.
      destruct (ConcatenatedViterbiRS.soft c); [discriminate|].
      inversion Hinit. now repeat split.
    - discriminate. }
  split; [exact Hcases|].
  intros message p g e.
  unfold HardDecodingNoisyChannelSimulator.simulate,
    HardDecodingNoisyChannelSimulator.corrector_encode,
    HardDecodingNoisyChannelSimulator.corrector_decode.
  destruct Hcases as [[c [-> Hc]]|[[c [-> [Hsoft Hc]]]|[c [-> [Hsoft Hc]]]]];
    rewrite Hc.
  - destruct (ReedSolomon.encode utils c message) as [encoded|e'] eqn:Henc;
      cbn [bind].
    2:{ intros H. inversion H; subst e'. left.
        exact (reed_solomon_encode_raise _ _ _ Henc). }
    destruct (HardDecodingNoisyChannelSimulator.noise_bitstring _ _ _ _ _)
      as [[noised flips] g1].
    destruct (ReedSolomon.decode utils c noised) as [[decoded flag]|e'] eqn:Hdec;
      cbn [bind].
    + rewrite count_errors_differences. discriminate.
    + intros H. inversion H; subst e'. left.
      exact (reed_solomon_decode_raise _ _ _ Hdec).
  - destruct (Viterbi.encode lib c message) as [encoded|e'] eqn:Henc; cbn [bind].
    2:{ intros H. inversion H; subst e'. right. left.
        exact (viterbi_encode_raise _ _ _ Henc). }
    destruct (HardDecodingNoisyChannelSimulator.noise_bitstring _ _ _ _ _)
      as [[noised flips] g1].
    destruct (Viterbi.decode lib c (PyStr noised)) as [[decoded flag]|e'] eqn:Hdec;
      cbn [bind].
    + rewrite count_errors_differences. discriminate.
    + intros H. inversion H; subst e'. right. right.
      apply (@viterbi_decode_typed lib c (PyStr noised) e); [|exact Hdec].
      now rewrite Hsoft.
  - destruct (final_encoded <- ConcatenatedViterbiRS.encode utils lib c message ;;
              as_str final_encoded) as [encoded|e'] eqn:Henc; cbn [bind].
    2:{ intros H. inversion H; subst e'.
        destruct (concatenated_encode_raise _ _ _ _ Henc) as [-> | ->];
          [now left|now right; left]. }
    destruct (HardDecodingNoisyChannelSimulator.noise_bitstring _ _ _ _ _)
      as [[noised flips] g1].
    destruct (ConcatenatedViterbiRS.decode utils lib c (PyStr noised))
      as [[decoded flag]|e'] eqn:Hdec; cbn [bind].
    + rewrite count_errors_differences. discriminate.
    + intros H. inversion H; subst e'.
      destruct (@concatenated_decode_typed utils lib c (PyStr noised) e)
        as [-> |[-> _]]; [exact Hbuilt| |exact Hdec|now left|now right; right].
      now rewrite Hsoft.
Qed.

End HardSimulation.

(** ** The soft-decoding simulator *)

Section SoftSimulation.

Variable utils : bitstring_utils.
Variable lib : viterbi_module.
Variable rng : Type.
Variable numpy : numpy_random rng.

(** The loop of the soft [noise_bitstring]: one float per character, drawn
    around -1 for the character 1 and around 1 for any other. *)
Lemma soft_noise_loop (noise_sigma : Q) (s : str) :
  forall (acc : list pyval) (g : rng),
    (exists vals g',
       for_loop
         (fun (st : list pyval * rng) i =>
            let '(noised_payload, g) := st in
            let mu := if Ascii.eqb i "1" then (-1)%Z else 1%Z in
            '(soft_value, g) <- imported (normal numpy mu noise_sigma g) ;;
            Ok (noised_payload ++ [PyFloat soft_value], g))
         s (acc, g)
       = Ok (acc ++ vals, g')
       /\ Forall2
            (fun c v =>
               exists x g1 g2,
                 normal numpy (if Ascii.eqb c "1" then (-1)%Z else 1%Z)
                        noise_sigma g1 = Some (x, g2)
                 /\ v = PyFloat x)
            s vals)
    \/ (for_loop
          (fun (st : list pyval * rng) i =>
             let '(noised_payload, g) := st in
             let mu := if Ascii.eqb i "1" then (-1)%Z else 1%Z in
             '(soft_value, g) <- imported (normal numpy mu noise_sigma g) ;;
             Ok (noised_payload ++ [PyFloat soft_value], g))
          s (acc, g)
        = Raise LibraryError
        /\ s <> []).
Proof.
  induction s as [|c s IH]; intros acc g.
  - left. exists [], g. cbn. rewrite app_nil_r. split; [reflexivity|constructor].
  - cbn [for_loop].
    destruct (normal numpy (if Ascii.eqb c "1" then (-1)%Z else 1%Z) noise_sigma g)
      as [[x g1]|] eqn:Hn; cbn [imported bind].
    + destruct (IH (acc ++ [PyFloat x]) g1) as [[vals [g' [Hf HF]]]|[Hf _]].
      * left. exists (PyFloat x :: vals), g'. split.
        -- eapply eq_trans; [exact Hf|]. now rewrite <- app_assoc.
        -- constructor; [|exact HF]. now exists x, g, g1.
      * right. split; [exact Hf|discriminate].
    + right. split; [reflexivity|discriminate].
Qed.

(** X19.  The soft [noise_bitstring] returns one float per character of
    its input, each a draw of [numpy.random.normal] around -1 for the
    character 1 and around 1 for any other character.  It raises only
    when a draw raises, which needs a character to draw for. *)
Theorem soft_noise_draws (encoded_bitstring : str) (noise_sigma : Q) (g : rng) :
  (exists noised_payload g',
     SoftDecodingNoisyChannelSimulator.noise_bitstring
       numpy encoded_bitstring noise_sigma g = Ok (noised_payload, g')
     /\ length noised_payload = length encoded_bitstring
     /\ forallb is_float noised_payload = true
     /\ Forall2
          (fun c v =>
             exists x g1 g2,
               normal numpy (if Ascii.eqb c "1" then (-1)%Z else 1%Z)
                      noise_sigma g1 = Some (x, g2)
               /\ v = PyFloat x)
          encoded_bitstring noised_payload)
  \/ (SoftDecodingNoisyChannelSimulator.noise_bitstring
        numpy encoded_bitstring noise_sigma g = Raise LibraryError
      /\ encoded_bitstring <> []).
Proof.
  destruct (soft_noise_loop noise_sigma encoded_bitstring [] g)
    as [[vals [g' [Hf HF]]]|[Hf Hne]].
  - left. exists vals, g'. split; [exact Hf|].
    split; [symmetry; exact (Forall2_length HF)|]. split; [|exact HF].
    apply forallb_forall. intros v Hv.
    clear Hf. induction HF as [|c v' s vs [x [g1 [g2 [_ ->]]]] _ IH];
      [destruct Hv|].
    destruct Hv as [<-|Hv]; [reflexivity|now apply IH].
  - right. split; [exact Hf|exact Hne].
Qed.

(** The correctors the soft [__init__] lets through. *)
Lemma soft_simulator_cases (o : object) :
  match SoftDecodingNoisyChannelSimulator.init o with
  | inr self =>
      (exists c, o = OfViterbi c /\ Viterbi.soft c = true
                 /\ SoftDecodingNoisyChannelSimulator.error_corrector self
                    = SoftDecodingNoisyChannelSimulator.Vit c)
      \/ (exists c, o = OfConcatenated c /\ ConcatenatedViterbiRS.soft c = true
                    /\ SoftDecodingNoisyChannelSimulator.error_corrector self
                       = SoftDecodingNoisyChannelSimulator.Concat c)
  | inl _ => True
  end.
Proof.
  unfold SoftDecodingNoisyChannelSimulator.init.
  destruct o as [c|c|c|v]; cbn; try exact I.
  - destruct (Viterbi.soft c) eqn:Hs; cbn; [|exact I].
    left. exists c. now repeat split.
  - destruct (ConcatenatedViterbiRS.soft c) eqn:Hs; cbn; [|exact I].
    right. exists c. now repeat split.
Qed.

(** X20.  [__init__] of the soft simulator accepts a Viterbi or a
    concatenated corrector in soft mode and nothing else.  A
    [ReedSolomon] corrector, which has no [soft] attribute, makes it raise
    [AttributeError]; another value, or a corrector in hard mode, fails an
    [assert]. *)
Theorem soft_simulator_accepts (o : object) :
  match SoftDecodingNoisyChannelSimulator.init o with
  | inr self =>
      (exists c, o = OfViterbi c /\ Viterbi.soft c = true
                 /\ SoftDecodingNoisyChannelSimulator.error_corrector self
                    = SoftDecodingNoisyChannelSimulator.Vit c)
      \/ (exists c, o = OfConcatenated c /\ ConcatenatedViterbiRS.soft c = true
                    /\ SoftDecodingNoisyChannelSimulator.error_corrector self
                       = SoftDecodingNoisyChannelSimulator.Concat c)
  | inl AttributeError => exists c, o = OfReedSolomon c
  | inl (AssertionError msg) =>
      (msg = msg_invalid_corrector /\ exists v, o = OfValue v)
      \/ (msg = SoftDecodingNoisyChannelSimulator.msg_not_soft
          /\ ((exists c, o = OfViterbi c /\ Viterbi.soft c = false)
              \/ (exists c, o = OfConcatenated c
                            /\ ConcatenatedViterbiRS.soft c = false)))
  end.
Proof.
  unfold SoftDecodingNoisyChannelSimulator.init.
  destruct o as [c|c|c|v]; cbn.
  - now exists c.
  - destruct (Viterbi.soft c) eqn:Hs; cbn.
    + left. exists c. now repeat split.
    + right. split; [reflexivity|]. left. now exists c.
  - destruct (ConcatenatedViterbiRS.soft c) eqn:Hs; cbn.
    + right. exists c. now repeat split.
    + right. split; [reflexivity|]. right. now exists c.
  - left. split; [reflexivity|]. now exists v.
Qed.

(** X21.  When the Reed-Solomon layer of a concatenated corrector has
    1 <= k < n, [simulate] on a soft simulator that [__init__] accepted
    never raises one of the errors of the type checks of [decode], the
    payload it decodes being a list of floats: it can only raise what a
    library raises, or the [ValueError] of [int] on a character of the
    message that is not a digit.  (With k = 0 the loop of
    [ReedSolomon.encode] has step 0 and [range] raises.) *)
Theorem soft_simulator_is_well_typed (o : object)
        (self : SoftDecodingNoisyChannelSimulator.t)
        (message_bitstring : str) (noise_sigma : Q) (g : rng) (e : exn) :
  as_built o ->
  reed_solomon_layer_valid o ->
  SoftDecodingNoisyChannelSimulator.init o = inr self ->
  SoftDecodingNoisyChannelSimulator.simulate
    utils lib numpy self message_bitstring noise_sigma g = Raise e ->
  e = LibraryError
  \/ e = ValueError "invalid literal for int() with base 10".
Proof.
  intros Hbuilt _ Hinit.
  pose proof (soft_simulator_cases o) as Hcases. rewrite Hinit in Hcases.
  unfold SoftDecodingNoisyChannelSimulator.simulate,
    SoftDecodingNoisyChannelSimulator.corrector_encode,
    SoftDecodingNoisyChannelSimulator.corrector_decode.
  assert (Hnoise : forall encoded,
             (exists noised g',
                SoftDecodingNoisyChannelSimulator.noise_bitstring
                  numpy encoded noise_sigma g = Ok (noised, g')
                /\ forallb is_float noised = true)
             \/ SoftDecodingNoisyChannelSimulator.noise_bitstring
                  numpy encoded noise_sigma g = Raise LibraryError).
  { intros encoded.
    destruct (soft_noise_loop noise_sigma encoded [] g)
      as [[vals [g' [Hf HF]]]|[Hf _]]; [left|right; exact Hf].
    exists vals, g'. split; [exact Hf|].
    apply forallb_forall. intros v Hv.
    clear Hf. induction HF as [|c v' s vs [x [g1 [g2 [_ ->]]]] _ IH];
      [destruct Hv|].
    destruct Hv as [<-|Hv]; [reflexivity|now apply IH]. }
  destruct Hcases as [[c [-> [Hsoft Hc]]]|[c [-> [Hsoft Hc]]]]; rewrite Hc.
  - destruct (Viterbi.encode lib c message_bitstring) as [encoded|e'] eqn:Henc;
      cbn [bind].
    2:{ intros H. inversion H; subst e'. right.
        exact (viterbi_encode_raise _ _ _ Henc). }
    destruct (Hnoise encoded) as [[noised [g' [Hn Hfloats]]]|Hn]; rewrite Hn;
      cbn [bind].
    2:{ intros H. inversion H. now left. }
    destruct (Viterbi.decode lib c (PyList noised)) as [[decoded flag]|e'] eqn:Hdec;
      cbn [bind].
    + rewrite count_errors_differences. discriminate.
    + intros H. exfalso.
      destruct (@viterbi_decode_typed lib c (PyList noised) e') as [_ [s E]];
        [|exact Hdec|discriminate].
      rewrite Hsoft. cbn [Viterbi.check_input is_list negb]. now rewrite Hfloats.
  - destruct (final_encoded <-
                ConcatenatedViterbiRS.encode utils lib c message_bitstring ;;
              as_str final_encoded) as [encoded|e'] eqn:Henc; cbn [bind].
    2:{ intros H. inversion H; subst e'.
        exact (concatenated_encode_raise _ _ _ _ Henc). }
    destruct (Hnoise encoded) as [[noised [g' [Hn Hfloats]]]|Hn]; rewrite Hn;
      cbn [bind].
    2:{ intros H. inversion H. now left. }
    destruct (ConcatenatedViterbiRS.decode utils lib c (PyList noised))
      as [[decoded flag]|e'] eqn:Hdec; cbn [bind].
    + rewrite count_errors_differences. discriminate.
    + intros H. inversion H; subst e'.
      destruct (@concatenated_decode_typed utils lib c (PyList noised) e)
        as [-> |[_ [s E]]]; [exact Hbuilt| |exact Hdec|now left|discriminate].
      rewrite Hsoft. cbn [Viterbi.check_input is_list negb]. now rewrite Hfloats.
Qed.

End SoftSimulation.

(** ** ReedSolomon: encoding block by block *)

Section BlockEncoding.

Variable utils : bitstring_utils.
Variable self : ReedSolomon.t.

Hypothesis U : utils_ok utils.

Lemma chunk_at_left (x r : str) (i : nat) :
  i + ReedSolomon.k self <= length x ->
  ReedSolomon.chunk_at self (x ++ r) i = ReedSolomon.chunk_at self x i.
Proof.
  intros H. unfold ReedSolomon.chunk_at. rewrite length_app.
  destruct (Nat.ltb_spec (length x + length r) (i + ReedSolomon.k self)); [lia|].
  destruct (Nat.ltb_spec (length x) (i + ReedSolomon.k self)); [lia|].
  now apply slice_left.
Qed.

Lemma chunk_at_right (x r : str) (i : nat) :
  ReedSolomon.chunk_at self (x ++ r) (length x + i)
  = ReedSolomon.chunk_at self r i.
Proof.
  unfold ReedSolomon.chunk_at, slice_from. rewrite length_app.
  destruct (Nat.ltb_spec (length x + length r) (length x + i + ReedSolomon.k self));
    destruct (Nat.ltb_spec (length r) (i + ReedSolomon.k self)); try lia.
  - rewrite skipn_app, skipn_all2 by lia. cbn [app].
    replace (length x + i - length x) with i by lia.
    do 2 f_equal. lia.
  - replace (length x + i + ReedSolomon.k self)
      with (length x + (i + ReedSolomon.k self)) by lia.
    now apply slice_shift.
Qed.

(** The symbols read from a bitstring of whole bytes are the only ones
    that are written as that bitstring. *)
Lemma symbols_of_bits (b symbols : str) :
  ascii_to_bitstring utils symbols = b ->
  bitstring_to_ascii utils b = Some symbols.
Proof. intros <-. apply (reads_back U). Qed.

(** X22.  [encode] works block by block: when the first part is a whole
    number of chunks of k bytes and the second part is whole bytes, the
    encoding of the two parts put together is the two encodings one after
    the other, and it raises when encoding either part raises. *)
Theorem encode_concat (a b : str) :
  0 < ReedSolomon.k self ->
  is_bitstring a -> is_bitstring b ->
  length a mod (ReedSolomon.k self * 8) = 0 -> length b mod 8 = 0 ->
  ReedSolomon.encode utils self (a ++ b)
  = (encoded_a <- ReedSolomon.encode utils self a ;;
     encoded_b <- ReedSolomon.encode utils self b ;;
     Ok (encoded_a ++ encoded_b)).
Proof.
  intros Hk Ha Hb Hma Hmb.
  set (k := ReedSolomon.k self) in *.
  apply Nat.Div0.div_exact in Hma.
  set (m := length a / (k * 8)) in *.
  destruct (reads_bits U Ha) as [sa [Hsa Hbacka]].
  destruct (reads_bits U Hb) as [sb [Hsb Hbackb]].
  assert (Ea : ascii_to_bitstring utils sa = a).
  { apply Hbacka. rewrite Hma.
    replace (k * 8 * m) with (k * m * 8) by lia. apply Nat.Div0.mod_mul. }
  specialize (Hbackb Hmb).
  assert (Hlen : length sa = m * k).
  { pose proof (writes_eight_bits U sa) as Hw. rewrite Ea in Hw. lia. }
  assert (Hsab : bitstring_to_ascii utils (a ++ b) = Some (sa ++ sb)).
  { apply symbols_of_bits. now rewrite (writes_per_symbol U), Ea, Hbackb. }
  rewrite !encode_mapM, Hsab, Hsa, Hsb. cbn [imported bind].
  unfold py_range. fold k. rewrite length_app, Hlen.
  replace (m * k + length sb + k - 1) with (m * k + (length sb + k - 1)) by lia.
  rewrite Nat.div_add_l by lia.
  replace ((m * k + k - 1) / k) with m
    by (apply Nat.div_unique with (k - 1); lia).
  rewrite seq_app, map_app, mapM_app. cbn [Nat.add].
  rewrite (seq_plus_map m), !map_map, !mapM_of_map.
  rewrite (mapM_ext_in
             (fun j => imported (coder_encode (ReedSolomon.coder self)
                         (ReedSolomon.chunk_at self (sa ++ sb) (j * k))))
             (fun j => imported (coder_encode (ReedSolomon.coder self)
                         (ReedSolomon.chunk_at self sa (j * k))))).
  2:{ intros j Hj. apply in_seq in Hj. rewrite chunk_at_left; [reflexivity|].
      fold k. nia. }
  rewrite (mapM_ext_in
             (fun j => imported (coder_encode (ReedSolomon.coder self)
                         (ReedSolomon.chunk_at self (sa ++ sb) ((m + j) * k))))
             (fun j => imported (coder_encode (ReedSolomon.coder self)
                         (ReedSolomon.chunk_at self sb (j * k))))).
  2:{ intros j _. replace ((m + j) * k) with (length sa + j * k) by lia.
      now rewrite chunk_at_right. }
  destruct (mapM _ (seq 0 m)) as [xs|e]; cbn [bind]; [|reflexivity].
  destruct (mapM _ (seq 0 ((length sb + k - 1) / k))) as [ys|e]; cbn [bind];
    [|reflexivity].
  now rewrite map_app, concat_app.
Qed.

End BlockEncoding.

(** ** The simulators: a message too short to decode *)

Lemma noised_is_bitstring (s out : str) :
  Forall2 (fun c c' => c' = c \/ c' = flipped c) s out ->
  is_bitstring s -> is_bitstring out.
Proof.
  induction 1 as [|c c' s out Hc _ IH]; intros Hb; [constructor|].
  inversion Hb as [|? ? Hbc Hbs]; subst.
  constructor; [|now apply IH].
  destruct Hc as [-> | ->]; [exact Hbc|apply flipped_is_bit].
Qed.

Lemma read_hard_digits (s : str) :
  forallb is_digit s = true ->
  exists observed,
    Viterbi.read_input false (PyStr s) = Ok observed
    /\ length observed = length s.
Proof.
  intros Hd.
  destruct (mapM_defined py_float s) as [fl [Hm HF]].
  { intros c Hc. rewrite forallb_forall in Hd. specialize (Hd c Hc).
    destruct (is_digit_py_float c) as [[_ [d H]]|[H _]];
      [now exists (inject_Z d)|congruence]. }
  exists (map PyFloat fl). split.
  - unfold Viterbi.read_input. cbn [Viterbi.check_input is_str negb bind].
    rewrite Hm. reflexivity.
  - rewrite length_map. symmetry. exact (Forall2_length HF).
Qed.

Section ShortMessage.

Variable utils : bitstring_utils.
Variable lib : viterbi_module.
Variable rng : Type.
Variable random : random_module rng.
Variable float_mul : Q -> Q -> Q.

(** X23.  A message too short for the Viterbi corrector.  When the
    encoding of the message is shorter than the constraint length k,
    [decode] takes its failure branch and returns the empty string, [zip]
    pairs nothing, and [simulate] prints 0 errors, whatever the noise. *)
Theorem simulate_short_message (k : Z) (message_bitstring : str)
        (error_probability : Q) (g : rng) :
  emits_bit_pairs lib k ->
  is_bitstring message_bitstring ->
  (2 * Z.of_nat (length message_bitstring) < k)%Z ->
  exists lines g',
    HardDecodingNoisyChannelSimulator.simulate
      utils lib random float_mul
      {| HardDecodingNoisyChannelSimulator.error_corrector :=
           HardDecodingNoisyChannelSimulator.Vit (Viterbi.init k false) |}
      message_bitstring error_probability g
    = Ok (lines, g')
    /\ nth_error lines 5 = Some [Text "Decoded bitstring: "; Value (PyStr [])]
    /\ nth_error lines 7
       = Some [Text "Total errors: "; Value (PyInt 0); Text " bits"].
Proof.
  intros Hlib Hx Hshort.
  destruct (@encode_digits lib (Viterbi.init k false) message_bitstring
              (is_bitstring_digits Hx)) as [input_stream [Hin Henc]].
  destruct (Hlib input_stream) as [Hout Hpairs].
  destruct (bit_pairs_written Hpairs) as [Hbits Hlen].
  set (encoded := flat_map (fun el => py_str (fst el) ++ py_str (snd el))
                           (stream_encoder lib k input_stream)) in *.
  destruct (noise_loop random float_mul error_probability encoded [] 0%Z g)
    as [noised [g1 [Hnoise HF]]].
  assert (Hn : HardDecodingNoisyChannelSimulator.noise_bitstring
                 random float_mul encoded error_probability g
               = ((noised, differences encoded noised), g1)) by exact Hnoise.
  pose proof (noised_is_bitstring HF Hbits) as Hnb.
  destruct (@read_hard_digits noised (is_bitstring_digits Hnb))
    as [observed [Hread Hobs]].
  assert (Hdec : Viterbi.decode lib (Viterbi.init k false) (PyStr noised)
                 = Ok ([], false)).
  { rewrite (@decode_invalid (Viterbi.init k false) lib (PyStr noised) observed Hread).
    - unfold str_mul. cbn [Viterbi.init Viterbi.k].
      replace (Z.to_nat (Z.of_nat (length observed) - k)) with 0; [reflexivity|].
      rewrite Hobs, <- (Forall2_length HF), Hlen, Hout, Hin. lia.
    - right. cbn [Viterbi.init Viterbi.k].
      rewrite Hobs, <- (Forall2_length HF), Hlen, Hout, Hin. lia. }
  eexists _, g1.
  unfold HardDecodingNoisyChannelSimulator.simulate,
    HardDecodingNoisyChannelSimulator.corrector_encode,
    HardDecodingNoisyChannelSimulator.corrector_decode.
  cbn [HardDecodingNoisyChannelSimulator.error_corrector].
  rewrite Henc. cbn [bind Viterbi.init Viterbi.k]. fold encoded.
  rewrite Hn, Hdec. cbn [bind]. rewrite count_errors_differences. cbn [bind].
  replace (differences message_bitstring []) with 0%Z
    by (now destruct message_bitstring).
  split; [reflexivity|]. split; reflexivity.
Qed.

End ShortMessage.

(** ** The instances meet what the further properties assume *)

Lemma reference_writes_bits : writes_bits Reference.utils.
Proof.
  intros s. cbn [ascii_to_bitstring Reference.utils].
  induction s as [|c s IH]; [constructor|].
  cbn [flat_map]. apply Forall_app. split; [|exact IH].
  destruct c as [b0 b1 b2 b3 b4 b5 b6 b7]. unfold Reference.symbol_bits.
  apply Forall_map, Forall_forall. intros b _. unfold Reference.bit_char.
  destruct b; [now right|now left].
Qed.

Lemma is_bit_value_b2z (b : bool) : is_bit_value (Z.b2z b).
Proof. destruct b; [now right|now left]. Qed.

Section SpecifiedViterbi.

Variable c : ViterbiSpec.code.
Variable K : Z.

Lemma spec_emits_bit_pairs : emits_bit_pairs (ViterbiSpec.module c) K.
Proof.
  intros input_stream. cbn [stream_encoder ViterbiSpec.module].
  unfold ViterbiSpec.stream_encoder. split.
  - now rewrite length_map, length_encode_from, length_map.
  - apply Forall_map, Forall_forall. intros o _. cbn [fst snd].
    split; apply is_bit_value_b2z.
Qed.

Lemma spec_decodes_to_bits : decodes_to_bits (ViterbiSpec.module c) K.
Proof.
  intros input_stream is_hard dec_list. cbn [Decoder ViterbiSpec.module].
  unfold ViterbiSpec.Decoder. intros H. inversion H; subst.
  apply Forall_map, Forall_forall. intros b _. apply is_bit_value_b2z.
Qed.

Lemma spec_decodes_noise_free :
  taps_input c (Z.to_nat K) -> decodes_noise_free (ViterbiSpec.module c) K.
Proof.
  intros Htap bits.
  exists (ViterbiSpec.encode_from c (Z.to_nat K)
            (ViterbiSpec.zero_state (Z.to_nat K)) bits).
  split; [|split].
  - cbn [stream_encoder ViterbiSpec.module]. unfold ViterbiSpec.stream_encoder.
    rewrite map_map, (map_ext _ (fun b => b)) by apply bit_of_int_bit.
    now rewrite map_id.
  - apply length_encode_from.
  - cbn [Decoder ViterbiSpec.module]. unfold ViterbiSpec.Decoder.
    now rewrite (trellis_decode_noise_free Htap bits).
Qed.

End SpecifiedViterbi.

Lemma lcg_in_range : randint_in_range Reference.lcg.
Proof.
  intros g. cbn [randint Reference.lcg fst].
  pose proof (Z.mod_pos_bound g (100 - 0 + 1)). lia.
Qed.

(** ** The further properties on concrete inputs *)

(** X1 on sixteen bits with n = 5: one chunk, shorter than a codeword. *)
Lemma codewords_partition_witness :
  exists chunks,
    concat chunks = Reference.lit "0000000100000010"
    /\ length chunks = 1
    /\ ReedSolomon.bitstring_to_codewords Reference.utils
         (ReedSolomon.init Reference.rs 5 3) (Reference.lit "0000000100000010")
       = mapM (fun chunk => imported (bitstring_to_ascii Reference.utils chunk))
              chunks.
Proof.
  destruct (@codewords_partition Reference.utils (ReedSolomon.init Reference.rs 5 3)
              (Reference.lit "0000000100000010"))
    as [chunks [Hcat [Hlen [_ [_ Hmap]]]]].
  - simpl. lia.
  - exists chunks. split; [exact Hcat|]. split; [exact Hlen|exact Hmap].
Defined.

(** X2 on two codewords of five symbols. *)
Lemma codewords_round_trip_witness :
  ReedSolomon.bitstring_to_codewords Reference.utils
    (ReedSolomon.init Reference.rs 5 3)
    (ReedSolomon.codewords_to_bitstring Reference.utils
       [Reference.lit "hello"; Reference.lit "world"])
  = Ok [Reference.lit "hello"; Reference.lit "world"].
Proof.
  apply (@codewords_round_trip Reference.utils (ReedSolomon.init Reference.rs 5 3)
           [Reference.lit "hello"; Reference.lit "world"]).
  - exact reference_utils_ok.
  - simpl. lia.
  - repeat constructor.
Defined.

(** X3 on sixteen bits with n = 5. *)
Lemma bitstring_round_trip_witness :
  exists codewords,
    ReedSolomon.bitstring_to_codewords Reference.utils
      (ReedSolomon.init Reference.rs 5 3) (Reference.lit "0000000100000010")
    = Ok codewords
    /\ ReedSolomon.codewords_to_bitstring Reference.utils codewords
       = Reference.lit "0000000100000010".
Proof.
  apply (@bitstring_round_trip Reference.utils (ReedSolomon.init Reference.rs 5 3)
           (Reference.lit "0000000100000010")).
  - exact reference_utils_ok.
  - simpl. lia.
  - bitstring.
  - reflexivity.
Defined.

(** X4 on a codeword of the (5, 3) coder followed by the same codeword with
    its first bit flipped. *)
Lemma decode_concat_witness :
  ReedSolomon.decode Reference.utils (ReedSolomon.init Reference.rs 5 3)
    (Reference.lit "1101001000000000000000001001111010000000"
     ++ Reference.lit "0101001000000000000000001001111010000000")
  = ('(decoded_a, correctable_a) <-
       ReedSolomon.decode Reference.utils (ReedSolomon.init Reference.rs 5 3)
         (Reference.lit "1101001000000000000000001001111010000000") ;;
     '(decoded_b, correctable_b) <-
       ReedSolomon.decode Reference.utils (ReedSolomon.init Reference.rs 5 3)
         (Reference.lit "0101001000000000000000001001111010000000") ;;
     Ok (decoded_a ++ decoded_b, correctable_a && correctable_b)).
Proof.
  apply (@decode_concat Reference.utils (ReedSolomon.init Reference.rs 5 3)
           (Reference.lit "1101001000000000000000001001111010000000")
           (Reference.lit "0101001000000000000000001001111010000000")).
  - simpl. lia.
  - reflexivity.
Defined.

(** X5 on the one-byte message 11010010 with the (5, 3) coder: sixteen
    padding bits follow the message. *)
Lemma round_trip_keeps_padding_witness :
  exists encoded,
    ReedSolomon.encode Reference.utils (ReedSolomon.init Reference.rs 5 3)
      (Reference.lit "11010010") = Ok encoded
    /\ ReedSolomon.decode Reference.utils (ReedSolomon.init Reference.rs 5 3)
         encoded
       = Ok (Reference.lit "11010010" ++ Reference.lit "0000000000000000", true).
Proof.
  apply (@round_trip_keeps_padding Reference.utils
           (ReedSolomon.init Reference.rs 5 3)).
  - exact reference_utils_ok.
  - apply coder_valid. lia.
  - apply coder_is_systematic. lia.
  - apply coder_decodes_clean_codewords. lia.
  - bitstring.
  - reflexivity.
Defined.

(** X6 on a 24-bit message with the (5, 3) coder: the round trip is
    exact, and [check] prints two errors. *)
Lemma check_total_errors_witness :
  exists err,
    nth_error
      [ [Text "----- REED SOLOMON CHECK -----"];
        [Text "Input bitstring:     ";
         Value (PyStr (Reference.lit "110100100000000000000000"))];
        [Text "Recovered bitstring: ";
         Value (PyTuple [PyStr (Reference.lit "110100100000000000000000");
                         PyBool true])];
        [Text "Total errors: "; Value (PyInt 2); Text " bits"] ] 3
    = Some [Text "Total errors: "; Value (PyInt err); Text " bits"]
    /\ err = 2%Z.
Proof.
  destruct (@check_total_errors Reference.utils (ReedSolomon.init Reference.rs 5 3)
              (Reference.lit "110100100000000000000000")
              [ [Text "----- REED SOLOMON CHECK -----"];
                [Text "Input bitstring:     ";
                 Value (PyStr (Reference.lit "110100100000000000000000"))];
                [Text "Recovered bitstring: ";
                 Value (PyTuple [PyStr (Reference.lit "110100100000000000000000");
                                 PyBool true])];
                [Text "Total errors: "; Value (PyInt 2); Text " bits"] ])
    as [err [Hline [_ [_ Hmin]]]].
  - vm_compute. reflexivity.
  - exists err. split; [exact Hline|].
    apply Hmin. exact (writes_eight_bits reference_utils_ok).
Defined.

(** X8 on the message 1010 with k = 5. *)
Lemma encode_doubles_length_witness :
  exists encoded_bitstring,
    Viterbi.encode Reference.viterbi (Viterbi.init 5 false) (Reference.lit "1010")
    = Ok encoded_bitstring
    /\ is_bitstring encoded_bitstring
    /\ length encoded_bitstring = 2 * length (Reference.lit "1010").
Proof.
  apply (@encode_doubles_length Reference.viterbi (Viterbi.init 5 false)
           (Reference.lit "1010")).
  - apply spec_emits_bit_pairs.
  - reflexivity.
Defined.

(** X10 on the hard input 1a: [float] raises on the second character. *)
Lemma decode_on_typed_input_witness :
  (exists s, PyStr (Reference.lit "1a") = PyStr s
             /\ Viterbi.soft (Viterbi.init 5 false) = false
             /\ forallb is_digit s = false
             /\ Viterbi.decode Reference.viterbi (Viterbi.init 5 false)
                  (PyStr (Reference.lit "1a"))
                = Raise (ValueError "could not convert string to float"))
  \/ (exists out correctable,
        Viterbi.decode Reference.viterbi (Viterbi.init 5 false)
          (PyStr (Reference.lit "1a")) = Ok (out, correctable)
        /\ forall s, PyStr (Reference.lit "1a") = PyStr s ->
                     forallb is_digit s = true).
Proof.
  apply (@decode_on_typed_input Reference.viterbi (Viterbi.init 5 false)
           (PyStr (Reference.lit "1a"))).
  cbn [wrong_type Viterbi.init Viterbi.soft]. intros H. apply H.
  now exists (Reference.lit "1a").
Defined.

(** X11 on the one-byte message 11010010, with the (5, 3) coder and
    k = 5. *)
Lemma concatenated_round_trip_witness :
  exists final_encoded,
    ConcatenatedViterbiRS.encode Reference.utils Reference.viterbi
      (ConcatenatedViterbiRS.init Reference.rs 5 5 3 false)
      (Reference.lit "11010010")
    = Ok (PyStr final_encoded)
    /\ ConcatenatedViterbiRS.decode Reference.utils Reference.viterbi
         (ConcatenatedViterbiRS.init Reference.rs 5 5 3 false)
         (PyStr final_encoded)
       = Ok (Reference.lit "11010010" ++ Reference.lit "0000000000000000", true).
Proof.
  apply (@concatenated_round_trip Reference.utils Reference.viterbi Reference.rs
           5 5 3 reference_utils_ok reference_writes_bits
           (Reference.lit "11010010")).
  - apply coder_valid. lia.
  - apply coder_is_systematic. lia.
  - apply coder_decodes_clean_codewords. lia.
  - apply spec_decodes_noise_free. reflexivity.
  - vm_compute. discriminate.
  - bitstring.
  - reflexivity.
  - simpl. lia.
Defined.

(** X12 on the same message: one codeword, 16 * 5 characters. *)
Lemma concatenated_encode_size_witness :
  exists final_encoded,
    ConcatenatedViterbiRS.encode Reference.utils Reference.viterbi
      (ConcatenatedViterbiRS.init Reference.rs 5 5 3 false)
      (Reference.lit "11010010")
    = Ok (PyStr final_encoded)
    /\ is_bitstring final_encoded
    /\ length final_encoded = 80.
Proof.
  apply (@concatenated_encode_size Reference.utils Reference.viterbi Reference.rs
           5 5 3 reference_utils_ok reference_writes_bits false
           (Reference.lit "11010010")).
  - apply coder_valid. lia.
  - apply coder_is_systematic. lia.
  - apply spec_emits_bit_pairs.
  - bitstring.
  - reflexivity.
Defined.

(** X13 on the seven-character hard input 1110000. *)
Lemma concatenated_decode_returns_witness :
  exists decoded correctable,
    ConcatenatedViterbiRS.decode Reference.utils Reference.viterbi
      (ConcatenatedViterbiRS.init Reference.rs 5 5 3 false)
      (PyStr (Reference.lit "1110000"))
    = Ok (decoded, correctable).
Proof.
  apply (@concatenated_decode_returns Reference.utils Reference.viterbi
           Reference.rs 5 5 3 reference_utils_ok false
           (PyStr (Reference.lit "1110000"))).
  - lia.
  - apply spec_decodes_to_bits.
  - cbn [wrong_type]. intros H. apply H. now eexists.
  - intros s E. inversion E; subst s. reflexivity.
Defined.

(** X15 with a flip probability of 0 on the string 1010. *)
Lemma noise_bitstring_extremes_witness :
  fst (HardDecodingNoisyChannelSimulator.noise_bitstring
         Reference.lcg Qmult (Reference.lit "1010") 0 42%Z)
  = (Reference.lit "1010", 0%Z).
Proof.
  destruct (@noise_bitstring_extremes Z Reference.lcg Qmult
              (Reference.lit "1010") 0%Q 42%Z lcg_in_range) as [Hnone _].
  apply Hnone. vm_compute. discriminate.
Defined.

(** X16 on a run of the hard Viterbi corrector with k = 5. *)
Lemma simulate_reports_differences_witness :
  exists lines g' errors,
    HardDecodingNoisyChannelSimulator.simulate
      Reference.utils Reference.viterbi Reference.lcg Qmult
      {| HardDecodingNoisyChannelSimulator.error_corrector :=
           HardDecodingNoisyChannelSimulator.Vit (Viterbi.init 5 false) |}
      (Reference.lit "11010010") (1 # 4) 42%Z
    = Ok (lines, g')
    /\ nth_error lines 7
       = Some [Text "Total errors: "; Value (PyInt errors); Text " bits"]
    /\ (0 <= errors <= 8)%Z.
Proof.
  destruct (HardDecodingNoisyChannelSimulator.simulate
              Reference.utils Reference.viterbi Reference.lcg Qmult
              {| HardDecodingNoisyChannelSimulator.error_corrector :=
                   HardDecodingNoisyChannelSimulator.Vit (Viterbi.init 5 false) |}
              (Reference.lit "11010010") (1 # 4) 42%Z)
    as [[lines g']|e] eqn:Hrun; [|vm_compute in Hrun; discriminate].
  destruct (simulate_reports_differences _ _ _ _ _ _ _ _ Hrun)
    as [encoded [noised [flips [decoded [flag [_ [_ [_ [_ [Hline Hbound]]]]]]]]]].
  exists lines, g', (differences (Reference.lit "11010010") decoded).
  split; [reflexivity|]. split; [exact Hline|].
  change (length (Reference.lit "11010010")) with 8 in Hbound. lia.
Defined.

(** X17 on the one-byte message 11010010 with the (5, 3) coder. *)
Lemma simulate_noise_free_witness :
  exists lines g',
    HardDecodingNoisyChannelSimulator.simulate
      Reference.utils Reference.viterbi Reference.lcg Qmult
      {| HardDecodingNoisyChannelSimulator.error_corrector :=
           HardDecodingNoisyChannelSimulator.RS
             (ReedSolomon.init Reference.rs 5 3) |}
      (Reference.lit "11010010") 0 42%Z
    = Ok (lines, g')
    /\ nth_error lines 6
       = Some [Value (PyInt 0); Text " bits flipped during noise addition."]
    /\ nth_error lines 7
       = Some [Text "Total errors: "; Value (PyInt 0); Text " bits"].
Proof.
  apply (@simulate_noise_free Reference.utils Reference.viterbi Z Reference.lcg
           Qmult (ReedSolomon.init Reference.rs 5 3)
           (Reference.lit "11010010") 0%Q 42%Z).
  - exact reference_utils_ok.
  - apply coder_valid. lia.
  - apply coder_is_systematic. lia.
  - apply coder_decodes_clean_codewords. lia.
  - exact lcg_in_range.
  - vm_compute. discriminate.
  - bitstring.
  - reflexivity.
Defined.

(** X18 on the Reed-Solomon corrector (5, 3). *)
Lemma hard_simulator_is_well_typed_witness :
  ((exists c, OfReedSolomon (ReedSolomon.init Reference.rs 5 3) = OfReedSolomon c
              /\ HardDecodingNoisyChannelSimulator.RS
                   (ReedSolomon.init Reference.rs 5 3)
                 = HardDecodingNoisyChannelSimulator.RS c)
   \/ (exists c, OfReedSolomon (ReedSolomon.init Reference.rs 5 3) = OfViterbi c
                 /\ Viterbi.soft c = false
                 /\ HardDecodingNoisyChannelSimulator.RS
                      (ReedSolomon.init Reference.rs 5 3)
                    = HardDecodingNoisyChannelSimulator.Vit c)
   \/ (exists c, OfReedSolomon (ReedSolomon.init Reference.rs 5 3)
                 = OfConcatenated c
                 /\ ConcatenatedViterbiRS.soft c = false
                 /\ HardDecodingNoisyChannelSimulator.RS
                      (ReedSolomon.init Reference.rs 5 3)
                    = HardDecodingNoisyChannelSimulator.Concat c))
  /\ (forall message_bitstring error_probability g e,
        HardDecodingNoisyChannelSimulator.simulate
          Reference.utils Reference.viterbi Reference.lcg Qmult
          {| HardDecodingNoisyChannelSimulator.error_corrector :=
               HardDecodingNoisyChannelSimulator.RS
                 (ReedSolomon.init Reference.rs 5 3) |}
          message_bitstring error_probability g
        = Raise e ->
        e = LibraryError
        \/ e = ValueError "invalid literal for int() with base 10"
        \/ e = ValueError "could not convert string to float").
Proof.
  apply (@hard_simulator_is_well_typed Reference.utils Reference.viterbi Z
           Reference.lcg Qmult
           (OfReedSolomon (ReedSolomon.init Reference.rs 5 3))
           {| HardDecodingNoisyChannelSimulator.error_corrector :=
                HardDecodingNoisyChannelSimulator.RS
                  (ReedSolomon.init Reference.rs 5 3) |}).
  - exact I.
  - simpl. apply coder_valid. lia.
  - reflexivity.
Defined.

(** X21 on the soft-mode concatenated corrector (5; 5, 3), the message
    11010010 and a negative standard deviation, on which the draw
    raises. *)
Lemma soft_simulator_is_well_typed_witness :
  LibraryError = LibraryError
  \/ LibraryError = ValueError "invalid literal for int() with base 10".
Proof.
  apply (@soft_simulator_is_well_typed Reference.utils Reference.viterbi unit
           Reference.centred
           (OfConcatenated (ConcatenatedViterbiRS.init Reference.rs 5 5 3 true))
           {| SoftDecodingNoisyChannelSimulator.error_corrector :=
                SoftDecodingNoisyChannelSimulator.Concat
                  (ConcatenatedViterbiRS.init Reference.rs 5 5 3 true) |}
           (Reference.lit "11010010") (-1 # 2) tt LibraryError).
  - reflexivity.
  - simpl. apply coder_valid. lia.
  - reflexivity.
  - vm_compute. reflexivity.
Defined.

(** X22 on three bytes followed by one byte, with the (5, 3) coder. *)
Lemma encode_concat_witness :
  ReedSolomon.encode Reference.utils (ReedSolomon.init Reference.rs 5 3)
    (Reference.lit "110100100000000100000010" ++ Reference.lit "11111111")
  = (encoded_a <-
       ReedSolomon.encode Reference.utils (ReedSolomon.init Reference.rs 5 3)
         (Reference.lit "110100100000000100000010") ;;
     encoded_b <-
       ReedSolomon.encode Reference.utils (ReedSolomon.init Reference.rs 5 3)
         (Reference.lit "11111111") ;;
     Ok (encoded_a ++ encoded_b)).
Proof.
  apply (@encode_concat Reference.utils (ReedSolomon.init Reference.rs 5 3)
           reference_utils_ok).
  - simpl. lia.
  - bitstring.
  - bitstring.
  - reflexivity.
  - reflexivity.
Defined.

(** X23 on the message 10 with k = 5 and a flip probability of 1/4. *)
Lemma simulate_short_message_witness :
  exists lines g',
    HardDecodingNoisyChannelSimulator.simulate
      Reference.utils Reference.viterbi Reference.lcg Qmult
      {| HardDecodingNoisyChannelSimulator.error_corrector :=
           HardDecodingNoisyChannelSimulator.Vit (Viterbi.init 5 false) |}
      (Reference.lit "10") (1 # 4) 42%Z
    = Ok (lines, g')
    /\ nth_error lines 5 = Some [Text "Decoded bitstring: "; Value (PyStr [])]
    /\ nth_error lines 7
       = Some [Text "Total errors: "; Value (PyInt 0); Text " bits"].
Proof.
  apply (@simulate_short_message Reference.utils Reference.viterbi Z
           Reference.lcg Qmult 5 (Reference.lit "10") (1 # 4) 42%Z).
  - apply spec_emits_bit_pairs.
  - bitstring.
  - vm_compute. reflexivity.
Defined.


(** X24 on the message 1010 with k = 5. *)
Lemma simulate_noise_free_viterbi_witness :
  exists lines g',
    HardDecodingNoisyChannelSimulator.simulate
      Reference.utils Reference.viterbi Reference.lcg Qmult
      {| HardDecodingNoisyChannelSimulator.error_corrector :=
           HardDecodingNoisyChannelSimulator.Vit (Viterbi.init 5 false) |}
      (Reference.lit "1010") 0 42%Z
    = Ok (lines, g')
    /\ nth_error lines 6
       = Some [Value (PyInt 0); Text " bits flipped during noise addition."]
    /\ nth_error lines 7
       = Some [Text "Total errors: "; Value (PyInt 0); Text " bits"].
Proof.
  apply (@simulate_noise_free_viterbi Reference.utils Reference.viterbi Z
           Reference.lcg Qmult 5 (Reference.lit "1010") 0%Q 42%Z).
  - apply spec_decodes_noise_free. reflexivity.
  - exact lcg_in_range.
  - vm_compute. discriminate.
  - bitstring.
  - vm_compute. discriminate.
Defined.

(** X25 on the one-byte message 11010010, with the (5, 3) coder and
    k = 5. *)
Lemma simulate_noise_free_concatenated_witness :
  exists lines g',
    HardDecodingNoisyChannelSimulator.simulate
      Reference.utils Reference.viterbi Reference.lcg Qmult
      {| HardDecodingNoisyChannelSimulator.error_corrector :=
           HardDecodingNoisyChannelSimulator.Concat
             (ConcatenatedViterbiRS.init Reference.rs 5 5 3 false) |}
      (Reference.lit "11010010") 0 42%Z
    = Ok (lines, g')
    /\ nth_error lines 6
       = Some [Value (PyInt 0); Text " bits flipped during noise addition."]
    /\ nth_error lines 7
       = Some [Text "Total errors: "; Value (PyInt 0); Text " bits"].
Proof.
  apply (@simulate_noise_free_concatenated Reference.utils Reference.viterbi Z
           Reference.lcg Qmult Reference.rs 5 5 3 (Reference.lit "11010010")
           0%Q 42%Z).
  - exact reference_utils_ok.
  - exact reference_writes_bits.
  - apply coder_valid. lia.
  - apply coder_is_systematic. lia.
  - apply coder_decodes_clean_codewords. lia.
  - apply spec_decodes_noise_free. reflexivity.
  - vm_compute. discriminate.
  - exact lcg_in_range.
  - vm_compute. discriminate.
  - bitstring.
  - reflexivity.
  - simpl. lia.
Defined.
